(** * protobuf3: wire encoder and schema compiler

    A shallow embedding of the encoder (encode.go) and of the schema
    compiler (protobuf3/properties.go) of mistsys/protobuf, with the
    properties of the wire format proved over it.

    Conventions.
    - An unsigned machine integer (uint8, uint32, uint64) is an [N] and
      the conversion to a narrower type is written out as a remainder.
      Signed integers are [Z]; [uint64_of_Z] is Go's conversion
      [uint64(x)] of a signed value.
    - A Go [int] is a [Z].
    - A Go slice is a window over a backing array: [slice] keeps the
      visible bytes and the rest of the array up to the capacity.
      [append], re-slicing, [copy] and indexed stores
      are those of the Go language, with the run-time panic of an
      out-of-range index written as [None].
    - A *Buffer is threaded explicitly: an encoder is a function from the
      buffer before to the buffer after. *)

From Stdlib Require Import NArith ZArith Lia Ascii String.
From stdpp Require Import base list option gmap strings sorting.
From Equations Require Import Equations.

Set Warnings "-register-all".

Local Open Scope N_scope.

(** ** Machine integers *)

Definition uint8 (x : N) : N := x mod 2 ^ 8.
Definition uint32 (x : N) : N := x mod 2 ^ 32.
Definition uint64 (x : N) : N := x mod 2 ^ 64.

(** [uint64(x)] for a signed [x]: two's complement on 64 bits. *)
Definition uint64_of_Z (x : Z) : N := Z.to_N (x mod 2 ^ 64)%Z.

(** [int32(x)] for a signed [x]: wrap to 32 bits, signed. *)
Definition int32 (x : Z) : Z := ((x + 2 ^ 31) mod 2 ^ 32 - 2 ^ 31)%Z.

(** [int64(x)] of an unsigned 64-bit [x]. *)
Definition int64_of_N (x : N) : Z :=
  if decide (x mod 2 ^ 64 < 2 ^ 63) then Z.of_N (x mod 2 ^ 64)
  else (Z.of_N (x mod 2 ^ 64) - 2 ^ 64)%Z.

(** The number of bits of [x], less one: what a loop that shifts [x] right
    until it is small counts down. *)
Definition bits (x : N) : nat := N.to_nat (N.log2 x).

Lemma bits_shiftr_7 x : 2 ^ 7 <= x -> (bits (N.shiftr x 7) < bits x)%nat.
Proof.
  intros Hx. unfold bits. rewrite N.log2_shiftr.
  assert (7 <= N.log2 x) by (change 7 with (N.log2 (2 ^ 7)); by apply N.log2_le_mono).
  lia.
Qed.

(** ** Go slices of bytes *)

(** A slice is a window on a backing array: the bytes a reader sees, and
    the rest of the array up to the capacity, which an append within the
    capacity or a re-slice beyond the length brings back into view. *)
Record slice := mkSlice {
  visible : list N;
  spare : list N
}.

Definition arr (s : slice) : list N := visible s ++ spare s.
Definition len (s : slice) : Z := Z.of_nat (length (visible s)).
Definition cap (s : slice) : Z := Z.of_nat (length (arr s)).

(** The window of the first [n] elements of an array. *)
Definition window (a : list N) (n : Z) : slice :=
  mkSlice (take (Z.to_nat n) a) (drop (Z.to_nat n) a).

Definition nil_slice : slice := mkSlice [] [].

Section Encoder.

(** The run time's growth policy: the capacity of the array allocated when
    an append does not fit ([growslice oldcap needed]).  Nothing below
    depends on which policy it is. *)
Variable growslice : Z -> Z -> Z.

(** [append(s, bs...)]: in place when the capacity suffices, else into a
    fresh zeroed array that receives a copy of the visible bytes. *)
Definition append (s : slice) (bs : list N) : slice :=
  let n := (len s + Z.of_nat (length bs))%Z in
  if decide (n <= cap s)%Z then
    mkSlice (visible s ++ bs) (drop (length bs) (spare s))
  else
    mkSlice (visible s ++ bs) (replicate (Z.to_nat (growslice (cap s) n - n)) 0).

(** [s[:n]]: panics unless [0 <= n <= cap(s)]. *)
Definition reslice (s : slice) (n : Z) : option slice :=
  if decide (0 <= n <= cap s)%Z then Some (window (arr s) n) else None.

(** The bytes of [s[a:]]: panics unless [0 <= a <= len(s)]. *)
Definition bytes_from (s : slice) (a : Z) : option (list N) :=
  if decide (0 <= a <= len s)%Z then Some (drop (Z.to_nat a) (visible s)) else None.

(** [copy(s[d:], s[a:b])]: both windows are on the array of [s]; the
    copy is a memmove of [min(len(s)-d, b-a)] bytes. *)
Definition copy_within (s : slice) (d a b : Z) : option slice :=
  if decide (0 <= d <= len s /\ 0 <= a <= b /\ b <= cap s)%Z then
    let n := Z.to_nat (Z.min (len s - d) (b - a)) in
    let d := Z.to_nat d in
    Some (window (take d (arr s) ++ take n (drop (Z.to_nat a) (arr s))
                    ++ drop (d + n) (arr s)) (len s))
  else None.

(** [s[i] = v]: panics unless [0 <= i < len(s)]. *)
Definition store (s : slice) (i : Z) (v : N) : option slice :=
  if decide (0 <= i < len s)%Z
  then Some (mkSlice (<[Z.to_nat i := v]> (visible s)) (spare s)) else None.

(** [s[i]]: panics unless [0 <= i < len(s)]. *)
Definition load (s : slice) (i : Z) : option N :=
  if decide (0 <= i < len s)%Z then visible s !! Z.to_nat i else None.

(** ** Errors *)

Inductive error :=
| errRepeatedHasNil
| ErrNil
| ErrNotPointerToStruct
| ErrNotStructPtr (t : string)                    (* can't Marshal(t): not a *struct type *)
| ErrBuggyAppender (pkg name : string) (n : Z)    (* buggy pkg.(name).AppendProtobuf3 ... len n *)
| ErrUser (msg : string)                          (* an error made by a user's method *)
| ErrLacksTag (name typ : string)                 (* name (typ) lacks a protobuf tag *)
| ErrTooFewFields (name s : string)               (* tag of name has too few fields: s *)
| ErrUnknownWireType (name s : string)            (* tag of name has unknown wire type: s *)
| ErrTagInvalid (name s : string)                 (* tag id of name invalid: s *)
| ErrTagOutOfRange (name s : string).             (* tag id of name out of range: s *)

(** ** The buffer *)

Record Buffer := mkBuffer {
  buf : slice;
  err : option error
}.

Definition set_buf (o : Buffer) (s : slice) : Buffer := mkBuffer s (err o).

(** [o.buf = append(o.buf, bs...)] *)
Definition put (bs : list N) (o : Buffer) : Buffer := set_buf o (append (buf o) bs).

(** Modelled from the spec: [noteError], whose body is not in the encoder's
    file.  An error is "recorded on the in-flight encode operation"; the
    first one recorded is the one kept. *)
Definition noteError (e : error) (o : Buffer) : Buffer :=
  match err o with
  | None => mkBuffer (buf o) (Some e)
  | Some _ => o
  end.

(** ** The fundamental encoders *)

(** The loop [for x >= 1<<7 { buf = append(buf, uint8(x)|0x80); x >>= 7 }]
    followed by [buf = append(buf, uint8(x))], shared by the 32-bit and
    the 64-bit path of EncodeVarint: a right shift is the same on both
    widths. *)
Equations? varint_loop (x : N) (p : Buffer) : Buffer by wf (bits x) lt :=
  varint_loop x p :=
    if decide (2 ^ 7 <= x)
    then varint_loop (N.shiftr x 7) (put [N.lor (uint8 x) 0x80] p)
    else put [uint8 x] p.
Proof. apply bits_shiftr_7. lia. Qed.

Definition EncodeVarint (x : N) (p : Buffer) : Buffer :=
  let x32 := uint32 x in
  if decide (N.shiftr x 32 = 0) then
    if decide (x32 < 2 ^ 7) then put [uint8 x32] p
    else if decide (x < 2 ^ 14) then
      put [N.lor (uint8 x32) 0x80; uint8 (N.shiftr x32 7)] p
    else
      let p := put [N.lor (uint8 x32) 0x80; N.lor (uint8 (N.shiftr x32 7)) 0x80] p in
      let x32 := N.shiftr x32 14 in
      varint_loop x32 p
  else
    let p := put [N.lor (uint8 x32) 0x80; N.lor (uint8 (N.shiftr x32 7)) 0x80;
                  N.lor (uint8 (N.shiftr x32 14)) 0x80;
                  N.lor (uint8 (N.shiftr x32 21)) 0x80] p in
    let x := N.shiftr x 28 in
    varint_loop x p.

(** The loop [for { n++; x >>= 7; if x == 0 { break } }] of SizeVarint. *)
Equations? size_loop (x : N) (n : Z) : Z by wf (bits x) lt :=
  size_loop x n :=
    let n' := (n + 1)%Z in
    let x' := N.shiftr x 7 in
    if decide (x' = 0) then n' else size_loop x' n'.
Proof.
  apply bits_shiftr_7. subst x'.
  destruct (decide (2 ^ 7 <= x)) as [|Hlt]; [done|]. exfalso.
  rewrite N.shiftr_div_pow2 in *. rewrite N.div_small in * by lia. done.
Qed.

Definition SizeVarint (x : N) : Z :=
  if decide (N.shiftr x 32 = 0) then size_loop (uint32 x) 0 else size_loop x 0.

Definition EncodeFixed64 (x : N) (p : Buffer) : Buffer :=
  put [uint8 x; uint8 (N.shiftr x 8); uint8 (N.shiftr x 16); uint8 (N.shiftr x 24);
       uint8 (N.shiftr x 32); uint8 (N.shiftr x 40); uint8 (N.shiftr x 48);
       uint8 (N.shiftr x 56)] p.

Definition EncodeFixed32 (x : N) (p : Buffer) : Buffer :=
  put [uint8 x; uint8 (N.shiftr x 8); uint8 (N.shiftr x 16); uint8 (N.shiftr x 24)] p.

(** [EncodeVarint(uint64((x << 1) ^ uint64(int64(x) >> 63)))] *)
Definition EncodeZigzag64 (x : N) (p : Buffer) : Buffer :=
  EncodeVarint
    (N.lxor (uint64 (N.shiftl x 1)) (uint64_of_Z (Z.shiftr (int64_of_N x) 63))) p.

(** [EncodeVarint(uint64((uint32(x) << 1) ^ uint32(int32(x) >> 31)))] *)
Definition EncodeZigzag32 (x : N) (p : Buffer) : Buffer :=
  EncodeVarint
    (N.lxor (uint32 (N.shiftl (uint32 x) 1))
            (uint32 (uint64_of_Z (Z.shiftr (int32 (Z.of_N x)) 31)))) p.

Definition EncodeRawBytes (b : list N) (p : Buffer) : Buffer :=
  put b (EncodeVarint (uint64 (N.of_nat (length b))) p).

Definition EncodeStringBytes (s : list N) (p : Buffer) : Buffer :=
  put s (EncodeVarint (uint64 (N.of_nat (length s))) p).

(** ** Wire types, field descriptors and schemas *)

Inductive WireType :=
| WireVarint | WireFixed64 | WireBytes | WireStartGroup | WireEndGroup | WireFixed32.

Definition WireType_code (w : WireType) : N :=
  match w with
  | WireVarint => 0 | WireFixed64 => 1 | WireBytes => 2
  | WireStartGroup => 3 | WireEndGroup => 4 | WireFixed32 => 5
  end.

#[global] Instance WireType_eq_dec : EqDecision WireType.
Proof. solve_decision. Defined.


(** The functions a [valEnc] can hold. *)
Inductive valueEncoder :=
| fEncodeVarint | fEncodeFixed32 | fEncodeFixed64 | fEncodeZigzag32 | fEncodeZigzag64.

(** The functions an [enc] can hold: the encoders of encode.go, by name. *)
Inductive encoder :=
| f_enc_ptr_bool | f_enc_bool | f_enc_ptr_int | f_enc_int | f_enc_ptr_uint | f_enc_uint
| f_enc_ptr_int8 | f_enc_int8 | f_enc_ptr_uint8 | f_enc_uint8
| f_enc_ptr_int16 | f_enc_int16 | f_enc_ptr_uint16 | f_enc_uint16
| f_enc_ptr_int32 | f_enc_int32 | f_enc_ptr_uint32 | f_enc_uint32
| f_enc_ptr_int64 | f_enc_int64 | f_enc_ptr_string | f_enc_string
| f_enc_marshaler | f_enc_appender | f_enc_struct_message
| f_enc_ptr_marshaler | f_enc_ptr_appender | f_enc_ptr_struct_message
| f_enc_slice_packed_bool | f_enc_array_packed_bool | f_enc_slice_byte | f_enc_array_byte
| f_enc_slice_packed_int | f_enc_slice_packed_uint
| f_enc_slice_packed_int8 | f_enc_slice_packed_int16
| f_enc_array_packed_int8 | f_enc_array_packed_int16
| f_enc_slice_packed_uint16 | f_enc_array_packed_uint16
| f_enc_slice_packed_int32 | f_enc_array_packed_int32
| f_enc_slice_packed_uint32 | f_enc_array_packed_uint32
| f_enc_slice_packed_int64 | f_enc_array_packed_int64
| f_enc_slice_slice_byte | f_enc_slice_string | f_enc_array_string
| f_enc_slice_ptr_struct_message | f_enc_array_ptr_struct_message
| f_enc_slice_struct_message | f_enc_slice_marshaler | f_enc_slice_appender
| f_enc_array_marshaler | f_enc_array_appender | f_enc_array_struct_message
| f_enc_new_map | f_enc_nothing | f_enc_time_Time
| f_enc_time_Duration | f_enc_ptr_time_Duration
| f_enc_slice_time_Duration | f_enc_array_time_Duration.

#[global] Instance encoder_eq_dec : EqDecision encoder.
Proof. solve_decision. Defined.

(** What the encoder asks of a [reflect.Type]: its package path, its name
    and the size in bytes of a value. *)
Record rtype := mkRtype {
  PkgPath : string;
  TypeName : string;
  Size : Z
}.

(** A struct type's identity.  There is one StructProperties object per
    struct type, so a [*StructProperties] is the identity of its type and
    the schema store maps it to the object. *)
Definition tid := nat.

(** Properties: the behaviour of one struct field.  [offset] is the place
    of the field in its struct, counted in fields; [length_] is the
    source's [length]. *)
Inductive Properties := mkProperties {
  Name : string;
  Wire : string;
  Tag : N;
  pWireType : WireType;
  enc : option encoder;
  valEnc : option valueEncoder;
  offset : nat;
  tagcode : list N;
  stype : option rtype;
  sprop : option tid;
  isMarshaler : bool;
  isAppender : bool;
  mtype : option rtype;
  mkeyprop : option Properties;
  mvalprop : option Properties;
  length_ : Z
}.

Record StructProperties := mkStructProperties {
  Prop_ : list Properties;   (* indexed by the field's number *)
  order : list nat           (* field numbers, in tag order *)
}.

(** Modelled from the spec: the field [props] that the encoder walks,
    whose declaration is not in the source: the descriptors of the
    retained fields in encode order, that is [Prop] read in the order of
    [order]. *)
Definition props (sp : StructProperties) : list Properties :=
  omap (fun i => Prop_ sp !! i) (order sp).

(** ** Values in memory *)

(** [time.Time], by what the encoder reads of it: the Unix seconds and
    the nanoseconds within the second ([0 <= nsec < 10^9]). *)
Record Time := mkTime {
  unix_sec : Z;
  nsec : Z
}.

(** [t.Unix()] *)
Definition Time_Unix (t : Time) : Z := unix_sec t.

(** [time.Unix(sec, nsec)], normalised. *)
Definition time_Unix (sec nsec : Z) : Time :=
  mkTime (sec + nsec / 1000000000)%Z (nsec mod 1000000000)%Z.

(** [t.Sub(u)], a Duration in nanoseconds, saturating at the bounds of
    an int64. *)
Definition Time_Sub (t u : Time) : Z :=
  let d := ((unix_sec t - unix_sec u) * 1000000000 + (nsec t - nsec u))%Z in
  Z.max (- 2 ^ 63) (Z.min (2 ^ 63 - 1) d).

(** What a field, an element or a pointee holds.  An integer of any width
    is its value; a float is the integer of its bits; a Duration is its
    nanoseconds.  A value of a type with a MarshalProtobuf3 method is what
    the method returns for it, and one of a type with an AppendProtobuf3
    method is the method on it.  A map is its pairs in the order in which
    MapKeys yields them. *)
Inductive value :=
| VBool (b : bool)
| VInt (x : Z)
| VString (s : list N)
| VBytes (s : list N)
| VTime (t : Time)
| VPtr (p : option value)
| VSlice (l : list value)
| VArray (l : list value)
| VStruct (fields : list value)
| VMap (kvs : list (value * value))
| VMarshaler (data : option (list N)) (e : option error)
| VAppender (f : slice -> slice * option error).

(** The memory a [base] pointer gives access to: the fields of a struct,
    by field number. *)
Definition structPointer := list value.

(** An encoder [enc_x(p, base)] starts by reading its field at
    [base + p.offset], at the type it encodes.  Below, an encoder is given
    the field [fld] found there, and the views [as_x] read it at a type;
    the call of [p.enc] does the addressing. *)
Definition as_bool (v : value) : option bool :=
  match v with VBool b => Some b | _ => None end.
Definition as_int (v : value) : option Z :=
  match v with VInt x => Some x | _ => None end.
Definition as_string (v : value) : option (list N) :=
  match v with VString x => Some x | _ => None end.
Definition as_bytes (v : value) : option (list N) :=
  match v with VBytes x => Some x | _ => None end.
Definition as_time (v : value) : option Time :=
  match v with VTime x => Some x | _ => None end.
Definition as_ptr (v : value) : option (option value) :=
  match v with VPtr x => Some x | _ => None end.
Definition as_slice (v : value) : option (list value) :=
  match v with VSlice x => Some x | _ => None end.

(** An array field read as [[0:n:n]]: the [n] elements of the array. *)
Definition as_array (v : value) (n : Z) : option (list value) :=
  match v with
  | VArray x => if decide (Z.of_nat (length x) = n) then Some x else None
  | _ => None
  end.

Definition as_byte_array (v : value) (n : Z) : option (list N) :=
  match v with
  | VBytes x => if decide (Z.of_nat (length x) = n) then Some x else None
  | _ => None
  end.

(** [p.valEnc(o, x)]; a nil function panics. *)
Definition call_valEnc (p : Properties) (x : N) (o : Buffer) : option Buffer :=
  match valEnc p with
  | Some fEncodeVarint => Some (EncodeVarint x o)
  | Some fEncodeFixed32 => Some (EncodeFixed32 x o)
  | Some fEncodeFixed64 => Some (EncodeFixed64 x o)
  | Some fEncodeZigzag32 => Some (EncodeZigzag32 x o)
  | Some fEncodeZigzag64 => Some (EncodeZigzag64 x o)
  | None => None
  end.

(** A [for _, x := range l] whose body has no early exit. *)
Definition range_do {A} (body : A -> Buffer -> option Buffer)
  : list A -> Buffer -> option Buffer :=
  fix go l o :=
    match l with
    | [] => Some o
    | x :: l' => match body x o with Some o' => go l' o' | None => None end
    end.

(** The outcome of a loop body that can [return] from the function. *)
Inductive flow := Next (o : Buffer) | Return (o : Buffer).

(** A [for _, x := range l] whose body may return from the function. *)
Definition range_until {A} (body : A -> Buffer -> option flow)
  : list A -> Buffer -> option Buffer :=
  fix go l o :=
    match l with
    | [] => Some o
    | x :: l' =>
        match body x o with
        | Some (Next o') => go l' o'
        | Some (Return o') => Some o'
        | None => None
        end
    end.

(** ** Individual type encoders: scalars, strings, optional values *)

(** Encode a *bool. *)
Definition enc_ptr_bool (p : Properties) (fld : value) (o : Buffer)
  : option Buffer :=
  v ← as_ptr fld;
  match v with
  | None => Some o
  | Some pv =>
      b ← as_bool pv;
      let x := if b : bool then 1 else 0 in
      call_valEnc p x (put (tagcode p) o)
  end.

(** Encode a bool. *)
Definition enc_bool (p : Properties) (fld : value) (o : Buffer)
  : option Buffer :=
  v ← as_bool fld;
  if negb v then Some o
  else call_valEnc p 1 (put (tagcode p) o).

(** Encode a pointer to an integer: nothing for nil, else the tag and
    [valEnc(uint64( *v ))].  The encoders of *int, *uint, *int8, *uint8,
    *int16, *uint16, *int32 and *uint32 differ by the type read only. *)
Definition enc_ptr_integer (p : Properties) (fld : value) (o : Buffer)
  : option Buffer :=
  v ← as_ptr fld;
  match v with
  | None => Some o
  | Some pv =>
      x ← as_int pv;
      call_valEnc p (uint64_of_Z x) (put (tagcode p) o)
  end.

(** Encode an integer: nothing for 0, else the tag and [valEnc(uint64(x))].
    The encoders of int, uint, int8, uint8, int16, uint16, int32 and uint32
    differ by the type read only. *)
Definition enc_integer (p : Properties) (fld : value) (o : Buffer)
  : option Buffer :=
  x ← as_int fld;
  if decide (x = 0)%Z then Some o
  else call_valEnc p (uint64_of_Z x) (put (tagcode p) o).

Definition enc_ptr_int := enc_ptr_integer.
Definition enc_int := enc_integer.
Definition enc_ptr_uint := enc_ptr_integer.
Definition enc_uint := enc_integer.
Definition enc_ptr_int8 := enc_ptr_integer.
Definition enc_int8 := enc_integer.
Definition enc_ptr_uint8 := enc_ptr_integer.
Definition enc_uint8 := enc_integer.
Definition enc_ptr_int16 := enc_ptr_integer.
Definition enc_int16 := enc_integer.
Definition enc_ptr_uint16 := enc_ptr_integer.
Definition enc_uint16 := enc_integer.
Definition enc_ptr_int32 := enc_ptr_integer.
Definition enc_int32 := enc_integer.
Definition enc_ptr_uint32 := enc_ptr_integer.
Definition enc_uint32 := enc_integer.

(** Encode an *int64: the pointee is read as a uint64. *)
Definition enc_ptr_int64 (p : Properties) (fld : value) (o : Buffer)
  : option Buffer :=
  v ← as_ptr fld;
  match v with
  | None => Some o
  | Some pv =>
      x ← as_int pv;
      call_valEnc p (uint64_of_Z x) (put (tagcode p) o)
  end.

(** Encode an int64: the field is read as a uint64. *)
Definition enc_int64 (p : Properties) (fld : value) (o : Buffer)
  : option Buffer :=
  z ← as_int fld;
  let x := uint64_of_Z z in
  if decide (x = 0) then Some o
  else call_valEnc p x (put (tagcode p) o).

(** Encode a *string. *)
Definition enc_ptr_string (p : Properties) (fld : value) (o : Buffer)
  : option Buffer :=
  v ← as_ptr fld;
  match v with
  | None => Some o
  | Some pv =>
      x ← as_string pv;
      Some (EncodeStringBytes x (put (tagcode p) o))
  end.

(** Encode a string. *)
Definition enc_string (p : Properties) (fld : value) (o : Buffer)
  : option Buffer :=
  x ← as_string fld;
  if decide (x = []) then Some o
  else Some (EncodeStringBytes x (put (tagcode p) o)).

(** [m.MarshalProtobuf3()] on the value at [ptr], seen through
    [reflect.NewAt(p.stype, ptr)]. *)
Definition call_MarshalProtobuf3 (p : Properties) (ptr : value)
  : option (option (list N) * option error) :=
  _ ← stype p;
  match ptr with
  | VMarshaler data e => Some (data, e)
  | _ => None
  end.

(** [len(data)] and [append(buf, data...)] of a possibly nil slice. *)
Definition data_bytes (data : option (list N)) : list N := default [] data.

(** The tag, the length when the wire type is bytes, and the data: what
    the Marshaler encoders write once MarshalProtobuf3 has returned. *)
Definition put_marshaled (p : Properties) (data : list N) (o : Buffer) : Buffer :=
  let o := put (tagcode p) o in
  let o := if decide (pWireType p = WireBytes)
           then EncodeVarint (uint64 (N.of_nat (length data))) o else o in
  put data o.

(** Encode a struct field which implements the Marshaler interface. *)
Definition enc_marshaler (p : Properties) (fld : value) (o : Buffer)
  : option Buffer :=
  let ptr := fld in
  '(data, e) ← call_MarshalProtobuf3 p ptr;
  match e with
  | Some e => Some (noteError e o)
  | None =>
      match data with
      | None => Some o
      | Some data => Some (put_marshaled p data o)
      end
  end.

(** Encode a *Marshaler. *)
Definition enc_ptr_marshaler (p : Properties) (fld : value) (o : Buffer)
  : option Buffer :=
  ptr ← as_ptr fld;
  match ptr with
  | None => Some o
  | Some ptr =>
      '(data, e) ← call_MarshalProtobuf3 p ptr;
      match e with
      | Some e => Some (noteError e o)
      | None =>
          match data with
          | None => Some o
          | Some data => Some (put_marshaled p data o)
          end
      end
  end.

(** ** Self-encoding types that append *)

(** [a.AppendProtobuf3(b)] on the value at [ptr], seen through
    [reflect.NewAt(p.stype, ptr)]. *)
Definition call_AppendProtobuf3 (p : Properties) (ptr : value) (b : slice)
  : option (slice * option error) :=
  _ ← stype p;
  match ptr with
  | VAppender a => Some (a b)
  | _ => None
  end.

(** The error of the sanity check of encode_appender. *)
Definition buggy_appender (p : Properties) (b : slice) : option error :=
  t ← stype p;
  Some (ErrBuggyAppender (PkgPath t) (TypeName t) (len b)).

(** encode_appender appends an Appender, handling the zero value case.
    The error it returns is noted in the buffer. *)
Definition encode_appender (p : Properties) (ptr : value) (must_encode : bool)
  (o : Buffer) : option (Buffer * option error) :=
  let n1 := len (buf o) in
  let o := put (tagcode p) o in
  let o := if decide (pWireType p = WireBytes) then put [0] o else o in
  let n2 := len (buf o) in
  '(b, e) ← call_AppendProtobuf3 p ptr (buf o);
  match e with
  | Some e => Some (noteError e o, Some e)
  | None =>
      if decide (len b < len (buf o))%Z then
        e ← buggy_appender p b;
        Some (noteError e o, Some e)
      else
        let o := set_buf o b in
        if negb must_encode && bool_decide (len (buf o) = n2) then
          b ← reslice (buf o) n1;
          Some (set_buf o b, None)
        else if decide (pWireType p = WireBytes) then
          let n := uint64_of_Z (len (buf o) - n2) in
          if decide (n < 128) then
            b ← store (buf o) (n2 - 1) (uint8 n);
            Some (set_buf o b, None)
          else
            let s := SizeVarint n in
            dst ← reslice (buf o) (n2 - 1 + s);
            src ← bytes_from (buf o) n2;
            let o := set_buf o (append dst src) in
            let n3 := len (buf o) in
            b ← reslice (buf o) (n2 - 1);
            let o := EncodeVarint n (set_buf o b) in
            b ← reslice (buf o) n3;
            Some (set_buf o b, None)
        else Some (o, None)
  end.

(** Encode a struct field which implements the Appender interface. *)
Definition enc_appender (p : Properties) (fld : value) (o : Buffer)
  : option Buffer :=
  let ptr := fld in
  r ← encode_appender p ptr false o;
  Some r.1.

(** Encode an *Appender. *)
Definition enc_ptr_appender (p : Properties) (fld : value) (o : Buffer)
  : option Buffer :=
  ptr ← as_ptr fld;
  match ptr with
  | None => Some o
  | Some ptr => r ← encode_appender p ptr false o; Some r.1
  end.

(** ** Packed scalars, bytes and strings *)

Definition bool_bit (x : bool) : N := if x then 1 else 0.

(** Encode a slice of bools ([]bool) in packed format. *)
Definition enc_slice_packed_bool (p : Properties) (fld : value) (o : Buffer)
  : option Buffer :=
  s ← as_slice fld;
  s ← mapM as_bool s;
  let l := length s in
  if decide (l = 0%nat) then Some o
  else
    let o := put (tagcode p) o in
    let o := EncodeVarint (uint64 (N.of_nat l)) o in
    range_do (fun x o => call_valEnc p (bool_bit x) o) s o.

(** Encode an array of bools ([N]bool) in packed format. *)
Definition enc_array_packed_bool (p : Properties) (fld : value) (o : Buffer)
  : option Buffer :=
  let n := length_ p in
  s ← as_array fld n;
  s ← mapM as_bool s;
  let o := put (tagcode p) o in
  let o := EncodeVarint (uint64_of_Z n) o in
  range_do (fun x o => call_valEnc p (bool_bit x) o) s o.

(** Encode a slice of bytes ([]byte). *)
Definition enc_slice_byte (p : Properties) (fld : value) (o : Buffer)
  : option Buffer :=
  s ← as_bytes fld;
  if decide (length s = 0%nat) then Some o
  else Some (EncodeRawBytes s (put (tagcode p) o)).

(** Encode an array of bytes ([n]byte). *)
Definition enc_array_byte (p : Properties) (fld : value) (o : Buffer)
  : option Buffer :=
  let n := length_ p in
  s ← as_byte_array fld n;
  Some (EncodeRawBytes s (put (tagcode p) o)).

(** [newBuffer(nil)] and [release], whose bodies are not in the
    encoder's file.  Modelled from the spec: a buffer owned by the call,
    empty and with no error recorded; releasing it hands over the bytes
    produced. *)
Definition newBuffer (e : slice) : Buffer := mkBuffer e None.
Definition release (o : Buffer) : list N := visible (buf o).

(** The body shared by the packed encoders of integers: the elements go
    through [valEnc] into a scratch buffer, then the tag, the length of
    the scratch bytes and the scratch bytes are appended. *)
Definition put_packed (p : Properties) (s : list Z) (o : Buffer) : option Buffer :=
  let buf' := newBuffer nil_slice in
  buf' ← range_do (fun x b => call_valEnc p (uint64_of_Z x) b) s buf';
  let o := put (tagcode p) o in
  let o := EncodeVarint (uint64 (N.of_nat (length (visible (buf buf'))))) o in
  Some (put (visible (buf buf')) o).

(** Encode a slice of integers in packed format: nothing for an empty
    slice.  The encoders of []int, []uint, []int8, []int16, []uint16,
    []int32, []uint32 and [](u)int64 differ by the type read only. *)
Definition enc_slice_packed (p : Properties) (fld : value) (o : Buffer)
  : option Buffer :=
  s ← as_slice fld;
  s ← mapM as_int s;
  if decide (length s = 0%nat) then Some o
  else put_packed p s o.

(** Encode an array of integers in packed format.  The encoders of
    [n]int8, [n]int16, [n]uint16, [n]int32, [n]uint32 and [n]int64 differ
    by the type read only. *)
Definition enc_array_packed (p : Properties) (fld : value) (o : Buffer)
  : option Buffer :=
  let n := length_ p in
  s ← as_array fld n;
  s ← mapM as_int s;
  put_packed p s o.

Definition enc_slice_packed_int := enc_slice_packed.
Definition enc_slice_packed_uint := enc_slice_packed.
Definition enc_slice_packed_int8 := enc_slice_packed.
Definition enc_slice_packed_int16 := enc_slice_packed.
Definition enc_array_packed_int8 := enc_array_packed.
Definition enc_array_packed_int16 := enc_array_packed.
Definition enc_slice_packed_uint16 := enc_slice_packed.
Definition enc_array_packed_uint16 := enc_array_packed.
Definition enc_slice_packed_int32 := enc_slice_packed.
Definition enc_array_packed_int32 := enc_array_packed.
Definition enc_slice_packed_uint32 := enc_slice_packed.
Definition enc_array_packed_uint32 := enc_array_packed.
Definition enc_slice_packed_int64 := enc_slice_packed.
Definition enc_array_packed_int64 := enc_array_packed.

(** Encode a slice of slice of bytes ([][]byte). *)
Definition enc_slice_slice_byte (p : Properties) (fld : value) (o : Buffer)
  : option Buffer :=
  ss ← as_slice fld;
  ss ← mapM as_bytes ss;
  range_do (fun s o => Some (EncodeRawBytes s (put (tagcode p) o))) ss o.

(** Encode a slice of strings ([]string). *)
Definition enc_slice_string (p : Properties) (fld : value) (o : Buffer)
  : option Buffer :=
  ss ← as_slice fld;
  ss ← mapM as_string ss;
  range_do (fun x o => Some (EncodeStringBytes x (put (tagcode p) o))) ss o.

(** Encode an array of strings ([n]string). *)
Definition enc_array_string (p : Properties) (fld : value) (o : Buffer)
  : option Buffer :=
  let n := length_ p in
  s ← as_array fld n;
  s ← mapM as_string s;
  range_do (fun x o => Some (EncodeStringBytes x (put (tagcode p) o))) s o.

(** ** Timestamps and durations *)

(** EncodeTimestamp marshals a time.Time as a google.protobuf.Timestamp,
    a pair of varints (secs, nanos) tagged 1 and 2. *)
Definition EncodeTimestamp (ts : Time) (o : Buffer) : Buffer :=
  let secs := Time_Unix ts in
  let nanos := int32 (Time_Sub ts (time_Unix secs 0)) in
  let o := put [N.lor (N.shiftl 1 3) (WireType_code WireVarint)] o in
  let o := EncodeVarint (uint64_of_Z secs) o in
  let o := put [N.lor (N.shiftl 2 3) (WireType_code WireVarint)] o in
  EncodeVarint (uint64_of_Z nanos) o.

(** Custom encoder for time.Time. *)
Definition enc_time_Time (p : Properties) (fld : value) (o : Buffer)
  : option Buffer :=
  ts ← as_time fld;
  Some (EncodeTimestamp ts o).

(** EncodeNSecTimestamp marshals an int64 nanosecond Unix timestamp. *)
Definition EncodeNSecTimestamp (ts : Z) (o : Buffer) : Buffer :=
  let secs := (ts ÷ 1000000000)%Z in
  let nanos := int32 (ts - secs * 1000000000)%Z in
  let o := put [N.lor (N.shiftl 1 3) (WireType_code WireVarint)] o in
  let o := EncodeVarint (uint64_of_Z secs) o in
  let o := put [N.lor (N.shiftl 2 3) (WireType_code WireVarint)] o in
  EncodeVarint (uint64_of_Z nanos) o.

(** Helper function to encode a time.Duration value. *)
Definition enc_Duration (p : Properties) (d : Z) (o : Buffer) : option Buffer :=
  let nanos := d in
  let secs := (nanos ÷ 1000000000)%Z in
  let nanos := (nanos - secs * 1000000000)%Z in
  let o := put (tagcode p) o in
  let o := put [0] o in
  let body_start := len (buf o) in
  let o := if decide (secs ≠ 0)%Z
           then EncodeVarint (uint64_of_Z secs)
                  (put [N.lor (N.shiftl 1 3) (WireType_code WireVarint)] o)
           else o in
  let o := if decide (nanos ≠ 0)%Z
           then EncodeVarint (uint64_of_Z nanos)
                  (put [N.lor (N.shiftl 2 3) (WireType_code WireVarint)] o)
           else o in
  b ← store (buf o) (body_start - 1) (uint8 (uint64_of_Z (len (buf o) - body_start)));
  Some (set_buf o b).

(** Custom encoder for time.Duration. *)
Definition enc_time_Duration (p : Properties) (fld : value) (o : Buffer)
  : option Buffer :=
  d ← as_int fld;
  if decide (d ≠ 0)%Z then enc_Duration p d o else Some o.

(** Custom encoder for *time.Duration. *)
Definition enc_ptr_time_Duration (p : Properties) (fld : value) (o : Buffer)
  : option Buffer :=
  d ← as_ptr fld;
  match d with
  | None => Some o
  | Some pv =>
      d ← as_int pv;
      if decide (d ≠ 0)%Z then enc_Duration p d o else Some o
  end.

(** Custom encoder for []time.Duration. *)
Definition enc_slice_time_Duration (p : Properties) (fld : value) (o : Buffer)
  : option Buffer :=
  s ← as_slice fld;
  s ← mapM as_int s;
  range_do (fun d o => enc_Duration p d o) s o.

(** Custom encoder for [N]time.Duration. *)
Definition enc_array_time_Duration (p : Properties) (fld : value) (o : Buffer)
  : option Buffer :=
  let n := length_ p in
  s ← as_array fld n;
  s ← mapM as_int s;
  range_do (fun d o => enc_Duration p d o) s o.

(** Dummy no-op encoder used for encoding 0-length array types. *)
Definition enc_nothing (p : Properties) (fld : value) (o : Buffer)
  : option Buffer := Some o.

(** ** Length-prefixed things *)

(** [zeroes[:x]] of [var zeroes [20]byte]. *)
Definition zeroes_upto (x : Z) : option (list N) :=
  if decide (0 <= x <= 20)%Z then Some (replicate (Z.to_nat x) 0) else None.

(** Encode something, preceded by its encoded length (as a varint). *)
Definition enc_len_thing (enc : Buffer -> option Buffer) (o : Buffer) : option Buffer :=
  let iLen := len (buf o) in
  let o := put [0; 0; 0; 0] o in
  let iMsg := len (buf o) in
  o ← enc o;
  let lMsg := (len (buf o) - iMsg)%Z in
  let lLen := SizeVarint (uint64_of_Z lMsg) in
  let x := (lLen - (iMsg - iLen))%Z in
  o ← (if decide (x > 0)%Z then
         z ← zeroes_upto x;
         let o := put z o in
         b ← copy_within (buf o) (iMsg + x) iMsg (iMsg + lMsg);
         Some (set_buf o b)
       else if decide (x < 0)%Z then
         b ← copy_within (buf o) (iMsg + x) iMsg (iMsg + lMsg);
         b ← reslice b (len b + x);
         Some (set_buf o b)
       else Some o);
  b ← reslice (buf o) iLen;
  let o := EncodeVarint (uint64_of_Z lMsg) (set_buf o b) in
  b ← reslice (buf o) (len (buf o) + lMsg);
  Some (set_buf o b).

(** ** Nested messages *)

Section Nested.

(** [o.enc_struct(prop, structp)], the encoder of a struct, which the
    encoders of nested messages call back. *)
Variable enc_struct : option tid -> value -> Buffer -> option Buffer.

(** Encode a struct, preceded by its encoded length (as a varint). *)
Definition enc_len_struct (prop : option tid) (structp : value) (o : Buffer)
  : option Buffer :=
  enc_len_thing (fun o => enc_struct prop structp o) o.

(** Encode a message struct field of a message struct. *)
Definition enc_struct_message (p : Properties) (fld : value) (o : Buffer)
  : option Buffer :=
  let structp := fld in
  let iTag := len (buf o) in
  let o := put (tagcode p) o in
  let iLen := len (buf o) in
  o ← enc_len_struct (sprop p) structp o;
  if decide (len (buf o) = iLen + 1)%Z then
    b ← load (buf o) iLen;
    if decide (b = 0) then
      b ← reslice (buf o) iTag;
      Some (set_buf o b)
    else Some o
  else Some o.

(** Encode a *message struct. *)
Definition enc_ptr_struct_message (p : Properties) (fld : value) (o : Buffer)
  : option Buffer :=
  match fld with
  | VPtr None => Some o
  | VPtr (Some structp) =>
      let o := put (tagcode p) o in
      enc_len_struct (sprop p) structp o
  | _ => None
  end.

(** The three loops over the elements of a sequence of *struct, shared by
    enc_slice_ptr_struct_message and enc_array_ptr_struct_message. *)
Definition enc_ptr_struct_messages (p : Properties) (s : list value) (o : Buffer)
  : option Buffer :=
  if isAppender p then
    range_until (fun structp o =>
      match structp with
      | VPtr None => Some (Return (noteError errRepeatedHasNil o))
      | VPtr (Some structp) =>
          r ← encode_appender p structp true o;
          match r.2 with
          | Some _ => Some (Return r.1)
          | None => Some (Next r.1)
          end
      | _ => None
      end) s o
  else if isMarshaler p then
    range_until (fun structp o =>
      match structp with
      | VPtr None => Some (Return (noteError errRepeatedHasNil o))
      | VPtr (Some structp) =>
          '(data, e) ← call_MarshalProtobuf3 p structp;
          match e with
          | Some e => Some (Return (noteError e o))
          | None => Some (Next (put_marshaled p (data_bytes data) o))
          end
      | _ => None
      end) s o
  else
    range_until (fun structp o =>
      match structp with
      | VPtr None => Some (Return (noteError errRepeatedHasNil o))
      | VPtr (Some structp) =>
          let o := put (tagcode p) o in
          o ← enc_len_struct (sprop p) structp o;
          Some (Next o)
      | _ => None
      end) s o.

(** Encode a slice of *message structs ([]*struct). *)
Definition enc_slice_ptr_struct_message (p : Properties) (fld : value)
  (o : Buffer) : option Buffer :=
  match fld with
  | VSlice s => enc_ptr_struct_messages p s o
  | _ => None
  end.

(** Encode an array of *message structs ([n]*struct). *)
Definition enc_array_ptr_struct_message (p : Properties) (fld : value)
  (o : Buffer) : option Buffer :=
  let n := length_ p in
  match fld with
  | VArray s =>
      if decide (Z.of_nat (length s) = n) then enc_ptr_struct_messages p s o
      else None
  | _ => None
  end.

(** Utility function to encode a series of [n] struct messages in a line
    in memory (from a slice or from an array).  The loops step by the size
    of one struct up to [n] times that size: [s] is the structs in the
    line, and none is visited when the size is 0. *)
Definition enc_struct_messages (p : Properties) (s : list value) (o : Buffer)
  : option Buffer :=
  t ← stype p;
  let sz := Size t in
  if isAppender p then
    if decide (sz = 0)%Z then Some o else
    range_until (fun structp o =>
      r ← encode_appender p structp true o;
      match r.2 with
      | Some _ => Some (Return r.1)
      | None => Some (Next r.1)
      end) s o
  else if isMarshaler p then
    if decide (sz = 0)%Z then Some o else
    range_until (fun structp o =>
      '(data, e) ← call_MarshalProtobuf3 p structp;
      match e with
      | Some e => Some (Return (noteError e o))
      | None => Some (Next (put_marshaled p (data_bytes data) o))
      end) s o
  else
    if decide (sz = 0)%Z then Some o else
    range_until (fun structp o =>
      let o := put (tagcode p) o in
      o ← enc_len_struct (sprop p) structp o;
      Some (Next o)) s o.

(** Encode a slice of message structs ([]struct). *)
Definition enc_slice_struct_message (p : Properties) (fld : value)
  (o : Buffer) : option Buffer :=
  match fld with
  | VSlice s =>
      if decide (length s = 0%nat) then Some o
      else enc_struct_messages p s o
  | _ => None
  end.

(** Encode a slice of Marshalers ([]T, where T implements Marshaler). *)
Definition enc_slice_marshaler (p : Properties) (fld : value) (o : Buffer)
  : option Buffer :=
  s ← as_slice fld;
  if decide (length s = 0%nat) then Some o
  else
    t ← stype p;
    let sz := Size t in
    let s := if decide (sz = 0)%Z then [] else s in
    range_until (fun structp o =>
      '(data, e) ← call_MarshalProtobuf3 p structp;
      match e with
      | Some e => Some (Return (noteError e o))
      | None => Some (Next (put_marshaled p (data_bytes data) o))
      end) s o.

(** Encode a slice of Appenders ([]T, where T implements Appender). *)
Definition enc_slice_appender (p : Properties) (fld : value) (o : Buffer)
  : option Buffer :=
  s ← as_slice fld;
  if decide (length s = 0%nat) then Some o
  else
    t ← stype p;
    let sz := Size t in
    let s := if decide (sz = 0)%Z then [] else s in
    range_do (fun structp o =>
      r ← encode_appender p structp true o;
      Some r.1) s o.

(** The [n = p.length] structs of an array field, in a line in memory. *)
Definition enc_array_messages (p : Properties) (fld : value) (o : Buffer)
  : option Buffer :=
  match fld with
  | VArray s =>
      if decide (Z.of_nat (length s) = length_ p) then enc_struct_messages p s o
      else None
  | _ => None
  end.

(** Encode an array of Marshalers ([N]T, where T implements Marshaler). *)
Definition enc_array_marshaler := enc_array_messages.

(** Encode an array of Appenders ([N]T, where T implements Appender). *)
Definition enc_array_appender := enc_array_messages.

(** Encode an array of message structs ([n]struct). *)
Definition enc_array_struct_message := enc_array_messages.

(** ** Maps *)

Section Map.

(** [q.enc(o, q, base)] for the key or the value descriptor [q] of a map,
    [base] being the scratch copy of the key or of the value, which is
    all the memory there is at [base]: the descriptor reads it at
    offset 0. *)
Variable call_entry : Properties -> value -> Buffer -> option Buffer.

(** Encode a map field: one entry message per pair, the key under its
    descriptor and the value under its own, each read from a scratch
    copy. *)
Definition enc_new_map (p : Properties) (fld : value) (o : Buffer)
  : option Buffer :=
  match fld with
  | VMap kvs =>
      _ ← mtype p;
      if decide (length kvs = 0%nat) then Some o
      else
        range_do (fun kv o =>
          let keycopy := kv.1 in
          let valcopy := kv.2 in
          let o := put (tagcode p) o in
          enc_len_thing (fun o =>
            kp ← mkeyprop p;
            o ← call_entry kp keycopy o;
            vp ← mvalprop p;
            call_entry vp valcopy o) o) kvs o
  | _ => None
  end.

(** [p.enc(o, p, base)]: the call of the function that [p.enc] holds; a
    nil function panics. *)
Definition call_enc_with (p : Properties) (fld : value) (o : Buffer)
  : option Buffer :=
  match enc p with
  | None => None
  | Some f =>
      match f with
      | f_enc_ptr_bool => enc_ptr_bool p fld o
      | f_enc_bool => enc_bool p fld o
      | f_enc_ptr_int => enc_ptr_int p fld o
      | f_enc_int => enc_int p fld o
      | f_enc_ptr_uint => enc_ptr_uint p fld o
      | f_enc_uint => enc_uint p fld o
      | f_enc_ptr_int8 => enc_ptr_int8 p fld o
      | f_enc_int8 => enc_int8 p fld o
      | f_enc_ptr_uint8 => enc_ptr_uint8 p fld o
      | f_enc_uint8 => enc_uint8 p fld o
      | f_enc_ptr_int16 => enc_ptr_int16 p fld o
      | f_enc_int16 => enc_int16 p fld o
      | f_enc_ptr_uint16 => enc_ptr_uint16 p fld o
      | f_enc_uint16 => enc_uint16 p fld o
      | f_enc_ptr_int32 => enc_ptr_int32 p fld o
      | f_enc_int32 => enc_int32 p fld o
      | f_enc_ptr_uint32 => enc_ptr_uint32 p fld o
      | f_enc_uint32 => enc_uint32 p fld o
      | f_enc_ptr_int64 => enc_ptr_int64 p fld o
      | f_enc_int64 => enc_int64 p fld o
      | f_enc_ptr_string => enc_ptr_string p fld o
      | f_enc_string => enc_string p fld o
      | f_enc_marshaler => enc_marshaler p fld o
      | f_enc_appender => enc_appender p fld o
      | f_enc_struct_message => enc_struct_message p fld o
      | f_enc_ptr_marshaler => enc_ptr_marshaler p fld o
      | f_enc_ptr_appender => enc_ptr_appender p fld o
      | f_enc_ptr_struct_message => enc_ptr_struct_message p fld o
      | f_enc_slice_packed_bool => enc_slice_packed_bool p fld o
      | f_enc_array_packed_bool => enc_array_packed_bool p fld o
      | f_enc_slice_byte => enc_slice_byte p fld o
      | f_enc_array_byte => enc_array_byte p fld o
      | f_enc_slice_packed_int => enc_slice_packed_int p fld o
      | f_enc_slice_packed_uint => enc_slice_packed_uint p fld o
      | f_enc_slice_packed_int8 => enc_slice_packed_int8 p fld o
      | f_enc_slice_packed_int16 => enc_slice_packed_int16 p fld o
      | f_enc_array_packed_int8 => enc_array_packed_int8 p fld o
      | f_enc_array_packed_int16 => enc_array_packed_int16 p fld o
      | f_enc_slice_packed_uint16 => enc_slice_packed_uint16 p fld o
      | f_enc_array_packed_uint16 => enc_array_packed_uint16 p fld o
      | f_enc_slice_packed_int32 => enc_slice_packed_int32 p fld o
      | f_enc_array_packed_int32 => enc_array_packed_int32 p fld o
      | f_enc_slice_packed_uint32 => enc_slice_packed_uint32 p fld o
      | f_enc_array_packed_uint32 => enc_array_packed_uint32 p fld o
      | f_enc_slice_packed_int64 => enc_slice_packed_int64 p fld o
      | f_enc_array_packed_int64 => enc_array_packed_int64 p fld o
      | f_enc_slice_slice_byte => enc_slice_slice_byte p fld o
      | f_enc_slice_string => enc_slice_string p fld o
      | f_enc_array_string => enc_array_string p fld o
      | f_enc_slice_ptr_struct_message => enc_slice_ptr_struct_message p fld o
      | f_enc_array_ptr_struct_message => enc_array_ptr_struct_message p fld o
      | f_enc_slice_struct_message => enc_slice_struct_message p fld o
      | f_enc_slice_marshaler => enc_slice_marshaler p fld o
      | f_enc_slice_appender => enc_slice_appender p fld o
      | f_enc_array_marshaler => enc_array_marshaler p fld o
      | f_enc_array_appender => enc_array_appender p fld o
      | f_enc_array_struct_message => enc_array_struct_message p fld o
      | f_enc_new_map => enc_new_map p fld o
      | f_enc_nothing => enc_nothing p fld o
      | f_enc_time_Time => enc_time_Time p fld o
      | f_enc_time_Duration => enc_time_Duration p fld o
      | f_enc_ptr_time_Duration => enc_ptr_time_Duration p fld o
      | f_enc_slice_time_Duration => enc_slice_time_Duration p fld o
      | f_enc_array_time_Duration => enc_array_time_Duration p fld o
      end
  end.

End Map.

(** The call [q.enc(o, q, base)] on the key or value descriptor of a map
    and its scratch copy.  Such a descriptor is made by [init] on a pointer
    or a slice type, so it has no key and value descriptors of its own: a
    map encoder called on it has no entry encoder to call. *)
Definition call_enc_entry (q : Properties) (copy : value) (o : Buffer) : option Buffer :=
  if decide (offset q = 0%nat) then call_enc_with (fun _ _ _ => None) q copy o
  else None.

(** The field at [off], handed to the rest of the encoder.  ([base !! off]
    followed by [k], written as a recursion on [base] so that a nested
    message is seen to be a part of the message that holds it.) *)
Definition with_field {A} (k : value -> option A) : structPointer -> nat -> option A :=
  fix go base off :=
    match base, off with
    | v :: _, O => k v
    | _ :: base', S off' => go base' off'
    | [], _ => None
    end.

(** The call [p.enc(o, p, base)] on the descriptor of a struct field: the
    function that [p.enc] holds, on the field at [base + p.offset]. *)
Definition call_enc (p : Properties) (base : structPointer) (o : Buffer) : option Buffer :=
  with_field (fun fld => call_enc_with call_enc_entry p fld o) base (offset p).

End Nested.

(** ** The encoder of a struct *)

Section Engine.

(** The StructProperties objects, by the identity of their struct type. *)
Variable schemas : gmap tid StructProperties.

(** Encode a struct: the fields in the order of [props], each by the
    function its descriptor holds. *)
Fixpoint enc_struct (prop : option tid) (structp : value) (o : Buffer) {struct structp}
  : option Buffer :=
  match structp with
  | VStruct base =>
      sp ← prop ≫= (schemas !!.);
      range_do (fun p o => call_enc enc_struct p base o) (props sp) o
  | _ => None
  end.

(** ** Marshal *)

(** What Marshal tells apart in the interface value it is given. *)
Inductive Message :=
| NilMessage                                            (* a nil interface *)
| MarshalerMessage (data : option (list N)) (e : option error)
                                                        (* a Marshaler, by what its method returns *)
| PointerMessage (t : tid) (base : option value)        (* a *T with T a struct: nil, or the struct *)
| OtherMessage (tname : string).                        (* a value of any other type *)

(** [GetProperties(t)] as Marshal calls it: the schema of the struct type
    and an error.  Its body is not in the encoder's file. *)
Variable GetProperties : tid -> option tid * option error.

(** Marshal takes the protocol buffer and encodes it into the wire format,
    writing the result to the Buffer. *)
Definition Buffer_Marshal (pb : Message) (o : Buffer) : option (Buffer * option error) :=
  match pb with
  | MarshalerMessage data e =>
      let o := match e with Some e => noteError e o | None => o end in
      let o := put (data_bytes data) o in
      Some (o, err o)
  | NilMessage => Some (o, Some ErrNil)
  | OtherMessage t => Some (o, Some (ErrNotStructPtr t))
  | PointerMessage t None => Some (o, Some ErrNil)
  | PointerMessage t (Some base) =>
      let '(prop, e) := GetProperties t in
      match e with
      | Some e => Some (o, Some e)
      | None =>
          o ← enc_struct prop base o;
          Some (o, err o)
      end
  end.

(** Marshal takes the protocol buffer and encodes it into the wire format,
    returning the data. *)
Definition Marshal (pb : Message) : option (option (list N) * option error) :=
  let buf := newBuffer nil_slice in
  '(buf, e) ← Buffer_Marshal pb buf;
  let bytes := release buf in
  match e with
  | Some e => Some (None, Some e)
  | None => Some (Some bytes, None)
  end.

End Engine.

End Encoder.

(** * The schema compiler (properties.go) *)

(** ** Types, as reflection shows them *)

Inductive Kind :=
| kBool | kInt | kInt8 | kInt16 | kInt32 | kInt64
| kUint | kUint8 | kUint16 | kUint32 | kUint64 | kUintptr
| kFloat32 | kFloat64 | kComplex64 | kComplex128
| kArray | kChan | kFunc | kInterface | kMap | kPtr | kSlice | kString | kStruct
| kUnsafePointer.

#[global] Instance Kind_eq_dec : EqDecision Kind.
Proof. solve_decision. Defined.

(** A [reflect.Type].  A struct type is its identity; its fields are in
    the environment, which lets a struct type mention itself. *)
Inductive gotype :=
| Basic (k : Kind)
| Struct (t : tid)
| Ptr (elem : gotype)
| Slice (elem : gotype)
| Array (n : Z) (elem : gotype)
| Map (key elem : gotype).

Definition Kind_of (t : gotype) : Kind :=
  match t with
  | Basic k => k
  | Struct _ => kStruct
  | Ptr _ => kPtr
  | Slice _ => kSlice
  | Array _ _ => kArray
  | Map _ _ => kMap
  end.

(** A [reflect.StructField]: the name, the type, and what [f.Tag.Get]
    answers for the keys protobuf, protobuf_key and protobuf_val. *)
Record StructField := mkStructField {
  fName : string;
  fType : gotype;
  fTag : string;
  fTagKey : string;
  fTagVal : string
}.

Record StructType := mkStructType {
  tInfo : rtype;
  tFields : list StructField
}.

(** The types of a program: its struct types, what reflection answers
    about the name and size of the other types, and the types that
    implement Marshaler. *)
Record TypeEnv := mkTypeEnv {
  structs : gmap tid StructType;
  otherInfo : gotype -> rtype;
  implementsMarshaler : gotype -> bool
}.

Definition NumField_Field (env : TypeEnv) (t : tid) : list StructField :=
  match structs env !! t with
  | Some st => tFields st
  | None => []
  end.

(** The type as the encoder will ask about it. *)
Definition rtype_of (env : TypeEnv) (t : gotype) : rtype :=
  match t with
  | Struct id =>
      match structs env !! id with
      | Some st => tInfo st
      | None => otherInfo env t
      end
  | _ => otherInfo env t
  end.

(** ** The library functions that Parse and init call *)


(** [strings.Split(s, ",")] *)
Fixpoint split_comma_from (cur : string) (s : string) : list string :=
  match s with
  | EmptyString => [String.rev cur]
  | String c s' =>
      if Ascii.eqb c ","%char then String.rev cur :: split_comma_from EmptyString s'
      else split_comma_from (String c cur) s'
  end.

Definition strings_Split_comma (s : string) : list string :=
  split_comma_from EmptyString s.

(** [strings.HasPrefix(s, prefix)] *)
Definition strings_HasPrefix (s pre : string) : bool := String.prefix pre s.

Definition digit_of (c : ascii) : option Z :=
  let n := N_of_ascii c in
  if decide (48 <= n <= 57) then Some (Z.of_N n - 48)%Z else None.

Fixpoint digits_from (acc : Z) (s : string) : option Z :=
  match s with
  | EmptyString => Some acc
  | String c s' =>
      match digit_of c with
      | Some d => digits_from (10 * acc + d)%Z s'
      | None => None
      end
  end.

(** [strconv.Atoi(s)]: an optional sign and decimal digits, in the range
    of an int; [None] is the error. *)
Definition strconv_Atoi (s : string) : option Z :=
  let number body :=
    match body with
    | EmptyString => None
    | _ => digits_from 0 body
    end in
  let signed :=
    match s with
    | String c s' =>
        if Ascii.eqb c "-"%char then Z.opp <$> number s'
        else if Ascii.eqb c "+"%char then number s'
        else number s
    | EmptyString => None
    end in
  match signed with
  | Some n => if decide (- 2 ^ 63 <= n < 2 ^ 63)%Z then Some n else None
  | None => None
  end.

(** ** Descriptors under construction *)

(** The zero value of Properties. *)
Definition zeroProperties : Properties :=
  mkProperties "" "" 0 WireVarint None None 0 [] None None false false None None None 0.

(** The assignments [p.x = ...]. *)
Definition set_Name (x : string) (p : Properties) : Properties :=
  mkProperties x (Wire p) (Tag p) (pWireType p) (enc p) (valEnc p) (offset p) (tagcode p) (stype p) (sprop p) (isMarshaler p) (isAppender p) (mtype p) (mkeyprop p) (mvalprop p) (length_ p).
Definition set_Wire (x : string) (p : Properties) : Properties :=
  mkProperties (Name p) x (Tag p) (pWireType p) (enc p) (valEnc p) (offset p) (tagcode p) (stype p) (sprop p) (isMarshaler p) (isAppender p) (mtype p) (mkeyprop p) (mvalprop p) (length_ p).
Definition set_Tag (x : N) (p : Properties) : Properties :=
  mkProperties (Name p) (Wire p) x (pWireType p) (enc p) (valEnc p) (offset p) (tagcode p) (stype p) (sprop p) (isMarshaler p) (isAppender p) (mtype p) (mkeyprop p) (mvalprop p) (length_ p).
Definition set_pWireType (x : WireType) (p : Properties) : Properties :=
  mkProperties (Name p) (Wire p) (Tag p) x (enc p) (valEnc p) (offset p) (tagcode p) (stype p) (sprop p) (isMarshaler p) (isAppender p) (mtype p) (mkeyprop p) (mvalprop p) (length_ p).
Definition set_enc (x : option encoder) (p : Properties) : Properties :=
  mkProperties (Name p) (Wire p) (Tag p) (pWireType p) x (valEnc p) (offset p) (tagcode p) (stype p) (sprop p) (isMarshaler p) (isAppender p) (mtype p) (mkeyprop p) (mvalprop p) (length_ p).
Definition set_valEnc (x : option valueEncoder) (p : Properties) : Properties :=
  mkProperties (Name p) (Wire p) (Tag p) (pWireType p) (enc p) x (offset p) (tagcode p) (stype p) (sprop p) (isMarshaler p) (isAppender p) (mtype p) (mkeyprop p) (mvalprop p) (length_ p).
Definition set_offset (x : nat) (p : Properties) : Properties :=
  mkProperties (Name p) (Wire p) (Tag p) (pWireType p) (enc p) (valEnc p) x (tagcode p) (stype p) (sprop p) (isMarshaler p) (isAppender p) (mtype p) (mkeyprop p) (mvalprop p) (length_ p).
Definition set_tagcode (x : list N) (p : Properties) : Properties :=
  mkProperties (Name p) (Wire p) (Tag p) (pWireType p) (enc p) (valEnc p) (offset p) x (stype p) (sprop p) (isMarshaler p) (isAppender p) (mtype p) (mkeyprop p) (mvalprop p) (length_ p).
Definition set_stype (x : option rtype) (p : Properties) : Properties :=
  mkProperties (Name p) (Wire p) (Tag p) (pWireType p) (enc p) (valEnc p) (offset p) (tagcode p) x (sprop p) (isMarshaler p) (isAppender p) (mtype p) (mkeyprop p) (mvalprop p) (length_ p).
Definition set_sprop (x : option tid) (p : Properties) : Properties :=
  mkProperties (Name p) (Wire p) (Tag p) (pWireType p) (enc p) (valEnc p) (offset p) (tagcode p) (stype p) x (isMarshaler p) (isAppender p) (mtype p) (mkeyprop p) (mvalprop p) (length_ p).
Definition set_isMarshaler (x : bool) (p : Properties) : Properties :=
  mkProperties (Name p) (Wire p) (Tag p) (pWireType p) (enc p) (valEnc p) (offset p) (tagcode p) (stype p) (sprop p) x (isAppender p) (mtype p) (mkeyprop p) (mvalprop p) (length_ p).
Definition set_mtype (x : option rtype) (p : Properties) : Properties :=
  mkProperties (Name p) (Wire p) (Tag p) (pWireType p) (enc p) (valEnc p) (offset p) (tagcode p) (stype p) (sprop p) (isMarshaler p) (isAppender p) x (mkeyprop p) (mvalprop p) (length_ p).
Definition set_mkeyprop (x : option Properties) (p : Properties) : Properties :=
  mkProperties (Name p) (Wire p) (Tag p) (pWireType p) (enc p) (valEnc p) (offset p) (tagcode p) (stype p) (sprop p) (isMarshaler p) (isAppender p) (mtype p) x (mvalprop p) (length_ p).
Definition set_mvalprop (x : option Properties) (p : Properties) : Properties :=
  mkProperties (Name p) (Wire p) (Tag p) (pWireType p) (enc p) (valEnc p) (offset p) (tagcode p) (stype p) (sprop p) (isMarshaler p) (isAppender p) (mtype p) (mkeyprop p) x (length_ p).
Definition set_length_ (x : Z) (p : Properties) : Properties :=
  mkProperties (Name p) (Wire p) (Tag p) (pWireType p) (enc p) (valEnc p) (offset p) (tagcode p) (stype p) (sprop p) (isMarshaler p) (isAppender p) (mtype p) (mkeyprop p) (mvalprop p) x.

(** IntEncoder enumerates the different ways of encoding integers. *)
Inductive IntEncoder :=
| UnknownEncoder | VarintEncoder | Fixed32Encoder | Fixed64Encoder
| Zigzag32Encoder | Zigzag64Encoder.

(** Parse populates p by parsing a string in the protobuf struct field tag
    style.  It returns the descriptor as it leaves it, then its three
    results. *)
Definition Parse (p : Properties) (s : string)
  : Properties * (IntEncoder * bool * option error) :=
  let p := set_Wire s p in
  let fields := strings_Split_comma s in
  match fields with
  | [] => (p, (UnknownEncoder, true, Some (ErrTooFewFields (Name p) s)))
  | [f0] =>
      if decide (f0 = "-") then (p, (UnknownEncoder, true, None))
      else (p, (UnknownEncoder, true, Some (ErrTooFewFields (Name p) s)))
  | f0 :: f1 :: _ =>
      let sw :=
        if decide (f0 = "varint") then
          Some (set_pWireType WireVarint (set_valEnc (Some fEncodeVarint) p), VarintEncoder)
        else if decide (f0 = "fixed32") then
          Some (set_pWireType WireFixed32 (set_valEnc (Some fEncodeFixed32) p), Fixed32Encoder)
        else if decide (f0 = "fixed64") then
          Some (set_pWireType WireFixed64 (set_valEnc (Some fEncodeFixed64) p), Fixed64Encoder)
        else if decide (f0 = "zigzag32") then
          Some (set_pWireType WireVarint (set_valEnc (Some fEncodeZigzag32) p), Zigzag32Encoder)
        else if decide (f0 = "zigzag64") then
          Some (set_pWireType WireVarint (set_valEnc (Some fEncodeZigzag64) p), Zigzag64Encoder)
        else if decide (f0 = "bytes") then
          Some (set_pWireType WireBytes p, UnknownEncoder)
        else None in
      match sw with
      | None => (p, (UnknownEncoder, false, Some (ErrUnknownWireType (Name p) s)))
      | Some (p, enc) =>
          match strconv_Atoi f1 with
          | None => (p, (UnknownEncoder, false, Some (ErrTagInvalid (Name p) s)))
          | Some tag =>
              if decide (tag <= 0)%Z
              then (p, (UnknownEncoder, false, Some (ErrTagOutOfRange (Name p) s)))
              else (set_Tag (uint32 (Z.to_N tag)) p, (enc, false, None))
          end
      end
  end.

(** The loop that precalculates the tag code:
    [for i = 0; x > 127; i++ { tagbuf[i] = 0x80 | uint8(x&0x7F); x >>= 7 }]
    then [tagbuf[i] = uint8(x)]; the result is [tagbuf[0:i+1]]. *)
Equations? tagcode_loop (x : N) : list N by wf (bits x) lt :=
  tagcode_loop x :=
    if decide (127 < x)
    then N.lor 0x80 (uint8 (N.land x 0x7F)) :: tagcode_loop (N.shiftr x 7)
    else [uint8 x].
Proof. apply bits_shiftr_7. change (2 ^ 7) with 128. lia. Qed.

(** [x := p.Tag<<3 | uint32(wire)] and the tag code of [x]. *)
Definition precalculate_tagcode (wire : WireType) (p : Properties) : Properties :=
  let x := N.lor (uint32 (N.shiftl (Tag p) 3)) (uint32 (WireType_code wire)) in
  set_tagcode (tagcode_loop x) p.

(** ** The compiler's state *)

(** [propertiesMap], with the StructProperties objects it points to. *)
Abbreviation propertiesMap_t := (gmap tid StructProperties).

Inductive panic :=
| DuplicateTag (tag : N) (sname name : string)  (* protobuf3: duplicate tag %d on %s.%s *)
| MustHaveKindStruct                            (* protobuf3: type must have kind struct *)
| NilDereference.                               (* a nil *reflect.StructField is read *)

(** How a call that reads and writes [propertiesMap] ends: it returns, it
    panics, or the recursion is cut by the bound on its depth. *)
Inductive outcome (A : Type) :=
| Returns (a : A) (m : propertiesMap_t)
| Panics (e : panic) (m : propertiesMap_t)
| OutOfFuel.
Arguments Returns {A} a m.
Arguments Panics {A} e m.
Arguments OutOfFuel {A}.

Definition compile (A : Type) : Type := propertiesMap_t -> outcome A.

Definition cret {A} (a : A) : compile A := fun m => Returns a m.

Definition cbind {A B} (c : compile A) (k : A -> compile B) : compile B :=
  fun m =>
    match c m with
    | Returns a m' => k a m'
    | Panics e m' => Panics e m'
    | OutOfFuel => OutOfFuel
    end.

#[global] Instance compile_ret : MRet compile := @cret.
#[global] Instance compile_bind : MBind compile := fun A B k c => cbind c k.

Section Compiler.

Variable env : TypeEnv.

(** The package variable [XXXHack]. *)
Variable XXXHack : bool.

(** [isMarshaler] reports whether type t implements Marshaler. *)
Definition isMarshaler_type (t : gotype) : bool := implementsMarshaler env t.

Section SetEnc.

(** [getPropertiesLocked], which setEnc calls for the struct types it
    meets. *)
Variable getPropertiesLocked : tid -> compile tid.

(** The three assignments of a struct case of setEnc:
    [p.stype = t; p.sprop = getPropertiesLocked(t); p.isMarshaler = ...]. *)
Definition set_struct (t : tid) (ptrType : gotype) (p : Properties) : compile Properties :=
  let p := set_stype (Some (rtype_of env (Struct t))) p in
  sp ← getPropertiesLocked t;
  let p := set_sprop (Some sp) p in
  cret (set_isMarshaler (isMarshaler_type ptrType) p).

Definition setEnc_Ptr (t1 t2 : gotype) (p : Properties) : compile Properties :=
  match t2 with
  | Basic kBool => cret (set_enc (Some f_enc_ptr_bool) p)
  | Basic kInt32 => cret (set_enc (Some f_enc_ptr_int32) p)
  | Basic kUint32 => cret (set_enc (Some f_enc_ptr_uint32) p)
  | Basic kInt64 => cret (set_enc (Some f_enc_ptr_int64) p)
  | Basic kUint64 => cret (set_enc (Some f_enc_ptr_int64) p)
  | Basic kFloat32 => cret (set_enc (Some f_enc_ptr_uint32) p)
  | Basic kFloat64 => cret (set_enc (Some f_enc_ptr_int64) p)
  | Basic kString => cret (set_enc (Some f_enc_ptr_string) p)
  | Struct t =>
      p ← set_struct t t1 p;
      cret (set_enc (Some (if isMarshaler p then f_enc_ptr_marshaler
                           else f_enc_ptr_struct_message)) p)
  | _ => cret p
  end.

(** The cases of a slice set the encoder and, for packed scalars, turn
    the wire type of the tag code into bytes. *)
Definition setEnc_Slice (t1 t2 : gotype) (wire : WireType) (p : Properties)
  : compile (Properties * WireType) :=
  if isMarshaler_type (Ptr t1) then
    let p := set_isMarshaler true p in
    let p := set_stype (Some (rtype_of env t1)) p in
    cret (set_enc (Some f_enc_marshaler) p, wire)
  else
    match t2 with
    | Basic kBool => cret (set_enc (Some f_enc_slice_packed_bool) p, WireBytes)
    | Basic kInt => cret (set_enc (Some f_enc_slice_packed_int) p, WireBytes)
    | Basic kUint => cret (set_enc (Some f_enc_slice_packed_uint) p, WireBytes)
    | Basic kInt8 => cret (set_enc (Some f_enc_slice_packed_int8) p, WireBytes)
    | Basic kUint8 => cret (set_enc (Some f_enc_slice_byte) p, WireBytes)
    | Basic kInt16 => cret (set_enc (Some f_enc_slice_packed_int16) p, WireBytes)
    | Basic kUint16 => cret (set_enc (Some f_enc_slice_packed_uint16) p, WireBytes)
    | Basic kInt32 => cret (set_enc (Some f_enc_slice_packed_int32) p, WireBytes)
    | Basic kUint32 => cret (set_enc (Some f_enc_slice_packed_uint32) p, WireBytes)
    | Basic kInt64 | Basic kUint64 =>
        cret (set_enc (Some f_enc_slice_packed_int64) p, WireBytes)
    | Basic kFloat32 => cret (set_enc (Some f_enc_slice_packed_uint32) p, WireBytes)
    | Basic kFloat64 => cret (set_enc (Some f_enc_slice_packed_int64) p, WireBytes)
    | Basic kString => cret (set_enc (Some f_enc_slice_string) p, wire)
    | Struct t =>
        p ← set_struct t (Ptr t2) p;
        cret (set_enc (Some f_enc_slice_struct_message) p, wire)
    | Ptr t3 =>
        match t3 with
        | Struct t =>
            p ← set_struct t t2 p;
            cret (set_enc (Some f_enc_slice_ptr_struct_message) p, wire)
        | _ => cret (p, wire)
        end
    | Slice t3 =>
        match Kind_of t3 with
        | kUint8 => cret (set_enc (Some f_enc_slice_slice_byte) p, wire)
        | _ => cret (p, wire)
        end
    | _ => cret (p, wire)
    end.

Definition setEnc_Array (t1 : gotype) (n : Z) (t2 : gotype) (wire : WireType)
  (p : Properties) : compile (Properties * WireType) :=
  let p := set_length_ n p in
  if decide (length_ p = 0)%Z then cret (set_enc (Some f_enc_nothing) p, wire)
  else
    match t2 with
    | Basic kBool => cret (set_enc (Some f_enc_array_packed_bool) p, WireBytes)
    | Basic kInt32 => cret (set_enc (Some f_enc_array_packed_int32) p, WireBytes)
    | Basic kUint32 => cret (set_enc (Some f_enc_array_packed_uint32) p, WireBytes)
    | Basic kInt64 => cret (set_enc (Some f_enc_array_packed_int64) p, WireBytes)
    | Basic kUint64 => cret (set_enc (Some f_enc_array_packed_int64) p, WireBytes)
    | Basic kUint8 => cret (set_enc (Some f_enc_array_byte) p, wire)
    | Basic kFloat32 => cret (set_enc (Some f_enc_array_packed_uint32) p, WireBytes)
    | Basic kFloat64 => cret (set_enc (Some f_enc_array_packed_int64) p, WireBytes)
    | Basic kString => cret (set_enc (Some f_enc_array_string) p, wire)
    | Struct t =>
        p ← set_struct t (Ptr t2) p;
        cret (set_enc (Some f_enc_array_struct_message) p, wire)
    | Ptr t3 =>
        match t3 with
        | Struct t =>
            p ← set_struct t t2 p;
            cret (set_enc (Some f_enc_array_ptr_struct_message) p, wire)
        | _ => cret (p, wire)
        end
    | _ => cret (p, wire)
    end.

Section Init.

(** setEnc, which init calls. *)
Variable setEnc : Properties -> gotype -> option StructField -> IntEncoder
                  -> compile Properties.

(** Init populates the properties from a protocol buffer struct tag.
    [f] is the field and its number, or nil.  The descriptor is returned
    as init leaves it, with the two results. *)
Definition init (p : Properties) (typ : gotype) (name tag : string)
  (f : option (StructField * nat)) : compile (Properties * (bool * option error)) :=
  if decide (tag = "") then
    if XXXHack && strings_HasPrefix name "XXX_" then cret (p, (true, None))
    else cret (p, (true, Some (ErrLacksTag name (TypeName (rtype_of env typ)))))
  else
    let p := set_Name name p in
    let p := match f with Some (_, i) => set_offset i p | None => p end in
    let '(p, (intencoder, skip, e)) := Parse p tag in
    if skip || bool_decide (is_Some e) then cret (p, (skip, e))
    else
      p ← setEnc p typ (fst <$> f) intencoder;
      cret (p, (false, None)).

End Init.

Section SetEncWith.

(** The two calls [p.mkeyprop.init(...)] and [p.mvalprop.init(...)] of
    the map case, each on a fresh descriptor. *)
Variable init_entry : Properties -> gotype -> string -> string -> option (StructField * nat)
                      -> compile (Properties * (bool * option error)).

Definition setEnc_Map (t1 key elem : gotype) (f : option StructField) (p : Properties)
  : compile Properties :=
  let p := set_enc (Some f_enc_new_map) p in
  let p := set_mtype (Some (rtype_of env t1)) p in
  match f with
  | None => Panics NilDereference
  | Some f =>
      k ← init_entry zeroProperties (Ptr key) "Key" (fTagKey f) None;
      let p := set_mkeyprop (Some k.1) p in
      let vtype := elem in
      let vtype := if bool_decide (Kind_of vtype <> kPtr /\ Kind_of vtype <> kSlice)
                   then Ptr vtype else vtype in
      v ← init_entry zeroProperties vtype "Value" (fTagVal f) None;
      cret (set_mvalprop (Some v.1) p)
  end.

(** Initialize the fields for encoding and decoding. *)
Definition setEnc_with (p : Properties) (typ : gotype) (f : option StructField)
  (int_encoder : IntEncoder) : compile Properties :=
  let p := set_enc None p in
  let wire := pWireType p in
  r ← match typ with
       | Basic kBool => cret (set_enc (Some f_enc_bool) p, wire)
       | Basic kInt => cret (set_enc (Some f_enc_int) p, wire)
       | Basic kUint => cret (set_enc (Some f_enc_uint) p, wire)
       | Basic kInt8 => cret (set_enc (Some f_enc_int8) p, wire)
       | Basic kUint8 => cret (set_enc (Some f_enc_uint8) p, wire)
       | Basic kInt16 => cret (set_enc (Some f_enc_int16) p, wire)
       | Basic kUint16 => cret (set_enc (Some f_enc_uint16) p, wire)
       | Basic kInt32 => cret (set_enc (Some f_enc_int32) p, wire)
       | Basic kUint32 => cret (set_enc (Some f_enc_uint32) p, wire)
       | Basic kInt64 => cret (set_enc (Some f_enc_int64) p, wire)
       | Basic kUint64 => cret (set_enc (Some f_enc_int64) p, wire)
       | Basic kFloat32 => cret (set_enc (Some f_enc_uint32) p, wire)
       | Basic kFloat64 => cret (set_enc (Some f_enc_int64) p, wire)
       | Basic kString => cret (set_enc (Some f_enc_string) p, wire)
       | Basic _ => cret (p, wire)
       | Struct t1 =>
           p ← set_struct t1 (Ptr typ) p;
           cret (set_enc (Some (if isMarshaler p then f_enc_marshaler
                                else f_enc_struct_message)) p, wire)
       | Ptr t2 => p ← setEnc_Ptr typ t2 p; cret (p, wire)
       | Slice t2 => setEnc_Slice typ t2 wire p
       | Array n t2 => setEnc_Array typ n t2 wire p
       | Map key elem => p ← setEnc_Map typ key elem f p; cret (p, wire)
       end;
  cret (precalculate_tagcode r.2 r.1).

End SetEncWith.

(** setEnc on the pointer or slice type of a map's key or value: the map
    case is not among its cases. *)
Definition setEnc_entry : Properties -> gotype -> option StructField -> IntEncoder
                          -> compile Properties :=
  setEnc_with (fun p _ _ _ _ => cret (p, (true, None))).

Definition setEnc : Properties -> gotype -> option StructField -> IntEncoder
                    -> compile Properties :=
  setEnc_with (init setEnc_entry).

End SetEnc.

(** ** getPropertiesLocked and GetProperties *)

(** The tag of the field whose number is [a]. *)
Definition tag_of_field (sp : StructProperties) (a : nat) : N :=
  default 0 (Tag <$> Prop_ sp !! a).

(** [sp.Less(i, j)], on the field numbers [a = order[i]] and [b = order[j]]. *)
Definition Less (sp : StructProperties) (a b : nat) : Prop :=
  tag_of_field sp a < tag_of_field sp b.

(** The order that Less induces: [b] is not Less than [a]. *)
Definition tag_le (sp : StructProperties) (a b : nat) : Prop :=
  tag_of_field sp a <= tag_of_field sp b.

#[global] Instance tag_le_dec sp a b : Decision (tag_le sp a b).
Proof. unfold tag_le. apply _. Defined.

(** [sort.Sort(sp)].  The library sorts [order] through Len, Less and
    Swap: it leaves a permutation of [order] in which no element is Less
    than one before it.  The fields in [order] have tags that differ, so
    there is one such list, whatever the method; the model sorts by
    merging. *)
Definition sort_Sort (sp : StructProperties) : StructProperties :=
  mkStructProperties (Prop_ sp) (merge_sort (tag_le sp) (order sp)).

Definition zeroStructProperties : StructProperties := mkStructProperties [] [].

(** The object [propertiesMap[t]] points to. *)
Definition object_of (m : propertiesMap_t) (t : tid) : StructProperties :=
  default zeroStructProperties (m !! t).

(** [prop.Prop[i] = p] and [prop.order[j] = i], on the object of [t]. *)
Definition store_Prop (t : tid) (i : nat) (p : Properties) (m : propertiesMap_t)
  : propertiesMap_t :=
  alter (fun sp => mkStructProperties (<[i := p]> (Prop_ sp)) (order sp)) t m.

Definition store_order (t : tid) (j i : nat) (m : propertiesMap_t) : propertiesMap_t :=
  alter (fun sp => mkStructProperties (Prop_ sp) (<[j := i]> (order sp))) t m.

(** [t.Name()], or the name the panic gives to a struct without one. *)
Definition sname_of (t : tid) : string :=
  let n := TypeName (rtype_of env (Struct t)) in
  if decide (n = "") then "<anonymous struct>" else n.

Section Fields.

Variable getPropertiesLocked : tid -> compile tid.

(** One turn of the loop over the fields of [t]: field [i] is [f]; [seen]
    is the set of tags met and [j] the number of fields retained.  The
    descriptor [prop.Prop[i]] is written when init returns. *)
Definition field_step (t : tid) (i : nat) (f : StructField) (seen : gset N) (j : nat)
  : compile (gset N * nat) :=
  fun m =>
    let p := default zeroProperties (Prop_ (object_of m t) !! i) in
    match init (setEnc getPropertiesLocked) p (fType f) (fName f) (fTag f) (Some (f, i)) m with
    | Returns (p, (skip, e)) m =>
        let m := store_Prop t i p m in
        if bool_decide (is_Some e) then Returns (seen, j) m
        else if skip then Returns (seen, j) m
        else if decide (Tag p ∈ seen) then
          Panics (DuplicateTag (Tag p) (sname_of t) (fName f)) m
        else Returns ({[Tag p]} ∪ seen, S j) (store_order t j i m)
    | Panics e m => Panics e m
    | OutOfFuel => OutOfFuel
    end.

(** [for i := 0; i < nf; i++], from field [i] on. *)
Fixpoint fields_loop (t : tid) (fs : list StructField) (i : nat) (seen : gset N) (j : nat)
  : compile nat :=
  match fs with
  | [] => cret j
  | f :: fs' =>
      r ← field_step t i f seen j;
      fields_loop t fs' (S i) r.1 r.2
  end.

End Fields.

(** The end of getPropertiesLocked: [prop.order = prop.order[:j]], then
    [sort.Sort(prop)], then [return prop]. *)
Definition finish_properties (t : tid) (j : nat) : compile tid :=
  fun m =>
    let prop := object_of m t in
    let prop := mkStructProperties (Prop_ prop) (take j (order prop)) in
    let prop := sort_Sort prop in
    Returns t (<[t := prop]> m).

(** getPropertiesLocked requires that propertiesMu is held.  [fuel] bounds
    the depth of the calls that find their type not yet in the map. *)
Fixpoint getPropertiesLocked (fuel : nat) (t : tid) : compile tid :=
  fun m =>
    match m !! t with
    | Some _ => Returns t m
    | None =>
        match fuel with
        | O => OutOfFuel
        | S fuel' =>
            let fs := NumField_Field env t in
            let nf := length fs in
            (* in case of recursive protos, fill this in now *)
            let prop := mkStructProperties (replicate nf zeroProperties) (replicate nf 0%nat) in
            let m := <[t := prop]> m in
            (j ← fields_loop (getPropertiesLocked fuel') t fs 0 ∅ 0;
             finish_properties t j) m
        end
    end.

(** GetProperties returns the list of properties for the type represented
    by t, which must be a struct or a pointer to a struct. *)
Definition GetProperties_of (fuel : nat) (t : gotype) : compile tid :=
  let t := match t with Ptr e => e | _ => t end in
  match t with
  | Struct t =>
      fun m =>
        match m !! t with
        | Some _ => Returns t m
        | None => getPropertiesLocked fuel t m
        end
  | _ => Panics MustHaveKindStruct
  end.

End Compiler.

(** The struct type [time.Time]. *)
Definition time_Time : tid := 0%nat.

(** [propertiesMap] after the package's [init]: a StructProperties is
    synthesized for time.Time, which encodes it as the standard
    Timestamp. *)
Definition propertiesMap_init : propertiesMap_t :=
  {[ time_Time :=
       mkStructProperties
         [set_enc (Some f_enc_time_Time) (set_Name "time.Time" zeroProperties)]
         [0%nat] ]}.

(** * Properties of the encoder *)

Arguments EncodeVarint : simpl never.
Arguments put : simpl never.
Arguments SizeVarint : simpl never.
Arguments uint64_of_Z : simpl never.
Arguments enc_len_thing : simpl never.

(** ** Vocabulary *)

(** [s'] is [s] with [bs] appended: the visible bytes are extended by
    [bs], and when [bs] fits the capacity it has been written in place,
    over the first spare bytes. *)
Definition appended (s : slice) (bs : list N) (s' : slice) : Prop :=
  visible s' = visible s ++ bs /\
  ((length bs <= length (spare s))%nat -> spare s' = drop (length bs) (spare s)).

(** The error recorded in a buffer stays: [o'] has the error of [o] when
    [o] has one. *)
Definition keeps_err (o o' : Buffer) : Prop :=
  forall e, err o = Some e -> err o' = Some e.

(** [o'] holds the bytes of [o] and then some. *)
Definition extends (o o' : Buffer) : Prop :=
  exists bs, visible (buf o') = visible (buf o) ++ bs.

(** The size of a value, which the proofs about nested messages go down. *)
Fixpoint vsize (v : value) : nat :=
  match v with
  | VPtr (Some s) => S (vsize s)
  | VSlice l | VArray l | VStruct l => S (sum_list_with vsize l)
  | VMap kvs => S (sum_list_with (fun kv => vsize kv.1 + vsize kv.2)%nat kvs)
  | _ => 1%nat
  end.

(** An AppendProtobuf3 method that appends: when it returns no error, the
    slice it returns holds the bytes of the slice it was given, and then
    the bytes it encodes. *)
Definition appends (a : slice -> slice * option error) : Prop :=
  forall s, (a s).2 = None -> exists body, visible (a s).1 = visible s ++ body.

(** Every AppendProtobuf3 method in a value appends. *)
Fixpoint well_behaved (v : value) : Prop :=
  match v with
  | VAppender a => appends a
  | VPtr (Some s) => well_behaved s
  | VSlice l | VArray l | VStruct l => foldr (fun x P => well_behaved x /\ P) True l
  | VMap kvs => foldr (fun kv P => (well_behaved kv.1 /\ well_behaved kv.2) /\ P) True kvs
  | _ => True
  end.

(** ** The reference encoding of a varint *)

(** Base-128, little-endian: the low 7 bits first, the continuation bit
    0x80 on every byte except the last. *)
Equations? base128 (x : N) : list N by wf (bits x) lt :=
  base128 x :=
    if decide (x < 128) then [x]
    else (x mod 128 + 128) :: base128 (x / 128).
Proof.
  change 128 with (2 ^ 7). rewrite <- N.shiftr_div_pow2.
  apply bits_shiftr_7. change (2 ^ 7) with 128. lia.
Qed.

(** The number a base-128 little-endian varint stands for, and what makes
    a list of bytes one: the continuation bit 0x80 is set on every byte
    except the last. *)
Definition varint_value (l : list N) : N :=
  foldr (fun b acc => b mod 128 + 128 * acc) 0 l.

Fixpoint well_formed_varint (l : list N) : bool :=
  match l with
  | [] => false
  | [b] => b <? 128
  | c :: l' => (128 <=? c) && (c <? 256) && well_formed_varint l'
  end.

(** ** Concrete inputs for the examples *)

(** A growth policy: twice what is needed.  (The run time's policy is more
    involved; the encoder does not depend on it.) *)
Definition grow_double (oldcap needed : Z) : Z := (2 * needed)%Z.

(** ** Reference readings of the fixed-width and zigzag formats *)

(** The number that bytes stand for, the least significant first. *)
Definition le_value (l : list N) : N := foldr (fun b acc => b + 256 * acc) 0 l.

(** The zigzag code of a signed integer: 0, -1, 1, -2, ... are 0, 1, 2,
    3, ... *)
Definition zigzag (z : Z) : N :=
  Z.to_N (if decide (0 <= z)%Z then 2 * z else - 2 * z - 1)%Z.

(** The key of a field on the wire: its tag and its wire type. *)
Definition wire_key (tag : N) (w : WireType) : N := tag * 8 + WireType_code w.

(** The bytes a [valEnc] writes for [x]: a varint, the low 4 or the 8
    bytes of [x], or the varint of a zigzag code. *)
Definition valEnc_bytes (f : valueEncoder) (x : N) : list N :=
  match f with
  | fEncodeVarint => base128 x
  | fEncodeFixed32 =>
      [uint8 x; uint8 (N.shiftr x 8); uint8 (N.shiftr x 16); uint8 (N.shiftr x 24)]
  | fEncodeFixed64 =>
      [uint8 x; uint8 (N.shiftr x 8); uint8 (N.shiftr x 16); uint8 (N.shiftr x 24);
       uint8 (N.shiftr x 32); uint8 (N.shiftr x 40); uint8 (N.shiftr x 48);
       uint8 (N.shiftr x 56)]
  | fEncodeZigzag32 =>
      base128 (N.lxor (uint32 (N.shiftl (uint32 x) 1))
                 (uint32 (uint64_of_Z (Z.shiftr (int32 (Z.of_N x)) 31))))
  | fEncodeZigzag64 =>
      base128 (N.lxor (uint64 (N.shiftl x 1))
                 (uint64_of_Z (Z.shiftr (int64_of_N x) 63)))
  end.

(** The body of a google.protobuf.Duration of [d] nanoseconds: the
    seconds under tag 1 and the nanoseconds under tag 2, each left out
    when it is zero. *)
Definition Duration_body (d : Z) : list N :=
  let secs := (d ÷ 1000000000)%Z in
  let nanos := (d - secs * 1000000000)%Z in
  (if decide (secs ≠ 0)%Z then [8] ++ base128 (uint64_of_Z secs) else [])
  ++ (if decide (nanos ≠ 0)%Z then [16] ++ base128 (uint64_of_Z nanos) else []).

(** A schema with one int32 field, tagged 1, for the examples. *)
Definition example_field : Properties :=
  set_enc (Some f_enc_int32)
    (set_tagcode [8] (set_valEnc (Some fEncodeVarint) zeroProperties)).

Definition example_schemas : gmap tid StructProperties :=
  {[ 1%nat := mkStructProperties [example_field] [0%nat] ]}.

(** ** Vocabulary of the schema compiler *)

(** A computation of the compiler that leaves the entries of the map
    that satisfy [P] as they are, whether it returns or panics. *)
Definition frames_on (P : tid -> Prop) {A} (c : compile A) : Prop :=
  forall m,
    match c m with
    | Returns _ m' | Panics _ m' =>
        forall t sp, P t -> m !! t = Some sp -> m' !! t = Some sp
    | OutOfFuel => True
    end.

(** The struct types of the program that are not in the map yet. *)
Definition uncompiled (env : TypeEnv) (m : propertiesMap_t) : gset tid :=
  dom (structs env) ∖ dom m.

(** A computation of the compiler that does not run out of fuel from a
    map in which fewer than [k] struct types are left to compile, and
    leaves such a map. *)
Definition within_fuel (env : TypeEnv) (k : nat) {A} (c : compile A) : Prop :=
  forall m,
    (size (uncompiled env m) < k)%nat ->
    match c m with
    | Returns _ m' | Panics _ m' => (size (uncompiled env m') < k)%nat
    | OutOfFuel => False
    end.

(** What the loop over the fields of [t] keeps true of the object of [t],
    when it is about to look at field [i], having retained [j] fields
    whose tags are [seen]: the field numbers retained are below [i], and
    their tags are in [seen] and differ. *)
Definition fields_inv (t : tid) (nf i : nat) (seen : gset N) (j : nat)
  (m : propertiesMap_t) : Prop :=
  exists sp,
    m !! t = Some sp /\
    length (Prop_ sp) = nf /\ length (order sp) = nf /\ (j <= i)%nat /\
    Forall (fun a => (a < i)%nat) (take j (order sp)) /\
    NoDup (map (tag_of_field sp) (take j (order sp))) /\
    (forall a, a ∈ take j (order sp) -> tag_of_field sp a ∈ seen).

(** Two struct types for the examples: one whose fields are declared
    with the tags 9 and 2, in that order, and one that refers to itself. *)
Definition example_env : TypeEnv :=
  mkTypeEnv
    {[ 1%nat := mkStructType (mkRtype "main" "T92" 8)
                  [mkStructField "a" (Basic kInt32) "varint,9" "" "";
                   mkStructField "b" (Basic kInt32) "varint,2" "" ""];
       2%nat := mkStructType (mkRtype "main" "RecursiveTypeMsg" 16)
                  [mkStructField "self" (Ptr (Struct 2%nat)) "bytes,1" "" "";
                   mkStructField "b" (Basic kBool) "varint,22334455" "" ""] ]}
    (fun _ => mkRtype "" "" 0) (fun _ => false).

(** ** Vocabulary of the encoder of a struct *)



Section VarintFacts.
Variable growslice : Z -> Z -> Z.

Lemma appended_append s bs : appended s bs (append growslice s bs).
Proof.
  unfold append, appended, cap, len, arr. split.
  - case_decide; reflexivity.
  - intros Hfit. rewrite length_app. case_decide; [done | lia].
Qed.

Lemma appended_trans s a s1 b s2 :
  appended s a s1 -> appended s1 b s2 -> appended s (a ++ b) s2.
Proof.
  intros [Hv1 Hs1] [Hv2 Hs2]. split.
  - by rewrite Hv2, Hv1, app_assoc.
  - rewrite length_app. intros Hfit.
    rewrite Hs2, Hs1, drop_drop by (rewrite ?Hs1, ?length_drop; lia). done.
Qed.

Lemma appended_put bs o : appended (buf o) bs (buf (put growslice bs o)).
Proof. apply appended_append. Qed.

Lemma base128_small x : x < 128 -> base128 x = [x].
Proof. intros. rewrite base128_equation_1. case_decide; [done | lia]. Qed.

Lemma base128_big x : 128 <= x -> base128 x = (x mod 128 + 128) :: base128 (x / 128).
Proof. intros. rewrite base128_equation_1. case_decide; [lia | done]. Qed.

Lemma byte_lor_128 y : y < 256 -> N.lor y 128 = y mod 128 + 128.
Proof.
  intros Hy. rewrite <- (N2Nat.id y) in *.
  assert (N.to_nat y < 256)%nat as Hn by lia. clear Hy.
  generalize dependent (N.to_nat y). intros n Hn.
  do 256 (destruct n as [|n]; [vm_compute; reflexivity|]). lia.
Qed.

Lemma mod_mul_mod y c : (y mod (128 * c)) mod 128 = y mod 128.
Proof.
  rewrite N.Div0.mod_mul_r, (N.mul_comm 128), N.Div0.mod_add. apply N.Div0.mod_mod.
Qed.

Lemma uint8_lor_128 x : N.lor (uint8 x) 128 = x mod 128 + 128.
Proof.
  unfold uint8. rewrite byte_lor_128 by (apply N.mod_lt; done).
  f_equal. change (2 ^ 8) with (128 * 2). apply mod_mul_mod.
Qed.

Lemma uint8_small x : x < 128 -> uint8 x = x.
Proof. intros. unfold uint8. apply N.mod_small. change (2 ^ 8) with 256. lia. Qed.

Lemma shiftr_7 x : N.shiftr x 7 = x / 128.
Proof. by rewrite N.shiftr_div_pow2. Qed.

Lemma varint_loop_appended x : forall p,
  appended (buf p) (base128 x) (buf (varint_loop growslice x p)).
Proof.
  induction x as [x IH] using (well_founded_induction N.lt_wf_0). intros p.
  rewrite varint_loop_equation_1. change (2 ^ 7) with 128. case_decide as Hx.
  - rewrite (base128_big x) by done.
    rewrite uint8_lor_128, shiftr_7.
    apply (appended_trans _ [_] _ _ _ (appended_put _ _)), IH, N.div_lt; lia.
  - rewrite base128_small, uint8_small by lia. apply appended_put.
Qed.

Lemma varint_loop_err x : forall p, err (varint_loop growslice x p) = err p.
Proof.
  induction x as [x IH] using (well_founded_induction N.lt_wf_0). intros p.
  rewrite varint_loop_equation_1. case_decide as Hx; [|done].
  rewrite IH; [done|]. rewrite shiftr_7; apply N.div_lt; [|done].
  change (2 ^ 7) with 128 in Hx. lia.
Qed.

Lemma div_of_mod x m c : m <> 0 -> (x mod (m * c)) / m = (x / m) mod c.
Proof.
  intros Hm. rewrite N.Div0.mod_mul_r, (N.mul_comm m), N.div_add by done.
  rewrite N.div_small by (apply N.mod_lt; done). done.
Qed.

Lemma shiftr_32_zero x : N.shiftr x 32 = 0 <-> x < 2 ^ 32.
Proof. rewrite N.shiftr_div_pow2. apply N.div_small_iff. done. Qed.

(** The continuation byte made of the bits [k .. k+6] of the low word. *)
Lemma low_word_byte x k c :
  2 ^ 32 = 2 ^ k * (128 * c) ->
  N.lor (uint8 (N.shiftr (uint32 x) k)) 128 = (x / 2 ^ k) mod 128 + 128.
Proof.
  intros H32. rewrite uint8_lor_128. f_equal.
  rewrite N.shiftr_div_pow2. unfold uint32. rewrite H32.
  rewrite div_of_mod by (apply N.pow_nonzero; done). apply mod_mul_mod.
Qed.

Lemma EncodeVarint_appended x p :
  appended (buf p) (base128 x) (buf (EncodeVarint growslice x p)).
Proof.
  unfold EncodeVarint. case_decide as H32.
  - apply shiftr_32_zero in H32. unfold uint32. rewrite N.mod_small by done.
    change (2 ^ 7) with 128. change (2 ^ 14) with (128 * 128).
    case_decide as H7; [|case_decide as H14].
    + rewrite base128_small, uint8_small by done. apply appended_put.
    + assert (x / 128 < 128) by (apply N.Div0.div_lt_upper_bound; lia).
      rewrite uint8_lor_128, shiftr_7, uint8_small, base128_big by lia.
      rewrite (base128_small (x / 128)) by done. apply appended_put.
    + assert (128 <= x / 128) by (apply N.div_le_lower_bound; lia).
      rewrite (base128_big x), (base128_big (x / 128)) by lia.
      rewrite !uint8_lor_128, shiftr_7, N.shiftr_div_pow2.
      change (2 ^ 14) with (128 * 128). rewrite <- N.Div0.div_div.
      apply (appended_trans _ [_; _] _ _ _ (appended_put _ _)), varint_loop_appended.
  - assert (2 ^ 32 <= x) as Hx by (rewrite shiftr_32_zero in H32; lia).
    rewrite (low_word_byte x 7 (2 ^ 18)), (low_word_byte x 14 (2 ^ 11)),
      (low_word_byte x 21 (2 ^ 4)) by reflexivity.
    rewrite uint8_lor_128. unfold uint32.
    change (2 ^ 32) with (128 * 2 ^ 25) at 1. rewrite mod_mul_mod.
    rewrite N.shiftr_div_pow2.
    change (2 ^ 7) with 128. change (2 ^ 14) with (128 * 128).
    change (2 ^ 21) with (128 * 128 * 128). change (2 ^ 28) with (128 * 128 * 128 * 128).
    rewrite <- !N.Div0.div_div.
    change (2 ^ 32) with (128 * (128 * (128 * (128 * 16)))) in Hx.
    assert (128 * (128 * (128 * 16)) <= x / 128) by (apply N.div_le_lower_bound; lia).
    assert (128 * (128 * 16) <= x / 128 / 128) by (apply N.div_le_lower_bound; lia).
    assert (128 * 16 <= x / 128 / 128 / 128) by (apply N.div_le_lower_bound; lia).
    rewrite (base128_big x), (base128_big (x / 128)), (base128_big (x / 128 / 128)),
      (base128_big (x / 128 / 128 / 128)) by lia.
    apply (appended_trans _ [_; _; _; _] _ _ _ (appended_put _ _)), varint_loop_appended.
Qed.

Lemma EncodeVarint_visible x p :
  visible (buf (EncodeVarint growslice x p)) = visible (buf p) ++ base128 x.
Proof. apply EncodeVarint_appended. Qed.

Lemma EncodeVarint_err x p : err (EncodeVarint growslice x p) = err p.
Proof.
  unfold EncodeVarint. repeat case_decide; rewrite ?varint_loop_err; done.
Qed.

Lemma size_loop_spec x : forall n, size_loop x n = (n + Z.of_nat (length (base128 x)))%Z.
Proof.
  induction x as [x IH] using (well_founded_induction N.lt_wf_0). intros n.
  rewrite size_loop_equation_1. cbv zeta. rewrite shiftr_7. case_decide as Hx.
  - apply N.div_small_iff in Hx; [|done]. rewrite base128_small by done. simpl. lia.
  - assert (128 <= x).
    { destruct (decide (x < 128)) as [Hlt|]; [|lia].
      apply N.div_small_iff in Hlt; [done|done]. }
    rewrite IH by (apply N.div_lt; lia). rewrite (base128_big x) by done.
    simpl length. lia.
Qed.

Lemma SizeVarint_spec x : SizeVarint x = Z.of_nat (length (base128 x)).
Proof.
  unfold SizeVarint. case_decide as H32.
  - apply shiftr_32_zero in H32. unfold uint32. rewrite N.mod_small by done.
    rewrite size_loop_spec. lia.
  - rewrite size_loop_spec. lia.
Qed.

(** A varint is never empty, and one of a 64-bit value has at most 10 bytes. *)
Lemma base128_length_pos x : (1 <= length (base128 x))%nat.
Proof.
  rewrite base128_equation_1. case_decide; simpl; lia.
Qed.

Lemma base128_length_bound x k :
  x < 128 ^ N.of_nat (S k) -> (length (base128 x) <= S k)%nat.
Proof.
  revert x. induction k as [|k IH]; intros x Hx.
  - change (128 ^ N.of_nat 1) with 128 in Hx. rewrite base128_small by done. done.
  - destruct (decide (x < 128)) as [Hs|Hb].
    + rewrite base128_small by done. simpl. lia.
    + rewrite base128_big by lia. simpl. apply le_n_S, IH.
      apply N.Div0.div_lt_upper_bound.
      rewrite (Nat2N.inj_succ (S k)), N.pow_succ_r' in Hx. done.
Qed.

Lemma uint64_of_Z_bound z : uint64_of_Z z < 2 ^ 64.
Proof.
  unfold uint64_of_Z.
  pose proof (Z.mod_pos_bound z (2 ^ 64) eq_refl) as [H0 H1].
  change (2 ^ 64) with (Z.to_N (2 ^ 64)%Z). lia.
Qed.

Lemma SizeVarint_uint64_bound z : (1 <= SizeVarint (uint64_of_Z z) <= 10)%Z.
Proof.
  rewrite SizeVarint_spec.
  pose proof (base128_length_pos (uint64_of_Z z)).
  pose proof (base128_length_bound (uint64_of_Z z) 9) as Hb.
  pose proof (uint64_of_Z_bound z).
  assert (2 ^ 64 < 128 ^ N.of_nat 10) by reflexivity. lia.
Qed.
End VarintFacts.

Section Backpatch.
Variable growslice : Z -> Z -> Z.

Lemma arr_window a n : arr (window a n) = a.
Proof. apply take_drop. Qed.

Lemma window_split vis sp : window (vis ++ sp) (Z.of_nat (length vis)) = mkSlice vis sp.
Proof.
  unfold window. rewrite Nat2Z.id. by rewrite take_app_length, drop_app_length.
Qed.

Lemma window_split' vis sp n :
  n = Z.of_nat (length vis) -> window (vis ++ sp) n = mkSlice vis sp.
Proof. intros ->. apply window_split. Qed.

Lemma reslice_split s vis sp n :
  arr s = vis ++ sp -> n = Z.of_nat (length vis) ->
  reslice s n = Some (mkSlice vis sp).
Proof.
  intros Ha ->. unfold reslice, cap. rewrite Ha, length_app, window_split.
  case_decide; [done | lia].
Qed.

Lemma copy_within_split s P X Q Y d a b :
  arr s = P ++ X ++ Q -> d = Z.of_nat (length P) -> length X = length Y ->
  (d <= len s)%Z -> (0 <= a <= b)%Z -> (b <= cap s)%Z ->
  Z.min (len s - d) (b - a) = Z.of_nat (length Y) ->
  take (length Y) (drop (Z.to_nat a) (arr s)) = Y ->
  copy_within s d a b = Some (window (P ++ Y ++ Q) (len s)).
Proof.
  intros Ha -> HX Hd Hab Hb Hmin HY. unfold copy_within.
  case_decide as Hc; [|lia]. rewrite Hmin, !Nat2Z.id, HY. do 2 f_equal.
  rewrite Ha, take_app_length. do 2 f_equal.
  rewrite drop_app_add', <- HX, drop_app_length; done.
Qed.

Lemma len_put bs o : len (buf (put growslice bs o)) = (len (buf o) + Z.of_nat (length bs))%Z.
Proof. unfold len. rewrite (proj1 (appended_put growslice bs o)), length_app. lia. Qed.

(** The last three steps of enc_len_thing, once the message is in place
    after a span that has the size of its length. *)
Lemma backpatch_length V pad body rest e n :
  length pad = length (base128 n) ->
  let o := mkBuffer (mkSlice (V ++ pad ++ body) rest) e in
  reslice (buf o) (Z.of_nat (length V))
    ≫= (λ b : slice,
          reslice (buf (EncodeVarint growslice n (set_buf o b)))
            (len (buf (EncodeVarint growslice n (set_buf o b))) + Z.of_nat (length body))
            ≫= λ b0 : slice, Some (set_buf (EncodeVarint growslice n (set_buf o b)) b0))
  = Some (mkBuffer (mkSlice (V ++ base128 n ++ body) rest) e).
Proof.
  intros Hpad o. subst o. cbn [buf].
  rewrite (reslice_split _ V (pad ++ body ++ rest))
    by (unfold arr; cbn [visible spare]; rewrite <- ?app_assoc; done).
  cbn [mbind option_bind].
  set (o1 := set_buf _ _).
  pose proof (EncodeVarint_appended growslice n o1) as [Hv Hs].
  pose proof (EncodeVarint_err growslice n o1) as He.
  subst o1. unfold set_buf in *. cbn [buf err visible spare] in *.
  rewrite <- Hpad, drop_app_length in Hs.
  specialize (Hs ltac:(rewrite length_app; lia)).
  rewrite (reslice_split _ (V ++ base128 n ++ body) rest).
  - cbn [mbind option_bind]. by rewrite He.
  - unfold arr. rewrite Hv, Hs. by rewrite <- !app_assoc.
  - unfold len. rewrite Hv, !length_app. lia.
Qed.

(** Moving the message to the place that is [L] bytes after [V]. *)
Lemma shift_message s V W body (L : nat) :
  arr s = V ++ W ->
  take (length body) (drop 4 W) = body ->
  (L + length body <= length W)%nat ->
  (Z.of_nat (length V + L + length body) <= len s)%Z ->
  (Z.of_nat (length V + 4 + length body) <= cap s)%Z ->
  copy_within s (Z.of_nat (length V) + 4 + (Z.of_nat L - 4))
                (Z.of_nat (length V) + 4)
                (Z.of_nat (length V) + 4 + Z.of_nat (length body))
  = Some (window ((V ++ take L W ++ body) ++ drop (L + length body) W) (len s)).
Proof.
  intros Ha Hbody HW Hlen Hcap.
  rewrite <- !app_assoc, (app_assoc V).
  apply (copy_within_split s (V ++ take L W) (take (length body) (drop L W))).
  - rewrite Ha, <- app_assoc. f_equal.
    rewrite <- (take_drop L W) at 1. f_equal.
    rewrite <- (take_drop (length body) (drop L W)) at 1. f_equal.
    by rewrite drop_drop.
  - rewrite length_app, length_take_le by lia. lia.
  - rewrite length_take_le; [done|]. rewrite length_drop. lia.
  - lia.
  - lia.
  - lia.
  - lia.
  - rewrite Ha. replace (Z.to_nat (Z.of_nat (length V) + 4)) with (length V + 4)%nat by lia.
    by rewrite drop_app_add'.
Qed.

Lemma message_length (V W body : list N) (L : nat) :
  (L + length body <= length W)%nat ->
  length (V ++ take L W ++ body) = (length V + L + length body)%nat.
Proof. intros. rewrite !length_app, length_take_le by lia. lia. Qed.

Lemma enc_len_thing_appends enc o o1 body :
  enc (put growslice [0; 0; 0; 0] o) = Some o1 ->
  visible (buf o1) = visible (buf o) ++ [0; 0; 0; 0] ++ body ->
  exists rest,
    enc_len_thing growslice enc o
    = Some (mkBuffer
              (mkSlice (visible (buf o)
                          ++ base128 (uint64_of_Z (Z.of_nat (length body))) ++ body) rest)
              (err o1)).
Proof.
  intros Henc Hvis. unfold enc_len_thing. cbv zeta.
  rewrite Henc. cbn [mbind option_bind].
  set (V := visible (buf o)) in *.
  set (n := uint64_of_Z (Z.of_nat (length body))).
  assert (len (buf o) = Z.of_nat (length V)) as HlenV by done.
  rewrite len_put, HlenV. cbn [length]. change (Z.of_nat 4) with 4%Z.
  assert (len (buf o1) = Z.of_nat (length V + 4 + length body)) as Hlen1.
  { unfold len. rewrite Hvis, !length_app. cbn [length]. lia. }
  replace (len (buf o1) - (Z.of_nat (length V) + 4))%Z with (Z.of_nat (length body)) by lia.
  fold n. rewrite SizeVarint_spec.
  set (L := length (base128 n)).
  assert (1 <= L <= 10)%nat as HL.
  { pose proof (SizeVarint_uint64_bound (Z.of_nat (length body))) as Hb.
    fold n in Hb. rewrite SizeVarint_spec in Hb. fold L in Hb. lia. }
  replace (Z.of_nat L - (Z.of_nat (length V) + 4 - Z.of_nat (length V)))%Z
    with (Z.of_nat L - 4)%Z by lia.
  destruct o1 as [[vis1 sp1] e1]. cbn [buf visible err] in *. subst vis1.
  cut (exists pad rest,
         length pad = L /\
         (if decide (Z.of_nat L - 4 > 0)%Z then
            zeroes_upto (Z.of_nat L - 4)
            ≫= λ z : list N,
                 copy_within
                   (buf (put growslice z
                           {| buf := {| visible := V ++ [0; 0; 0; 0] ++ body; spare := sp1 |};
                              err := e1 |}))
                   (Z.of_nat (length V) + 4 + (Z.of_nat L - 4))
                   (Z.of_nat (length V) + 4)
                   (Z.of_nat (length V) + 4 + Z.of_nat (length body))
                 ≫= λ b : slice,
                      Some (set_buf
                              (put growslice z
                                 {| buf := {| visible := V ++ [0; 0; 0; 0] ++ body;
                                              spare := sp1 |};
                                    err := e1 |}) b)
          else
            if decide (Z.of_nat L - 4 < 0)%Z then
              copy_within {| visible := V ++ [0; 0; 0; 0] ++ body; spare := sp1 |}
                (Z.of_nat (length V) + 4 + (Z.of_nat L - 4))
                (Z.of_nat (length V) + 4)
                (Z.of_nat (length V) + 4 + Z.of_nat (length body))
              ≫= λ b : slice,
                   reslice b (len b + (Z.of_nat L - 4))
                   ≫= λ b0 : slice,
                        Some (set_buf
                                {| buf := {| visible := V ++ [0; 0; 0; 0] ++ body;
                                             spare := sp1 |};
                                   err := e1 |} b0)
            else Some {| buf := {| visible := V ++ [0; 0; 0; 0] ++ body; spare := sp1 |};
                         err := e1 |})
         = Some (mkBuffer (mkSlice (V ++ pad ++ body) rest) e1)).
  { intros (pad & rest & Hpad & ->). cbn [mbind option_bind].
    exists rest. by apply (backpatch_length V pad body rest e1 n). }
  case_decide as Hx; [|case_decide as Hx'].
  - (* the length needs more than the four bytes reserved *)
    unfold zeroes_upto. case_decide; [|lia]. cbn [mbind option_bind].
    set (z := replicate _ 0).
    assert (length z = L - 4)%nat as Hz by (subst z; rewrite length_replicate; lia).
    pose proof (appended_put growslice z
                  {| buf := {| visible := V ++ [0; 0; 0; 0] ++ body; spare := sp1 |};
                     err := e1 |}) as [Hv _].
    destruct (put growslice z _) as [[vis2 sp2] e2] eqn:Hput.
    assert (e2 = e1) as -> by (by injection Hput).
    cbn [buf visible err] in *. clear Hput. subst vis2.
    set (W := ([0; 0; 0; 0] ++ body ++ z) ++ sp2).
    assert (L + length body <= length W)%nat as HW.
    { subst W. rewrite !length_app. cbn [length]. lia. }
    exists (take L W), (drop (L + length body) W). split; [apply length_take_le; lia|].
    rewrite (shift_message _ V W body L).
    + cbn [mbind option_bind]. unfold set_buf. cbn [buf err]. do 2 f_equal.
      apply window_split'. unfold len. cbn [visible].
      rewrite message_length, !length_app by done. cbn [length]. lia.
    + unfold arr, W. cbn [visible spare]. by rewrite <- !app_assoc.
    + subst W. cbn [drop app]. rewrite <- app_assoc. apply take_app_length.
    + done.
    + unfold len. cbn [visible]. rewrite !length_app. cbn [length]. lia.
    + unfold cap, arr. cbn [visible spare]. rewrite !length_app. cbn [length]. lia.
  - (* the length needs less than the four bytes reserved *)
    set (W := ([0; 0; 0; 0] ++ body) ++ sp1).
    assert (4 + length body <= length W)%nat as HW4.
    { subst W. rewrite !length_app. cbn [length]. lia. }
    assert (L + length body <= length W)%nat as HW by lia.
    exists (take L W), (drop (L + length body) W). split; [apply length_take_le; lia|].
    rewrite (shift_message _ V W body L).
    + cbn [mbind option_bind].
      rewrite (reslice_split _ (V ++ take L W ++ body) (drop (L + length body) W)).
      * done.
      * apply arr_window.
      * unfold len. cbn [window visible].
        rewrite Nat2Z.id, length_take, !length_app, length_take_le, length_drop by lia.
        cbn [length]. lia.
    + unfold arr, W. cbn [visible spare]. by rewrite <- !app_assoc.
    + subst W. cbn [drop app]. apply take_app_length.
    + done.
    + unfold len. cbn [visible]. rewrite !length_app. cbn [length]. lia.
    + unfold cap, arr. cbn [visible spare]. rewrite !length_app. cbn [length]. lia.
  - (* the length takes the four bytes reserved *)
    exists [0; 0; 0; 0], sp1. split; [cbn [length]; lia | done].
Qed.
End Backpatch.

(** One step in the analysis of a computation that has returned: the
    result of a bind, the branch of a test. *)
Ltac returned_step H :=
  lazymatch type of H with
  | Some _ = Some _ => injection H as H; try subst
  | None = Some _ => discriminate H
  | (_ ≫= _) = Some _ =>
      let E := fresh "E" in
      apply bind_Some in H as (? & E & H)
  | (let '(_, _) := ?x in _) = Some _ => destruct x eqn:?
  | (match ?x with _ => _ end) = Some _ => destruct x eqn:?; try discriminate H
  | (if ?x then _ else _) = Some _ => destruct x eqn:?; try discriminate H
  end.

(** The error of a buffer that the primitive writers have gone over. *)
Ltac simpl_err :=
  repeat first [rewrite EncodeVarint_err | progress (unfold put, set_buf; cbn [err])].

Section KeepsErr.
Variable growslice : Z -> Z -> Z.

#[local] Instance keeps_err_refl : Reflexive keeps_err.
Proof. by intros o e. Qed.
#[local] Instance keeps_err_trans : Transitive keeps_err.
Proof. intros o1 o2 o3 H12 H23 e He. by apply H23, H12. Qed.

Lemma keeps_same o o' : err o' = err o -> keeps_err o o'.
Proof. intros Heq e He. by rewrite Heq. Qed.

Lemma keeps_noteError e o : keeps_err o (noteError e o).
Proof. intros e' He. unfold noteError. by rewrite He. Qed.

Lemma err_put bs o : err (put growslice bs o) = err o.
Proof. done. Qed.
Lemma err_set_buf o b : err (set_buf o b) = err o.
Proof. done. Qed.
Lemma err_EncodeFixed64 x o : err (EncodeFixed64 growslice x o) = err o.
Proof. done. Qed.
Lemma err_EncodeFixed32 x o : err (EncodeFixed32 growslice x o) = err o.
Proof. done. Qed.
Lemma err_EncodeZigzag64 x o : err (EncodeZigzag64 growslice x o) = err o.
Proof. apply EncodeVarint_err. Qed.
Lemma err_EncodeZigzag32 x o : err (EncodeZigzag32 growslice x o) = err o.
Proof. apply EncodeVarint_err. Qed.
Lemma err_EncodeRawBytes b o : err (EncodeRawBytes growslice b o) = err o.
Proof. unfold EncodeRawBytes. rewrite err_put. apply EncodeVarint_err. Qed.
Lemma err_EncodeStringBytes b o : err (EncodeStringBytes growslice b o) = err o.
Proof. unfold EncodeStringBytes. rewrite err_put. apply EncodeVarint_err. Qed.
Lemma err_put_marshaled p d o : err (put_marshaled growslice p d o) = err o.
Proof. unfold put_marshaled. case_decide; rewrite ?err_put, ?EncodeVarint_err; done. Qed.
Lemma err_EncodeTimestamp ts o : err (EncodeTimestamp growslice ts o) = err o.
Proof. unfold EncodeTimestamp. repeat (rewrite EncodeVarint_err || rewrite err_put). done. Qed.

Lemma err_call_valEnc p x o o' :
  call_valEnc growslice p x o = Some o' -> err o' = err o.
Proof.
  unfold call_valEnc. intros H. repeat returned_step H;
    eauto using EncodeVarint_err, err_EncodeZigzag32, err_EncodeZigzag64.
Qed.

Lemma err_range_do {A} (body : A -> Buffer -> option Buffer) l :
  (forall x o o', body x o = Some o' -> err o' = err o) ->
  forall o o', range_do body l o = Some o' -> err o' = err o.
Proof.
  intros Hbody. induction l as [|x l IH]; intros o o' H; simpl in H.
  - by injection H as <-.
  - destruct (body x o) as [o1|] eqn:E; [|done].
    rewrite (IH _ _ H). eauto.
Qed.

Lemma keeps_range_do {A} (body : A -> Buffer -> option Buffer) l :
  (forall x o o', x ∈ l -> body x o = Some o' -> keeps_err o o') ->
  forall o o', range_do body l o = Some o' -> keeps_err o o'.
Proof.
  induction l as [|x l IH]; intros Hbody o o' H; simpl in H.
  - by injection H as <-.
  - destruct (body x o) as [o1|] eqn:E; [|done].
    etrans; [eapply Hbody; [left|done]|].
    eapply IH; [|done]. intros. eapply Hbody; [by right|done].
Qed.

Lemma keeps_range_until {A} (body : A -> Buffer -> option flow) l :
  (forall x o o', x ∈ l -> body x o = Some (Next o') \/ body x o = Some (Return o') ->
                  keeps_err o o') ->
  forall o o', range_until body l o = Some o' -> keeps_err o o'.
Proof.
  induction l as [|x l IH]; intros Hbody o o' H; simpl in H.
  - by injection H as <-.
  - destruct (body x o) as [[o1|o1]|] eqn:E; [| |done].
    + etrans; [eapply Hbody; [left|by left]|].
      eapply IH; [|done]. intros. eapply Hbody; [by right|done].
    + injection H as <-. eapply Hbody; [left|by right].
Qed.

Lemma err_enc_Duration p d o o' : enc_Duration growslice p d o = Some o' -> err o' = err o.
Proof.
  unfold enc_Duration. intros H. repeat returned_step H.
  rewrite err_set_buf. repeat case_decide; simpl_err; done.
Qed.

Lemma keeps_enc_len_thing enc o o' :
  (forall o1 o2, enc o1 = Some o2 -> keeps_err o1 o2) ->
  enc_len_thing growslice enc o = Some o' -> keeps_err o o'.
Proof.
  intros Henc H. unfold enc_len_thing in H. cbv zeta in H.
  apply bind_Some in H as (o1 & E1 & H).
  apply Henc in E1.
  apply bind_Some in H as (o2 & E2 & H).
  apply bind_Some in H as (b1 & E3 & H).
  apply bind_Some in H as (b2 & E4 & H). injection H as <-.
  assert (err o2 = err o1) as Ho2.
  { repeat case_decide; repeat returned_step E2; done. }
  intros e He. simpl_err. rewrite Ho2. by apply E1.
Qed.

Lemma keeps_encode_appender p ptr must o r :
  encode_appender growslice p ptr must o = Some r -> keeps_err o r.1.
Proof.
  unfold encode_appender. cbv zeta. intros H.
  set (o1 := if decide (pWireType p = WireBytes) then _ else _) in H.
  assert (err o1 = err o) as Hpre by (subst o1; case_decide; reflexivity).
  clearbody o1.
  apply bind_Some in H as ([b e] & E & H).
  destruct e as [e|].
  { injection H as <-. cbn [fst]. etrans; [|apply keeps_noteError].
    by apply keeps_same. }
  destruct (decide (len b < len (buf o1))%Z).
  { apply bind_Some in H as (e' & E' & H). injection H as <-. cbn [fst].
    etrans; [|apply keeps_noteError]. by apply keeps_same. }
  apply keeps_same.
  repeat returned_step H; cbn [fst]; simpl_err; done.
Qed.
End KeepsErr.

Section Appender.
Variable growslice : Z -> Z -> Z.

(** A varint written in a span of its size, over what was there. *)
Lemma varint_in_span V pad rest e n :
  length pad = length (base128 n) ->
  EncodeVarint growslice n (mkBuffer (mkSlice V (pad ++ rest)) e)
  = mkBuffer (mkSlice (V ++ base128 n) rest) e.
Proof.
  intros Hpad.
  pose proof (EncodeVarint_appended growslice n (mkBuffer (mkSlice V (pad ++ rest)) e))
    as [Hv Hs].
  pose proof (EncodeVarint_err growslice n (mkBuffer (mkSlice V (pad ++ rest)) e)) as He.
  destruct (EncodeVarint _ _ _) as [[vis sp] e']. cbn [buf visible spare err] in *.
  rewrite <- Hpad, drop_app_length in Hs.
  rewrite Hs by (rewrite length_app; lia). by subst.
Qed.

Lemma uint64_of_nat (k : nat) :
  (Z.of_nat k < 2 ^ 64)%Z -> uint64_of_Z (Z.of_nat k) = N.of_nat k.
Proof. intros Hk. unfold uint64_of_Z. rewrite Z.mod_small by lia. lia. Qed.

(** What encode_appender leaves, for an AppendProtobuf3 that returns no
    error and the bytes it was given, then [body]. *)
Lemma encode_appender_appends p ptr must o a b body t :
  ptr = VAppender a -> stype p = Some t ->
  let o1 := if decide (pWireType p = WireBytes)
            then put growslice [0] (put growslice (tagcode p) o)
            else put growslice (tagcode p) o in
  a (buf o1) = (b, None) ->
  visible b = visible (buf o1) ++ body ->
  exists o',
    encode_appender growslice p ptr must o = Some (o', None) /\
    err o' = err o /\
    visible (buf o') =
      if negb must && bool_decide (body = []) then visible (buf o)
      else if decide (pWireType p = WireBytes)
           then visible (buf o) ++ tagcode p
                  ++ base128 (uint64_of_Z (Z.of_nat (length body))) ++ body
           else visible (buf o) ++ tagcode p ++ body.
Proof.
  intros -> Ht o1 Ha Hb. unfold encode_appender. cbv zeta.
  subst o1. set (o1 := if decide (pWireType p = WireBytes) then _ else _) in *.
  unfold call_AppendProtobuf3. rewrite Ht. cbn [mbind option_bind]. rewrite Ha.
  assert (err o1 = err o) as Herr by (subst o1; case_decide; reflexivity).
  assert (visible (buf o1) = visible (buf o) ++ tagcode p
            ++ (if decide (pWireType p = WireBytes) then [0] else [])) as Hv1.
  { subst o1. case_decide.
    - rewrite !(proj1 (appended_put _ _ _)). by rewrite <- app_assoc.
    - rewrite !(proj1 (appended_put _ _ _)). by rewrite app_nil_r. }
  assert (len b = len (buf o1) + Z.of_nat (length body))%Z as Hlen.
  { unfold len. rewrite Hb, length_app. lia. }
  clearbody o1.
  destruct (decide (len b < len (buf o1))%Z) as [|Hge]; [lia|].
  change (buf (set_buf o1 b)) with b.
  destruct (negb must && bool_decide (len b = len (buf o1))) eqn:Hskip.
  - (* nothing was appended and nothing has to be encoded *)
    apply andb_prop in Hskip as [Hm Hz]. apply bool_decide_eq_true in Hz.
    assert (body = []) as -> by (apply length_zero_iff_nil; lia).
    rewrite (reslice_split b (visible (buf o)) (drop (length (visible (buf o))) (arr b))).
    + cbn [mbind option_bind]. eexists. split; [done|]. split; [done|].
      rewrite Hm, bool_decide_eq_true_2 by done. done.
    + unfold arr at 1. rewrite Hb, Hv1, app_nil_r.
      unfold arr. rewrite Hb, Hv1, app_nil_r, <- !app_assoc.
      by rewrite drop_app_length.
    + done.
  - assert (negb must && bool_decide (body = []) = false) as ->.
    { apply andb_false_iff in Hskip as [->|Hz]; [done|].
      apply andb_false_iff. right. apply bool_decide_eq_false in Hz.
      apply bool_decide_eq_false. intros ->. apply Hz. rewrite Hlen. simpl. lia. }
    destruct (decide (pWireType p = WireBytes)) as [Hw|Hw].
    + replace (len b - len (buf o1))%Z with (Z.of_nat (length body)) by lia.
      set (n := uint64_of_Z (Z.of_nat (length body))).
      set (Vt := visible (buf o) ++ tagcode p).
      assert (visible (buf o1) = Vt ++ [0]) as Hv1' by (by rewrite Hv1, app_assoc).
      assert (len (buf o1) = Z.of_nat (length Vt) + 1)%Z as Hlen1.
      { unfold len. rewrite Hv1', length_app. simpl. lia. }
      destruct b as [visb spb]. cbn [visible] in Hb. subst visb. rewrite Hv1' in *.
      set (bb := {| visible := _; spare := spb |}) in *.
      destruct (decide (n < 128)) as [Hn|Hn].
      * (* the length fits the byte reserved *)
        unfold store. rewrite Hlen1.
        destruct (decide (0 <= Z.of_nat (length Vt) + 1 - 1 < len bb)%Z)
          as [Hi|Hi]; [|exfalso; apply Hi; unfold len, bb; cbn [visible];
                         rewrite !length_app; simpl; lia].
        subst bb.
        cbn [mbind option_bind]. eexists. split; [done|]. split; [done|].
        unfold set_buf. cbn [buf visible].
        replace (Z.to_nat (Z.of_nat (length Vt) + 1 - 1)) with (length Vt + 0)%nat by lia.
        rewrite <- !app_assoc. rewrite insert_app_r. cbn [insert list_insert app].
        rewrite (base128_small n) by done. unfold uint8.
        rewrite N.mod_small by (change (2 ^ 8) with 256; lia).
        subst Vt. by rewrite <- app_assoc.
      * (* the length needs more than the byte reserved *)
        rewrite SizeVarint_spec. set (L := length (base128 n)).
        assert (1 <= L <= 10)%nat as HL.
        { pose proof (SizeVarint_uint64_bound (Z.of_nat (length body))) as Hbd.
          fold n in Hbd. rewrite SizeVarint_spec in Hbd. fold L in Hbd. lia. }
        assert (128 <= length body)%nat as Hbody.
        { destruct (decide (128 <= length body)%nat); [done|]. exfalso. apply Hn.
          subst n. rewrite uint64_of_nat by lia. lia. }
        set (W := ([0] ++ body) ++ spb).
        assert (arr bb = Vt ++ W) as Harr.
        { unfold arr, W, bb. cbn [visible spare]. by rewrite <- !app_assoc. }
        assert (L <= length W)%nat as HW.
        { subst W. rewrite !length_app. simpl. lia. }
        rewrite (reslice_split _ (Vt ++ take L W) (drop L W)).
        2:{ rewrite Harr, <- app_assoc. by rewrite take_drop. }
        2:{ rewrite length_app, length_take_le by done. lia. }
        cbn [mbind option_bind]. unfold bytes_from. rewrite Hlen1.
        destruct (decide (0 <= Z.of_nat (length Vt) + 1 <= len bb)%Z)
          as [Hc|Hc]; [|exfalso; apply Hc; unfold len, bb; cbn [visible];
                         rewrite !length_app; simpl; lia].
        subst bb.
        cbn [mbind option_bind visible].
        replace (Z.to_nat (Z.of_nat (length Vt) + 1)) with (length (Vt ++ [0]))
          by (rewrite length_app; simpl; lia).
        rewrite drop_app_length.
        pose proof (appended_append growslice
                      {| visible := Vt ++ take L W; spare := drop L W |} body) as [Hva _].
        destruct (append growslice _ body) as [visa spa]. cbn [visible] in Hva. subst visa.
        unfold set_buf. cbn [buf err].
        rewrite (reslice_split _ Vt (take L W ++ body ++ spa)).
        2:{ unfold arr. cbn [visible spare]. by rewrite <- !app_assoc. }
        2:{ lia. }
        cbn [mbind option_bind].
        rewrite (varint_in_span Vt (take L W) (body ++ spa))
          by (rewrite length_take_le; done).
        cbn [buf err].
        rewrite (reslice_split _ ((Vt ++ base128 n) ++ body) spa).
        2:{ unfold arr. cbn [visible spare]. by rewrite <- !app_assoc. }
        2:{ unfold len. cbn [visible]. rewrite !length_app, length_take_le by done.
            fold L. lia. }
        cbn [mbind option_bind]. eexists. split; [done|]. split; [done|].
        cbn [buf visible]. subst Vt. by rewrite <- !app_assoc.
    + eexists. split; [done|]. split; [done|]. unfold set_buf. cbn [buf].
      rewrite Hb, Hv1. destruct (decide (pWireType p = WireBytes)); [done|].
      by rewrite app_nil_r, <- app_assoc.
Qed.
End Appender.

Section KeepsErrEncoders.
Variable growslice : Z -> Z -> Z.

#[local] Existing Instance keeps_err_refl.
#[local] Existing Instance keeps_err_trans.

(** What is known of the buffers a finished computation went through. *)
Ltac err_facts :=
  repeat match goal with
  | H : call_valEnc _ _ _ _ = Some _ |- _ => apply err_call_valEnc in H
  | H : enc_Duration _ _ _ _ = Some _ |- _ => apply err_enc_Duration in H
  | H : encode_appender _ _ _ _ _ = Some _ |- _ => apply keeps_encode_appender in H
  end.

Ltac keeps_leaf H :=
  repeat returned_step H; err_facts;
  first [ done
        | reflexivity
        | apply keeps_noteError
        | apply keeps_same; simpl_err;
          rewrite ?err_EncodeStringBytes, ?err_EncodeRawBytes, ?err_put_marshaled,
            ?err_EncodeTimestamp; simpl_err; (done || congruence) ].

Lemma keeps_enc_ptr_bool p fld o o' :
  enc_ptr_bool growslice p fld o = Some o' -> keeps_err o o'.
Proof. unfold enc_ptr_bool. intros H. keeps_leaf H. Qed.

Lemma keeps_enc_bool p fld o o' :
  enc_bool growslice p fld o = Some o' -> keeps_err o o'.
Proof. unfold enc_bool. intros H. keeps_leaf H. Qed.

Lemma keeps_enc_ptr_integer p fld o o' :
  enc_ptr_integer growslice p fld o = Some o' -> keeps_err o o'.
Proof. unfold enc_ptr_integer. intros H. keeps_leaf H. Qed.

Lemma keeps_enc_integer p fld o o' :
  enc_integer growslice p fld o = Some o' -> keeps_err o o'.
Proof. unfold enc_integer. intros H. keeps_leaf H. Qed.

Lemma keeps_enc_ptr_int64 p fld o o' :
  enc_ptr_int64 growslice p fld o = Some o' -> keeps_err o o'.
Proof. unfold enc_ptr_int64. intros H. keeps_leaf H. Qed.

Lemma keeps_enc_int64 p fld o o' :
  enc_int64 growslice p fld o = Some o' -> keeps_err o o'.
Proof. unfold enc_int64. cbv zeta. intros H. keeps_leaf H. Qed.

Lemma keeps_enc_ptr_string p fld o o' :
  enc_ptr_string growslice p fld o = Some o' -> keeps_err o o'.
Proof. unfold enc_ptr_string. intros H. keeps_leaf H. Qed.

Lemma keeps_enc_string p fld o o' :
  enc_string growslice p fld o = Some o' -> keeps_err o o'.
Proof. unfold enc_string. intros H. keeps_leaf H. Qed.

Lemma keeps_enc_marshaler p fld o o' :
  enc_marshaler growslice p fld o = Some o' -> keeps_err o o'.
Proof. unfold enc_marshaler. cbv zeta. intros H. keeps_leaf H. Qed.

Lemma keeps_enc_ptr_marshaler p fld o o' :
  enc_ptr_marshaler growslice p fld o = Some o' -> keeps_err o o'.
Proof. unfold enc_ptr_marshaler. intros H. keeps_leaf H. Qed.

Lemma keeps_enc_appender p fld o o' :
  enc_appender growslice p fld o = Some o' -> keeps_err o o'.
Proof. unfold enc_appender. cbv zeta. intros H. keeps_leaf H. Qed.

Lemma keeps_enc_ptr_appender p fld o o' :
  enc_ptr_appender growslice p fld o = Some o' -> keeps_err o o'.
Proof. unfold enc_ptr_appender. intros H. keeps_leaf H. Qed.

Lemma err_range_valEnc {A} p (f : A -> N) s o o' :
  range_do (fun x o => call_valEnc growslice p (f x) o) s o = Some o' -> err o' = err o.
Proof. apply err_range_do. intros x o1 o2. apply err_call_valEnc. Qed.

Lemma keeps_enc_slice_packed_bool p fld o o' :
  enc_slice_packed_bool growslice p fld o = Some o' -> keeps_err o o'.
Proof.
  unfold enc_slice_packed_bool. cbv zeta. intros H. repeat returned_step H; [done|].
  apply err_range_valEnc in H. apply keeps_same. rewrite H. by simpl_err.
Qed.

Lemma keeps_enc_array_packed_bool p fld o o' :
  enc_array_packed_bool growslice p fld o = Some o' -> keeps_err o o'.
Proof.
  unfold enc_array_packed_bool. cbv zeta. intros H. repeat returned_step H.
  apply err_range_valEnc in H. apply keeps_same. rewrite H. by simpl_err.
Qed.

Lemma keeps_enc_slice_byte p fld o o' :
  enc_slice_byte growslice p fld o = Some o' -> keeps_err o o'.
Proof. unfold enc_slice_byte. intros H. keeps_leaf H. Qed.

Lemma keeps_enc_array_byte p fld o o' :
  enc_array_byte growslice p fld o = Some o' -> keeps_err o o'.
Proof. unfold enc_array_byte. cbv zeta. intros H. keeps_leaf H. Qed.

Lemma err_put_packed p s o o' : put_packed growslice p s o = Some o' -> err o' = err o.
Proof.
  unfold put_packed. cbv zeta. intros H. repeat returned_step H. by simpl_err.
Qed.

Lemma keeps_enc_slice_packed p fld o o' :
  enc_slice_packed growslice p fld o = Some o' -> keeps_err o o'.
Proof.
  unfold enc_slice_packed. intros H. repeat returned_step H; [done|].
  apply keeps_same. by eapply err_put_packed.
Qed.

Lemma keeps_enc_array_packed p fld o o' :
  enc_array_packed growslice p fld o = Some o' -> keeps_err o o'.
Proof.
  unfold enc_array_packed. cbv zeta. intros H. repeat returned_step H.
  apply keeps_same. by eapply err_put_packed.
Qed.

Lemma keeps_enc_slice_slice_byte p fld o o' :
  enc_slice_slice_byte growslice p fld o = Some o' -> keeps_err o o'.
Proof.
  unfold enc_slice_slice_byte. intros H. repeat returned_step H.
  apply keeps_same. revert H. apply err_range_do.
  intros ? ? ? [= <-]. by rewrite err_EncodeRawBytes.
Qed.

Lemma keeps_enc_slice_string p fld o o' :
  enc_slice_string growslice p fld o = Some o' -> keeps_err o o'.
Proof.
  unfold enc_slice_string. intros H. repeat returned_step H.
  apply keeps_same. revert H. apply err_range_do.
  intros ? ? ? [= <-]. by rewrite err_EncodeStringBytes.
Qed.

Lemma keeps_enc_array_string p fld o o' :
  enc_array_string growslice p fld o = Some o' -> keeps_err o o'.
Proof.
  unfold enc_array_string. cbv zeta. intros H. repeat returned_step H.
  apply keeps_same. revert H. apply err_range_do.
  intros ? ? ? [= <-]. by rewrite err_EncodeStringBytes.
Qed.

Lemma keeps_enc_time_Time p fld o o' :
  enc_time_Time growslice p fld o = Some o' -> keeps_err o o'.
Proof. unfold enc_time_Time. intros H. keeps_leaf H. Qed.

Lemma keeps_enc_time_Duration p fld o o' :
  enc_time_Duration growslice p fld o = Some o' -> keeps_err o o'.
Proof. unfold enc_time_Duration. intros H. keeps_leaf H. Qed.

Lemma keeps_enc_ptr_time_Duration p fld o o' :
  enc_ptr_time_Duration growslice p fld o = Some o' -> keeps_err o o'.
Proof. unfold enc_ptr_time_Duration. intros H. keeps_leaf H. Qed.

Lemma keeps_enc_slice_time_Duration p fld o o' :
  enc_slice_time_Duration growslice p fld o = Some o' -> keeps_err o o'.
Proof.
  unfold enc_slice_time_Duration. intros H. repeat returned_step H.
  apply keeps_same. revert H. apply err_range_do.
  intros ? ? ?. apply err_enc_Duration.
Qed.

Lemma keeps_enc_array_time_Duration p fld o o' :
  enc_array_time_Duration growslice p fld o = Some o' -> keeps_err o o'.
Proof.
  unfold enc_array_time_Duration. cbv zeta. intros H. repeat returned_step H.
  apply keeps_same. revert H. apply err_range_do.
  intros ? ? ?. apply err_enc_Duration.
Qed.

Lemma keeps_marshal_step p structp o r :
  ('(data, e) ← call_MarshalProtobuf3 p structp;
   match e with
   | Some e => Some (Return (noteError e o))
   | None => Some (Next (put_marshaled growslice p (data_bytes data) o))
   end) = Some r ->
  keeps_err o (match r with Next o' => o' | Return o' => o' end).
Proof.
  intros H. repeat returned_step H.
  - apply keeps_noteError.
  - apply keeps_same, err_put_marshaled.
Qed.

Lemma keeps_appender_step p structp o r :
  (r ← encode_appender growslice p structp true o;
   match r.2 with
   | Some _ => Some (Return r.1)
   | None => Some (Next r.1)
   end) = Some r ->
  keeps_err o (match r with Next o' => o' | Return o' => o' end).
Proof.
  intros H. repeat returned_step H; by eapply keeps_encode_appender.
Qed.

Lemma keeps_enc_slice_marshaler p fld o o' :
  enc_slice_marshaler growslice p fld o = Some o' -> keeps_err o o'.
Proof.
  unfold enc_slice_marshaler. cbv zeta. intros H. repeat returned_step H; [done|].
  revert H. apply keeps_range_until. intros ? ? ? _ [H|H];
    by apply keeps_marshal_step in H.
Qed.

Lemma keeps_enc_slice_appender p fld o o' :
  enc_slice_appender growslice p fld o = Some o' -> keeps_err o o'.
Proof.
  unfold enc_slice_appender. cbv zeta. intros H. repeat returned_step H; [done|].
  revert H. apply keeps_range_do. intros ? ? ? _ H.
  repeat returned_step H. by eapply keeps_encode_appender.
Qed.

(** *** Nested messages, for an encoder of structs that keeps the error *)

Section Nested.
Variable enc_struct : option tid -> value -> Buffer -> option Buffer.
Variable n : nat.
Hypothesis enc_struct_keeps : forall prop s o o',
  (vsize s < n)%nat -> enc_struct prop s o = Some o' -> keeps_err o o'.

Lemma keeps_enc_len_struct prop s o o' :
  (vsize s < n)%nat ->
  enc_len_struct growslice enc_struct prop s o = Some o' -> keeps_err o o'.
Proof.
  intros Hs. unfold enc_len_struct. apply keeps_enc_len_thing.
  intros o1 o2. by apply enc_struct_keeps.
Qed.

Lemma keeps_enc_struct_message p fld o o' :
  (vsize fld < n)%nat ->
  enc_struct_message growslice enc_struct p fld o = Some o' -> keeps_err o o'.
Proof.
  intros Hs. unfold enc_struct_message. cbv zeta. intros H.
  apply bind_Some in H as (o1 & E & H). apply keeps_enc_len_struct in E; [|done].
  trans o1; [exact E|].
  apply keeps_same. repeat returned_step H; by simpl_err.
Qed.

Lemma keeps_enc_ptr_struct_message p fld o o' :
  (vsize fld < n)%nat ->
  enc_ptr_struct_message growslice enc_struct p fld o = Some o' -> keeps_err o o'.
Proof.
  intros Hs. unfold enc_ptr_struct_message. intros H.
  repeat returned_step H; [|done].
  apply keeps_enc_len_struct in H; [done|]. cbn [vsize] in Hs. lia.
Qed.

Lemma keeps_enc_ptr_struct_messages p s o o' :
  (S (sum_list_with vsize s) < n)%nat ->
  enc_ptr_struct_messages growslice enc_struct p s o = Some o' -> keeps_err o o'.
Proof.
  intros Hs. unfold enc_ptr_struct_messages. intros H.
  repeat returned_step H; revert H; apply keeps_range_until;
    intros elt o1 o2 Hx [H|H].
  all: pose proof (sum_list_with_in _ vsize _ Hx) as Hsz.
  all: destruct elt as [| | | | |[structp|]| | | | | |]; try discriminate H.
  all: try (injection H as <-; apply keeps_noteError).
  all: try (by apply keeps_appender_step in H).
  all: try (by apply keeps_marshal_step in H).
  all: repeat returned_step H; try discriminate.
  all: match goal with
       | HE : enc_len_struct _ _ _ _ _ = Some _ |- _ =>
           apply keeps_enc_len_struct in HE; [done | cbn [vsize] in Hsz; lia]
       end.
Qed.

Lemma keeps_enc_slice_ptr_struct_message p fld o o' :
  (vsize fld < n)%nat ->
  enc_slice_ptr_struct_message growslice enc_struct p fld o = Some o' -> keeps_err o o'.
Proof.
  intros Hs. unfold enc_slice_ptr_struct_message. intros H.
  repeat returned_step H. eapply keeps_enc_ptr_struct_messages; [|done]. done.
Qed.

Lemma keeps_enc_array_ptr_struct_message p fld o o' :
  (vsize fld < n)%nat ->
  enc_array_ptr_struct_message growslice enc_struct p fld o = Some o' -> keeps_err o o'.
Proof.
  intros Hs. unfold enc_array_ptr_struct_message. cbv zeta. intros H.
  repeat returned_step H. eapply keeps_enc_ptr_struct_messages; [|done]. done.
Qed.

Lemma keeps_enc_struct_messages p s o o' :
  (S (sum_list_with vsize s) < n)%nat ->
  enc_struct_messages growslice enc_struct p s o = Some o' -> keeps_err o o'.
Proof.
  intros Hs. unfold enc_struct_messages. cbv zeta. intros H.
  repeat returned_step H; try done; revert H; apply keeps_range_until;
    intros elt o1 o2 Hx [H|H].
  all: pose proof (sum_list_with_in _ vsize _ Hx) as Hsz.
  all: try (by apply keeps_appender_step in H).
  all: try (by apply keeps_marshal_step in H).
  all: repeat returned_step H; try discriminate.
  all: match goal with
       | HE : enc_len_struct _ _ _ _ _ = Some _ |- _ =>
           apply keeps_enc_len_struct in HE; [done | lia]
       end.
Qed.

Lemma keeps_enc_slice_struct_message p fld o o' :
  (vsize fld < n)%nat ->
  enc_slice_struct_message growslice enc_struct p fld o = Some o' -> keeps_err o o'.
Proof.
  intros Hs. unfold enc_slice_struct_message. intros H.
  repeat returned_step H; [done|]. eapply keeps_enc_struct_messages; [|done]. done.
Qed.

Lemma keeps_enc_array_messages p fld o o' :
  (vsize fld < n)%nat ->
  enc_array_messages growslice enc_struct p fld o = Some o' -> keeps_err o o'.
Proof.
  intros Hs. unfold enc_array_messages. intros H.
  repeat returned_step H. eapply keeps_enc_struct_messages; [|done]. done.
Qed.

Lemma keeps_enc_new_map call_entry p fld o o' :
  (forall q c o o', (vsize c < vsize fld)%nat ->
                    call_entry q c o = Some o' -> keeps_err o o') ->
  enc_new_map growslice call_entry p fld o = Some o' -> keeps_err o o'.
Proof.
  intros Hentry. unfold enc_new_map. intros H.
  repeat returned_step H; [done|]. revert H. apply keeps_range_do.
  intros [k v] o1 o2 Hkv H. cbv zeta in H.
  pose proof (sum_list_with_in _ (fun kv => vsize kv.1 + vsize kv.2)%nat _ Hkv) as Hsz.
  cbn [fst snd vsize] in *.
  apply keeps_enc_len_thing in H; [done|].
  intros o3 o4 H4. repeat returned_step H4.
  etrans; (eapply Hentry; [|done]); lia.
Qed.

Lemma keeps_call_enc_with call_entry p fld o o' :
  (vsize fld < n)%nat ->
  (forall q c o o', (vsize c < vsize fld)%nat ->
                    call_entry q c o = Some o' -> keeps_err o o') ->
  call_enc_with growslice enc_struct call_entry p fld o = Some o' -> keeps_err o o'.
Proof.
  intros Hs Hentry. unfold call_enc_with.
  destruct (enc p) as [f|]; [|done].
  destruct f; intros H;
    first
      [ exact (keeps_enc_ptr_bool _ _ _ _ H)
      | exact (keeps_enc_bool _ _ _ _ H)
      | exact (keeps_enc_ptr_integer _ _ _ _ H)
      | exact (keeps_enc_integer _ _ _ _ H)
      | exact (keeps_enc_ptr_int64 _ _ _ _ H)
      | exact (keeps_enc_int64 _ _ _ _ H)
      | exact (keeps_enc_ptr_string _ _ _ _ H)
      | exact (keeps_enc_string _ _ _ _ H)
      | exact (keeps_enc_marshaler _ _ _ _ H)
      | exact (keeps_enc_appender _ _ _ _ H)
      | exact (keeps_enc_ptr_marshaler _ _ _ _ H)
      | exact (keeps_enc_ptr_appender _ _ _ _ H)
      | exact (keeps_enc_slice_packed_bool _ _ _ _ H)
      | exact (keeps_enc_array_packed_bool _ _ _ _ H)
      | exact (keeps_enc_slice_byte _ _ _ _ H)
      | exact (keeps_enc_array_byte _ _ _ _ H)
      | exact (keeps_enc_slice_packed _ _ _ _ H)
      | exact (keeps_enc_array_packed _ _ _ _ H)
      | exact (keeps_enc_slice_slice_byte _ _ _ _ H)
      | exact (keeps_enc_slice_string _ _ _ _ H)
      | exact (keeps_enc_array_string _ _ _ _ H)
      | exact (keeps_enc_slice_marshaler _ _ _ _ H)
      | exact (keeps_enc_slice_appender _ _ _ _ H)
      | exact (keeps_enc_time_Time _ _ _ _ H)
      | exact (keeps_enc_time_Duration _ _ _ _ H)
      | exact (keeps_enc_ptr_time_Duration _ _ _ _ H)
      | exact (keeps_enc_slice_time_Duration _ _ _ _ H)
      | exact (keeps_enc_array_time_Duration _ _ _ _ H)
      | exact (keeps_enc_struct_message _ _ _ _ Hs H)
      | exact (keeps_enc_ptr_struct_message _ _ _ _ Hs H)
      | exact (keeps_enc_slice_ptr_struct_message _ _ _ _ Hs H)
      | exact (keeps_enc_array_ptr_struct_message _ _ _ _ Hs H)
      | exact (keeps_enc_slice_struct_message _ _ _ _ Hs H)
      | exact (keeps_enc_array_messages _ _ _ _ Hs H)
      | exact (keeps_enc_new_map _ _ _ _ _ Hentry H)
      | (injection H as <-; reflexivity) ].
Qed.

Lemma keeps_call_enc_entry q c o o' :
  (vsize c < n)%nat ->
  call_enc_entry growslice enc_struct q c o = Some o' -> keeps_err o o'.
Proof.
  intros Hs. unfold call_enc_entry. case_decide; [|done].
  apply keeps_call_enc_with; [done|]. done.
Qed.

Lemma with_field_lookup {A} (k : value -> option A) base off :
  with_field k base off = base !! off ≫= k.
Proof.
  revert off. induction base as [|v base IH]; intros [|off]; simpl; done.
Qed.

Lemma keeps_call_enc p base o o' :
  (vsize (VStruct base) <= n)%nat ->
  call_enc growslice enc_struct p base o = Some o' -> keeps_err o o'.
Proof.
  intros Hs. unfold call_enc. rewrite with_field_lookup. intros H.
  apply bind_Some in H as (fld & Hfld & H).
  apply list_elem_of_lookup_2 in Hfld.
  pose proof (sum_list_with_in _ vsize _ Hfld) as Hsz. cbn [vsize] in Hs.
  revert H. apply keeps_call_enc_with; [lia|].
  intros q c o1 o2 Hc. apply keeps_call_enc_entry. lia.
Qed.
End Nested.

Variable schemas : gmap tid StructProperties.

Lemma enc_struct_unfold prop base o :
  enc_struct growslice schemas prop (VStruct base) o
  = sp ← prop ≫= (schemas !!.);
    range_do (fun p o => call_enc growslice (enc_struct growslice schemas) p base o)
      (props sp) o.
Proof. done. Qed.

Lemma keeps_enc_struct prop structp o o' :
  enc_struct growslice schemas prop structp o = Some o' -> keeps_err o o'.
Proof.
  remember (S (vsize structp)) as n eqn:Hn.
  assert (vsize structp < n)%nat as Hlt by lia. clear Hn.
  revert prop structp o o' Hlt. induction n as [|n IH]; intros prop structp o o' Hlt; [lia|].
  destruct structp; try done. rewrite enc_struct_unfold. intros H.
  apply bind_Some in H as (sp & _ & H). revert H. apply keeps_range_do.
  intros p o1 o2 _. apply (keeps_call_enc _ n); [|lia].
  intros prop' s o3 o4 Hs. by apply IH.
Qed.
End KeepsErrEncoders.

Section Extends.
Variable growslice : Z -> Z -> Z.

#[local] Instance extends_refl : Reflexive extends.
Proof. intros o. exists []. by rewrite app_nil_r. Qed.
#[local] Instance extends_trans : Transitive extends.
Proof.
  intros o1 o2 o3 [b1 H1] [b2 H2]. exists (b1 ++ b2). by rewrite H2, H1, app_assoc.
Qed.

Lemma extends_same o o' : visible (buf o') = visible (buf o) -> extends o o'.
Proof. intros H. exists []. by rewrite app_nil_r. Qed.

Lemma extends_put bs o : extends o (put growslice bs o).
Proof. exists bs. apply appended_put. Qed.

Lemma extends_EncodeVarint x o : extends o (EncodeVarint growslice x o).
Proof. exists (base128 x). apply EncodeVarint_appended. Qed.

Lemma extends_noteError e o : extends o (noteError e o).
Proof. apply extends_same. unfold noteError. by destruct (err o). Qed.

Lemma extends_EncodeFixed64 x o : extends o (EncodeFixed64 growslice x o).
Proof. apply extends_put. Qed.
Lemma extends_EncodeFixed32 x o : extends o (EncodeFixed32 growslice x o).
Proof. apply extends_put. Qed.
Lemma extends_EncodeZigzag64 x o : extends o (EncodeZigzag64 growslice x o).
Proof. apply extends_EncodeVarint. Qed.
Lemma extends_EncodeZigzag32 x o : extends o (EncodeZigzag32 growslice x o).
Proof. apply extends_EncodeVarint. Qed.
Lemma extends_EncodeRawBytes b o : extends o (EncodeRawBytes growslice b o).
Proof. unfold EncodeRawBytes. etrans; [apply extends_EncodeVarint|apply extends_put]. Qed.
Lemma extends_EncodeStringBytes b o : extends o (EncodeStringBytes growslice b o).
Proof. unfold EncodeStringBytes. etrans; [apply extends_EncodeVarint|apply extends_put]. Qed.
Lemma extends_put_marshaled p d o : extends o (put_marshaled growslice p d o).
Proof.
  unfold put_marshaled. cbv zeta. etrans; [apply (extends_put (tagcode p))|].
  etrans; [|apply extends_put]. case_decide; [apply extends_EncodeVarint|done].
Qed.
Lemma extends_EncodeTimestamp ts o : extends o (EncodeTimestamp growslice ts o).
Proof.
  unfold EncodeTimestamp. cbv zeta.
  repeat (etrans; [|first [apply extends_EncodeVarint | apply extends_put]]). done.
Qed.

Lemma extends_noteError' e o o1 : extends o o1 -> extends o (noteError e o1).
Proof. intros H. etrans; [exact H|apply extends_noteError]. Qed.
Lemma extends_put' bs o o1 : extends o o1 -> extends o (put growslice bs o1).
Proof. intros H. etrans; [exact H|apply extends_put]. Qed.
Lemma extends_EncodeVarint' x o o1 : extends o o1 -> extends o (EncodeVarint growslice x o1).
Proof. intros H. etrans; [exact H|apply extends_EncodeVarint]. Qed.
Lemma extends_EncodeRawBytes' b o o1 :
  extends o o1 -> extends o (EncodeRawBytes growslice b o1).
Proof. intros H. etrans; [exact H|apply extends_EncodeRawBytes]. Qed.
Lemma extends_EncodeStringBytes' b o o1 :
  extends o o1 -> extends o (EncodeStringBytes growslice b o1).
Proof. intros H. etrans; [exact H|apply extends_EncodeStringBytes]. Qed.
Lemma extends_put_marshaled' p d o o1 :
  extends o o1 -> extends o (put_marshaled growslice p d o1).
Proof. intros H. etrans; [exact H|apply extends_put_marshaled]. Qed.
Lemma extends_EncodeTimestamp' ts o o1 :
  extends o o1 -> extends o (EncodeTimestamp growslice ts o1).
Proof. intros H. etrans; [exact H|apply extends_EncodeTimestamp]. Qed.

Lemma extends_call_valEnc p x o o' :
  call_valEnc growslice p x o = Some o' -> extends o o'.
Proof.
  unfold call_valEnc. intros H. repeat returned_step H;
    eauto using extends_EncodeVarint, extends_EncodeZigzag32, extends_EncodeZigzag64,
      extends_EncodeFixed32, extends_EncodeFixed64.
Qed.

Lemma extends_range_do {A} (body : A -> Buffer -> option Buffer) l :
  (forall x o o', x ∈ l -> body x o = Some o' -> extends o o') ->
  forall o o', range_do body l o = Some o' -> extends o o'.
Proof.
  induction l as [|x l IH]; intros Hbody o o' H; simpl in H.
  - by injection H as <-.
  - destruct (body x o) as [o1|] eqn:E; [|done].
    etrans; [eapply Hbody; [left|done]|].
    eapply IH; [|done]. intros. eapply Hbody; [by right|done].
Qed.

Lemma extends_range_until {A} (body : A -> Buffer -> option flow) l :
  (forall x o o', x ∈ l -> body x o = Some (Next o') \/ body x o = Some (Return o') ->
                  extends o o') ->
  forall o o', range_until body l o = Some o' -> extends o o'.
Proof.
  induction l as [|x l IH]; intros Hbody o o' H; simpl in H.
  - by injection H as <-.
  - destruct (body x o) as [[o1|o1]|] eqn:E; [| |done].
    + etrans; [eapply Hbody; [left|by left]|].
      eapply IH; [|done]. intros. eapply Hbody; [by right|done].
    + injection H as <-. eapply Hbody; [left|by right].
Qed.

(** A byte stored among the bytes appended leaves the bytes before. *)
Lemma extends_store o o1 b i v :
  extends o o1 -> (len (buf o) <= i)%Z -> store (buf o1) i v = Some b ->
  extends o (set_buf o1 b).
Proof.
  intros [bs Hbs] Hi H. unfold store in H. case_decide; [|done]. injection H as <-.
  unfold len in *. exists (<[(Z.to_nat i - length (visible (buf o)))%nat := v]> bs).
  unfold set_buf. cbn [buf visible]. rewrite Hbs.
  rewrite insert_app_r_alt by lia. done.
Qed.

(** A buffer cut back to a length that is not below its length at the
    start keeps the bytes of the start. *)
Lemma extends_reslice o o1 b k :
  extends o o1 -> (len (buf o) <= k <= len (buf o1))%Z -> reslice (buf o1) k = Some b ->
  extends o (set_buf o1 b).
Proof.
  intros [bs Hbs] Hk H. unfold reslice in H. case_decide; [|done]. injection H as <-.
  unfold len in *. exists (take (Z.to_nat k - length (visible (buf o)))%nat bs).
  unfold set_buf, window, arr. cbn [buf visible].
  rewrite take_app_le by lia. rewrite Hbs, take_app_ge by lia. done.
Qed.

Lemma extends_len o o' : extends o o' -> (len (buf o) <= len (buf o'))%Z.
Proof. intros [bs H]. unfold len. rewrite H, length_app. lia. Qed.

Lemma extends_enc_Duration p d o o' :
  enc_Duration growslice p d o = Some o' -> extends o o'.
Proof.
  unfold enc_Duration. cbv zeta. intros H. apply bind_Some in H as (b & Hb & H).
  injection H as <-.
  set (o0 := put growslice [0] (put growslice (tagcode p) o)) in *.
  assert (extends o o0) as H0 by (etrans; apply extends_put).
  assert (len (buf o) <= len (buf o0) - 1)%Z as Hlen.
  { subst o0. rewrite !len_put. simpl. lia. }
  destruct (decide (_ ≠ _)), (decide (_ ≠ _));
    (eapply extends_store; [|exact Hlen|exact Hb]);
    repeat first [exact H0 | etrans; [|first [apply extends_EncodeVarint | apply extends_put]]].
Qed.

Lemma extends_enc_len_thing enc o o' :
  (forall o1 o2, enc o1 = Some o2 -> extends o1 o2) ->
  enc_len_thing growslice enc o = Some o' -> extends o o'.
Proof.
  intros Henc H.
  destruct (enc (put growslice [0; 0; 0; 0] o)) as [o1|] eqn:E.
  - destruct (Henc _ _ E) as [body Hbody].
    rewrite (proj1 (appended_put _ _ _)), <- app_assoc in Hbody.
    destruct (enc_len_thing_appends growslice enc o o1 body E Hbody) as [rest Hr].
    rewrite Hr in H. injection H as <-. eexists. done.
  - unfold enc_len_thing in H. cbv zeta in H. by rewrite E in H.
Qed.

Lemma extends_encode_appender p ptr must o r :
  well_behaved ptr ->
  encode_appender growslice p ptr must o = Some r -> extends o r.1.
Proof.
  intros Hwb H.
  set (o1 := if decide (pWireType p = WireBytes)
             then put growslice [0] (put growslice (tagcode p) o)
             else put growslice (tagcode p) o).
  assert (extends o o1) as H1.
  { subst o1. case_decide; repeat (etrans; [|apply extends_put]); done. }
  destruct ptr; try (unfold encode_appender, call_AppendProtobuf3 in H; cbv zeta in H;
                     destruct (stype p); done).
  destruct (stype p) as [t|] eqn:Ht;
    [|unfold encode_appender, call_AppendProtobuf3 in H; cbv zeta in H; by rewrite Ht in H].
  destruct (f (buf o1)) as [b [e|]] eqn:Hf.
  - unfold encode_appender, call_AppendProtobuf3 in H. cbv zeta in H.
    rewrite Ht in H. cbn [mbind option_bind] in H. fold o1 in H. rewrite Hf in H.
    injection H as <-. cbn [fst]. etrans; [exact H1|apply extends_noteError].
  - destruct (Hwb (buf o1)) as [body Hbody]; [by rewrite Hf|]. rewrite Hf in Hbody.
    destruct (encode_appender_appends growslice p (VAppender f) must o f b body t
                eq_refl Ht Hf Hbody) as (o' & Ho' & _ & Hv).
    rewrite Ho' in H. injection H as <-. cbn [fst].
    destruct (negb must && bool_decide (body = [])); [by apply extends_same|].
    case_decide; eexists; exact Hv.
Qed.
End Extends.

(** The bytes of a buffer that the primitive writers have gone over. *)
Ltac extends_chain :=
  repeat match goal with
  | |- extends ?a ?a => reflexivity
  | H : extends ?a ?b |- extends ?a ?b => exact H
  | |- extends _ (noteError _ _) => apply extends_noteError'
  | |- extends _ (EncodeRawBytes _ _ _) => apply extends_EncodeRawBytes'
  | |- extends _ (EncodeStringBytes _ _ _) => apply extends_EncodeStringBytes'
  | |- extends _ (put_marshaled _ _ _ _) => apply extends_put_marshaled'
  | |- extends _ (EncodeTimestamp _ _ _) => apply extends_EncodeTimestamp'
  | |- extends _ (put _ _ _) => apply extends_put'
  | |- extends _ (EncodeVarint _ _ _) => apply extends_EncodeVarint'
  | H : extends ?a ?b |- extends _ ?b => trans a; [|exact H]
  end.

Section ExtendsEncoders.
Variable growslice : Z -> Z -> Z.

#[local] Existing Instance extends_refl.
#[local] Existing Instance extends_trans.

Ltac ext_facts :=
  repeat match goal with
  | H : call_valEnc _ _ _ _ = Some _ |- _ => apply extends_call_valEnc in H
  | H : enc_Duration _ _ _ _ = Some _ |- _ => apply extends_enc_Duration in H
  end.

Ltac extends_leaf H := repeat returned_step H; ext_facts; extends_chain.

Lemma well_behaved_elem (l : list value) x :
  foldr (fun x P => well_behaved x /\ P) True l -> x ∈ l -> well_behaved x.
Proof.
  induction l as [|y l IH]; intros Hl Hx; [by apply elem_of_nil in Hx|].
  destruct Hl as [Hy Hl]. apply elem_of_cons in Hx as [->|Hx]; auto.
Qed.

Lemma extends_enc_ptr_bool p fld o o' :
  enc_ptr_bool growslice p fld o = Some o' -> extends o o'.
Proof. unfold enc_ptr_bool. intros H. extends_leaf H. Qed.

Lemma extends_enc_bool p fld o o' :
  enc_bool growslice p fld o = Some o' -> extends o o'.
Proof. unfold enc_bool. intros H. extends_leaf H. Qed.

Lemma extends_enc_ptr_integer p fld o o' :
  enc_ptr_integer growslice p fld o = Some o' -> extends o o'.
Proof. unfold enc_ptr_integer. intros H. extends_leaf H. Qed.

Lemma extends_enc_integer p fld o o' :
  enc_integer growslice p fld o = Some o' -> extends o o'.
Proof. unfold enc_integer. intros H. extends_leaf H. Qed.

Lemma extends_enc_ptr_int64 p fld o o' :
  enc_ptr_int64 growslice p fld o = Some o' -> extends o o'.
Proof. unfold enc_ptr_int64. intros H. extends_leaf H. Qed.

Lemma extends_enc_int64 p fld o o' :
  enc_int64 growslice p fld o = Some o' -> extends o o'.
Proof. unfold enc_int64. cbv zeta. intros H. extends_leaf H. Qed.

Lemma extends_enc_ptr_string p fld o o' :
  enc_ptr_string growslice p fld o = Some o' -> extends o o'.
Proof. unfold enc_ptr_string. intros H. extends_leaf H. Qed.

Lemma extends_enc_string p fld o o' :
  enc_string growslice p fld o = Some o' -> extends o o'.
Proof. unfold enc_string. intros H. extends_leaf H. Qed.

Lemma extends_enc_marshaler p fld o o' :
  enc_marshaler growslice p fld o = Some o' -> extends o o'.
Proof. unfold enc_marshaler. cbv zeta. intros H. extends_leaf H. Qed.

Lemma extends_enc_ptr_marshaler p fld o o' :
  enc_ptr_marshaler growslice p fld o = Some o' -> extends o o'.
Proof. unfold enc_ptr_marshaler. intros H. extends_leaf H. Qed.

Lemma extends_enc_appender p fld o o' :
  well_behaved fld ->
  enc_appender growslice p fld o = Some o' -> extends o o'.
Proof.
  unfold enc_appender. cbv zeta. intros Hwb H. repeat returned_step H.
  eapply extends_encode_appender; [|eassumption]; done.
Qed.

Lemma extends_enc_ptr_appender p fld o o' :
  well_behaved fld ->
  enc_ptr_appender growslice p fld o = Some o' -> extends o o'.
Proof.
  unfold enc_ptr_appender. intros Hwb H. repeat returned_step H; [|done].
  destruct fld; try done. injection E as ->.
  eapply extends_encode_appender; [|eassumption]; done.
Qed.

Lemma extends_range_valEnc {A} p (f : A -> N) s o o' :
  range_do (fun x o => call_valEnc growslice p (f x) o) s o = Some o' -> extends o o'.
Proof. apply extends_range_do. intros x o1 o2 _. apply extends_call_valEnc. Qed.

Lemma extends_enc_slice_packed_bool p fld o o' :
  enc_slice_packed_bool growslice p fld o = Some o' -> extends o o'.
Proof.
  unfold enc_slice_packed_bool. cbv zeta. intros H. repeat returned_step H; [done|].
  apply extends_range_valEnc in H. extends_chain.
Qed.

Lemma extends_enc_array_packed_bool p fld o o' :
  enc_array_packed_bool growslice p fld o = Some o' -> extends o o'.
Proof.
  unfold enc_array_packed_bool. cbv zeta. intros H. repeat returned_step H.
  apply extends_range_valEnc in H. extends_chain.
Qed.

Lemma extends_enc_slice_byte p fld o o' :
  enc_slice_byte growslice p fld o = Some o' -> extends o o'.
Proof. unfold enc_slice_byte. intros H. extends_leaf H. Qed.

Lemma extends_enc_array_byte p fld o o' :
  enc_array_byte growslice p fld o = Some o' -> extends o o'.
Proof. unfold enc_array_byte. cbv zeta. intros H. extends_leaf H. Qed.

Lemma extends_put_packed p s o o' : put_packed growslice p s o = Some o' -> extends o o'.
Proof.
  unfold put_packed. cbv zeta. intros H. repeat returned_step H. extends_chain.
Qed.

Lemma extends_enc_slice_packed p fld o o' :
  enc_slice_packed growslice p fld o = Some o' -> extends o o'.
Proof.
  unfold enc_slice_packed. intros H. repeat returned_step H; [done|].
  by eapply extends_put_packed.
Qed.

Lemma extends_enc_array_packed p fld o o' :
  enc_array_packed growslice p fld o = Some o' -> extends o o'.
Proof.
  unfold enc_array_packed. cbv zeta. intros H. repeat returned_step H.
  by eapply extends_put_packed.
Qed.

Lemma extends_enc_slice_slice_byte p fld o o' :
  enc_slice_slice_byte growslice p fld o = Some o' -> extends o o'.
Proof.
  unfold enc_slice_slice_byte. intros H. repeat returned_step H.
  revert H. apply extends_range_do. intros ? ? ? _ [= <-]. extends_chain.
Qed.

Lemma extends_enc_slice_string p fld o o' :
  enc_slice_string growslice p fld o = Some o' -> extends o o'.
Proof.
  unfold enc_slice_string. intros H. repeat returned_step H.
  revert H. apply extends_range_do. intros ? ? ? _ [= <-]. extends_chain.
Qed.

Lemma extends_enc_array_string p fld o o' :
  enc_array_string growslice p fld o = Some o' -> extends o o'.
Proof.
  unfold enc_array_string. cbv zeta. intros H. repeat returned_step H.
  revert H. apply extends_range_do. intros ? ? ? _ [= <-]. extends_chain.
Qed.

Lemma extends_enc_time_Time p fld o o' :
  enc_time_Time growslice p fld o = Some o' -> extends o o'.
Proof. unfold enc_time_Time. intros H. extends_leaf H. Qed.

Lemma extends_enc_time_Duration p fld o o' :
  enc_time_Duration growslice p fld o = Some o' -> extends o o'.
Proof. unfold enc_time_Duration. intros H. extends_leaf H. Qed.

Lemma extends_enc_ptr_time_Duration p fld o o' :
  enc_ptr_time_Duration growslice p fld o = Some o' -> extends o o'.
Proof. unfold enc_ptr_time_Duration. intros H. extends_leaf H. Qed.

Lemma extends_enc_slice_time_Duration p fld o o' :
  enc_slice_time_Duration growslice p fld o = Some o' -> extends o o'.
Proof.
  unfold enc_slice_time_Duration. intros H. repeat returned_step H.
  revert H. apply extends_range_do. intros ? ? ? _. apply extends_enc_Duration.
Qed.

Lemma extends_enc_array_time_Duration p fld o o' :
  enc_array_time_Duration growslice p fld o = Some o' -> extends o o'.
Proof.
  unfold enc_array_time_Duration. cbv zeta. intros H. repeat returned_step H.
  revert H. apply extends_range_do. intros ? ? ? _. apply extends_enc_Duration.
Qed.

Lemma extends_marshal_step p structp o r :
  ('(data, e) ← call_MarshalProtobuf3 p structp;
   match e with
   | Some e => Some (Return (noteError e o))
   | None => Some (Next (put_marshaled growslice p (data_bytes data) o))
   end) = Some r ->
  extends o (match r with Next o' => o' | Return o' => o' end).
Proof. intros H. repeat returned_step H; extends_chain. Qed.

Lemma extends_appender_step p structp o r :
  well_behaved structp ->
  (r ← encode_appender growslice p structp true o;
   match r.2 with
   | Some _ => Some (Return r.1)
   | None => Some (Next r.1)
   end) = Some r ->
  extends o (match r with Next o' => o' | Return o' => o' end).
Proof.
  intros Hwb H. repeat returned_step H; (eapply extends_encode_appender; [|eassumption]; done).
Qed.

Lemma extends_enc_slice_marshaler p fld o o' :
  enc_slice_marshaler growslice p fld o = Some o' -> extends o o'.
Proof.
  unfold enc_slice_marshaler. cbv zeta. intros H. repeat returned_step H; [done|].
  revert H. apply extends_range_until. intros ? ? ? _ [H|H];
    by apply extends_marshal_step in H.
Qed.

Lemma extends_enc_slice_appender p fld o o' :
  well_behaved fld ->
  enc_slice_appender growslice p fld o = Some o' -> extends o o'.
Proof.
  unfold enc_slice_appender. cbv zeta. intros Hwb H. repeat returned_step H; [done|].
  destruct fld; try done. injection E as ->.
  revert H. apply extends_range_do. intros elt ? ? Hx H.
  assert (well_behaved elt) as Hwe.
  { clear H. destruct (decide (Size _ = 0)%Z); [by apply elem_of_nil in Hx|].
    exact (well_behaved_elem _ _ Hwb Hx). }
  repeat returned_step H. eapply extends_encode_appender; [|eassumption]; done.
Qed.
End ExtendsEncoders.

Section ExtendsNested.
Variable growslice : Z -> Z -> Z.

#[local] Existing Instance extends_refl.
#[local] Existing Instance extends_trans.

Variable enc_struct : option tid -> value -> Buffer -> option Buffer.
Variable n : nat.
Hypothesis enc_struct_extends : forall prop s o o',
  (vsize s < n)%nat -> well_behaved s ->
  enc_struct prop s o = Some o' -> extends o o'.

Lemma extends_enc_len_struct prop s o o' :
  (vsize s < n)%nat -> well_behaved s ->
  enc_len_struct growslice enc_struct prop s o = Some o' -> extends o o'.
Proof.
  intros Hs Hwb. unfold enc_len_struct. apply extends_enc_len_thing.
  intros o1 o2. by apply enc_struct_extends.
Qed.

Lemma extends_enc_struct_message p fld o o' :
  (vsize fld < n)%nat -> well_behaved fld ->
  enc_struct_message growslice enc_struct p fld o = Some o' -> extends o o'.
Proof.
  intros Hs Hwb. unfold enc_struct_message. cbv zeta. intros H.
  apply bind_Some in H as (o1 & E & H). apply extends_enc_len_struct in E; [|done..].
  assert (extends o o1) as H1 by extends_chain.
  repeat returned_step H; try done.
  eapply extends_reslice; [exact H1| |eassumption].
  apply extends_len in E. rewrite len_put in E. lia.
Qed.

Lemma extends_enc_ptr_struct_message p fld o o' :
  (vsize fld < n)%nat -> well_behaved fld ->
  enc_ptr_struct_message growslice enc_struct p fld o = Some o' -> extends o o'.
Proof.
  intros Hs Hwb. unfold enc_ptr_struct_message. intros H.
  repeat returned_step H; [|done].
  apply extends_enc_len_struct in H; [extends_chain| |done]. cbn [vsize] in Hs. lia.
Qed.

Lemma extends_enc_ptr_struct_messages p s o o' :
  (S (sum_list_with vsize s) < n)%nat -> well_behaved (VSlice s) ->
  enc_ptr_struct_messages growslice enc_struct p s o = Some o' -> extends o o'.
Proof.
  intros Hs Hwb. unfold enc_ptr_struct_messages. intros H.
  repeat returned_step H; revert H; apply extends_range_until;
    intros elt o1 o2 Hx [H|H].
  all: pose proof (sum_list_with_in _ vsize _ Hx) as Hsz.
  all: pose proof (well_behaved_elem _ _ Hwb Hx) as Hwe.
  all: destruct elt as [| | | | |[structp|]| | | | | |]; try discriminate H.
  all: try (injection H as <-; apply extends_noteError).
  all: try (by apply extends_appender_step in H).
  all: try (by apply extends_marshal_step in H).
  all: repeat returned_step H; try discriminate.
  all: match goal with
       | HE : enc_len_struct _ _ _ _ _ = Some _ |- _ =>
           apply extends_enc_len_struct in HE;
           [extends_chain | cbn [vsize] in Hsz; lia | done]
       end.
Qed.

Lemma extends_enc_slice_ptr_struct_message p fld o o' :
  (vsize fld < n)%nat -> well_behaved fld ->
  enc_slice_ptr_struct_message growslice enc_struct p fld o = Some o' -> extends o o'.
Proof.
  intros Hs Hwb. unfold enc_slice_ptr_struct_message. intros H.
  repeat returned_step H. eapply extends_enc_ptr_struct_messages; [| |done]; done.
Qed.

Lemma extends_enc_array_ptr_struct_message p fld o o' :
  (vsize fld < n)%nat -> well_behaved fld ->
  enc_array_ptr_struct_message growslice enc_struct p fld o = Some o' -> extends o o'.
Proof.
  intros Hs Hwb. unfold enc_array_ptr_struct_message. cbv zeta. intros H.
  repeat returned_step H. eapply extends_enc_ptr_struct_messages; [| |done]; done.
Qed.

Lemma extends_enc_struct_messages p s o o' :
  (S (sum_list_with vsize s) < n)%nat -> well_behaved (VSlice s) ->
  enc_struct_messages growslice enc_struct p s o = Some o' -> extends o o'.
Proof.
  intros Hs Hwb. unfold enc_struct_messages. cbv zeta. intros H.
  repeat returned_step H; try done; revert H; apply extends_range_until;
    intros elt o1 o2 Hx [H|H].
  all: pose proof (sum_list_with_in _ vsize _ Hx) as Hsz.
  all: pose proof (well_behaved_elem _ _ Hwb Hx) as Hwe.
  all: try (by apply extends_appender_step in H).
  all: try (by apply extends_marshal_step in H).
  all: repeat returned_step H; try discriminate.
  all: match goal with
       | HE : enc_len_struct _ _ _ _ _ = Some _ |- _ =>
           apply extends_enc_len_struct in HE; [extends_chain | lia | done]
       end.
Qed.

Lemma extends_enc_slice_struct_message p fld o o' :
  (vsize fld < n)%nat -> well_behaved fld ->
  enc_slice_struct_message growslice enc_struct p fld o = Some o' -> extends o o'.
Proof.
  intros Hs Hwb. unfold enc_slice_struct_message. intros H.
  repeat returned_step H; [done|]. eapply extends_enc_struct_messages; [| |done]; done.
Qed.

Lemma extends_enc_array_messages p fld o o' :
  (vsize fld < n)%nat -> well_behaved fld ->
  enc_array_messages growslice enc_struct p fld o = Some o' -> extends o o'.
Proof.
  intros Hs Hwb. unfold enc_array_messages. intros H.
  repeat returned_step H. eapply extends_enc_struct_messages; [| |done]; done.
Qed.

Lemma well_behaved_pair (kvs : list (value * value)) kv :
  foldr (fun kv P => (well_behaved kv.1 /\ well_behaved kv.2) /\ P) True kvs ->
  kv ∈ kvs -> well_behaved kv.1 /\ well_behaved kv.2.
Proof.
  induction kvs as [|y l IH]; intros Hl Hx; [by apply elem_of_nil in Hx|].
  destruct Hl as [Hy Hl]. apply elem_of_cons in Hx as [->|Hx]; auto.
Qed.

Lemma extends_enc_new_map call_entry p fld o o' :
  well_behaved fld ->
  (forall q c o o', (vsize c < vsize fld)%nat -> well_behaved c ->
                    call_entry q c o = Some o' -> extends o o') ->
  enc_new_map growslice call_entry p fld o = Some o' -> extends o o'.
Proof.
  intros Hwb Hentry. unfold enc_new_map. intros H.
  repeat returned_step H; [done|]. revert H. apply extends_range_do.
  intros [k v] o1 o2 Hkv H. cbv zeta in H.
  pose proof (sum_list_with_in _ (fun kv => vsize kv.1 + vsize kv.2)%nat _ Hkv) as Hsz.
  destruct (well_behaved_pair _ _ Hwb Hkv) as [Hk Hv].
  cbn [fst snd vsize] in *.
  apply extends_enc_len_thing in H; [extends_chain|].
  intros o3 o4 H4. repeat returned_step H4.
  etrans; (eapply Hentry; [| |done]); (lia || done).
Qed.

Lemma extends_call_enc_with call_entry p fld o o' :
  (vsize fld < n)%nat -> well_behaved fld ->
  (forall q c o o', (vsize c < vsize fld)%nat -> well_behaved c ->
                    call_entry q c o = Some o' -> extends o o') ->
  call_enc_with growslice enc_struct call_entry p fld o = Some o' -> extends o o'.
Proof.
  intros Hs Hwb Hentry. unfold call_enc_with.
  destruct (enc p) as [f|]; [|done].
  destruct f; intros H;
    first
      [ exact (extends_enc_ptr_bool _ _ _ _ _ H)
      | exact (extends_enc_bool _ _ _ _ _ H)
      | exact (extends_enc_ptr_integer _ _ _ _ _ H)
      | exact (extends_enc_integer _ _ _ _ _ H)
      | exact (extends_enc_ptr_int64 _ _ _ _ _ H)
      | exact (extends_enc_int64 _ _ _ _ _ H)
      | exact (extends_enc_ptr_string _ _ _ _ _ H)
      | exact (extends_enc_string _ _ _ _ _ H)
      | exact (extends_enc_marshaler _ _ _ _ _ H)
      | exact (extends_enc_appender _ _ _ _ _ Hwb H)
      | exact (extends_enc_ptr_marshaler _ _ _ _ _ H)
      | exact (extends_enc_ptr_appender _ _ _ _ _ Hwb H)
      | exact (extends_enc_slice_packed_bool _ _ _ _ _ H)
      | exact (extends_enc_array_packed_bool _ _ _ _ _ H)
      | exact (extends_enc_slice_byte _ _ _ _ _ H)
      | exact (extends_enc_array_byte _ _ _ _ _ H)
      | exact (extends_enc_slice_packed _ _ _ _ _ H)
      | exact (extends_enc_array_packed _ _ _ _ _ H)
      | exact (extends_enc_slice_slice_byte _ _ _ _ _ H)
      | exact (extends_enc_slice_string _ _ _ _ _ H)
      | exact (extends_enc_array_string _ _ _ _ _ H)
      | exact (extends_enc_slice_marshaler _ _ _ _ _ H)
      | exact (extends_enc_slice_appender _ _ _ _ _ Hwb H)
      | exact (extends_enc_time_Time _ _ _ _ _ H)
      | exact (extends_enc_time_Duration _ _ _ _ _ H)
      | exact (extends_enc_ptr_time_Duration _ _ _ _ _ H)
      | exact (extends_enc_slice_time_Duration _ _ _ _ _ H)
      | exact (extends_enc_array_time_Duration _ _ _ _ _ H)
      | exact (extends_enc_struct_message _ _ _ _ Hs Hwb H)
      | exact (extends_enc_ptr_struct_message _ _ _ _ Hs Hwb H)
      | exact (extends_enc_slice_ptr_struct_message _ _ _ _ Hs Hwb H)
      | exact (extends_enc_array_ptr_struct_message _ _ _ _ Hs Hwb H)
      | exact (extends_enc_slice_struct_message _ _ _ _ Hs Hwb H)
      | exact (extends_enc_array_messages _ _ _ _ Hs Hwb H)
      | exact (extends_enc_new_map _ _ _ _ _ Hwb Hentry H)
      | (injection H as <-; reflexivity) ].
Qed.

Lemma extends_call_enc_entry q c o o' :
  (vsize c < n)%nat -> well_behaved c ->
  call_enc_entry growslice enc_struct q c o = Some o' -> extends o o'.
Proof.
  intros Hs Hwb. unfold call_enc_entry. case_decide; [|done].
  apply extends_call_enc_with; [done..|]. done.
Qed.

Lemma extends_call_enc p base o o' :
  (vsize (VStruct base) <= n)%nat -> well_behaved (VStruct base) ->
  call_enc growslice enc_struct p base o = Some o' -> extends o o'.
Proof.
  intros Hs Hwb. unfold call_enc. rewrite with_field_lookup. intros H.
  apply bind_Some in H as (fld & Hfld & H).
  apply list_elem_of_lookup_2 in Hfld.
  pose proof (sum_list_with_in _ vsize _ Hfld) as Hsz. cbn [vsize] in Hs.
  pose proof (well_behaved_elem _ _ Hwb Hfld) as Hwe.
  revert H. apply extends_call_enc_with; [lia|done|].
  intros q c o1 o2 Hc. apply extends_call_enc_entry. lia.
Qed.
End ExtendsNested.

Section ExtendsStruct.
Variable growslice : Z -> Z -> Z.
Variable schemas : gmap tid StructProperties.

Lemma extends_enc_struct prop structp o o' :
  well_behaved structp ->
  enc_struct growslice schemas prop structp o = Some o' -> extends o o'.
Proof.
  remember (S (vsize structp)) as n eqn:Hn.
  assert (vsize structp < n)%nat as Hlt by lia. clear Hn.
  revert prop structp o o' Hlt.
  induction n as [|n IH]; intros prop structp o o' Hlt Hwb; [lia|].
  destruct structp; try done. rewrite enc_struct_unfold. intros H.
  apply bind_Some in H as (sp & _ & H). revert H. apply extends_range_do.
  intros p o1 o2 _. apply (extends_call_enc _ _ n); [|lia|done].
  intros prop' s o3 o4 Hs. by apply IH.
Qed.
End ExtendsStruct.

Lemma well_formed_varint_cons c l :
  l <> [] ->
  well_formed_varint (c :: l) = (128 <=? c) && (c <? 256) && well_formed_varint l.
Proof. by destruct l. Qed.

Lemma base128_well_formed x : well_formed_varint (base128 x) = true.
Proof.
  induction x as [x IH] using (well_founded_induction N.lt_wf_0).
  destruct (decide (x < 128)) as [Hx|Hx].
  - rewrite base128_small by done. simpl. by apply N.ltb_lt.
  - rewrite base128_big by lia.
    assert (x / 128 < x) as Hlt by (apply N.div_lt; lia).
    specialize (IH _ Hlt). pose proof (base128_length_pos (x / 128)) as Hpos.
    rewrite well_formed_varint_cons by (intros E; rewrite E in Hpos; simpl in Hpos; lia).
    rewrite IH, andb_true_r.
    assert (x mod 128 < 128) as Hm by (apply N.mod_upper_bound; lia).
    clear -Hm. set (m := x mod 128) in *. clearbody m.
    apply andb_true_iff. split; [apply N.leb_le; lia|apply N.ltb_lt; lia].
Qed.

Lemma base128_value x : varint_value (base128 x) = x.
Proof.
  induction x as [x IH] using (well_founded_induction N.lt_wf_0).
  destruct (decide (x < 128)) as [Hx|Hx].
  - rewrite base128_small by done. simpl. rewrite N.mod_small by done. lia.
  - rewrite base128_big by lia. cbn [varint_value foldr].
    fold (varint_value (base128 (x / 128))).
    rewrite IH by (apply N.div_lt; lia).
    replace ((x mod 128 + 128) mod 128) with (x mod 128).
    + pose proof (N.div_mod x 128). lia.
    + rewrite N.Div0.add_mod, N.Div0.mod_same, N.add_0_r, !N.Div0.mod_mod. done.
Qed.

(** C10: for every uint64 [x], EncodeVarint appends to the buffer the
    base-128 little-endian varint of [x] (the low 7 bits first, the
    continuation bit 0x80 set on every byte except the last), which is
    [SizeVarint x] bytes long: the 32-bit fast path and the 64-bit path
    write the same bytes, and the two functions agree on every input. *)
Theorem EncodeVarint_SizeVarint_base128 (growslice : Z -> Z -> Z) (x : N) (p : Buffer) :
  visible (buf (EncodeVarint growslice x p)) = visible (buf p) ++ base128 x /\
  Z.of_nat (length (base128 x)) = SizeVarint x /\
  well_formed_varint (base128 x) = true /\
  varint_value (base128 x) = x.
Proof.
  split; [apply EncodeVarint_appended|].
  split; [symmetry; apply SizeVarint_spec|].
  split; [apply base128_well_formed|apply base128_value].
Qed.

(** The bytes and the sizes at the boundaries of the two paths. *)
Example EncodeVarint_boundaries :
  map (fun x => (visible (buf (EncodeVarint grow_double x (newBuffer nil_slice))),
                 SizeVarint x))
      [127; 128; 2 ^ 14 - 1; 2 ^ 14; 2 ^ 28 - 1; 2 ^ 28; 2 ^ 32 - 1; 2 ^ 32;
       2 ^ 63 - 1; 2 ^ 63; 2 ^ 64 - 1]
  = [([127], 1%Z); ([128; 1], 2%Z); ([255; 127], 2%Z); ([128; 128; 1], 3%Z);
     ([255; 255; 255; 127], 4%Z); ([128; 128; 128; 128; 1], 5%Z);
     ([255; 255; 255; 255; 15], 5%Z); ([128; 128; 128; 128; 16], 5%Z);
     ([255; 255; 255; 255; 255; 255; 255; 255; 127], 9%Z);
     ([128; 128; 128; 128; 128; 128; 128; 128; 128; 1], 10%Z);
     ([255; 255; 255; 255; 255; 255; 255; 255; 255; 1], 10%Z)].
Proof. vm_compute. reflexivity. Qed.

(** C3: enc_len_thing leaves the buffer as it was, followed by the varint
    of the length of the body and by the body, whatever the length of the
    body, for every body writer that appends its body after the 4-byte
    placeholder; and the appender path of encode_appender, which reserves
    1 byte, leaves the buffer as it was followed by the tag, the varint of
    the length of what the method appended, and what it appended.  The
    bytes written before the call are not modified. *)
Theorem enc_len_thing_backpatch (growslice : Z -> Z -> Z)
  (enc : Buffer -> option Buffer) (o o1 : Buffer) (body : list N)
  (p : Properties) (t : rtype) (a : slice -> slice * option error) (b : slice)
  (abody : list N) (must : bool) :
  enc (put growslice [0; 0; 0; 0] o) = Some o1 ->
  visible (buf o1) = visible (buf o) ++ [0; 0; 0; 0] ++ body ->
  pWireType p = WireBytes ->
  stype p = Some t ->
  a (buf (put growslice [0] (put growslice (tagcode p) o))) = (b, None) ->
  visible b = visible (buf o) ++ tagcode p ++ [0] ++ abody ->
  must = true \/ abody <> [] ->
  (exists o',
     enc_len_thing growslice enc o = Some o' /\
     visible (buf o') =
       visible (buf o) ++ base128 (uint64_of_Z (Z.of_nat (length body))) ++ body) /\
  (exists o',
     encode_appender growslice p (VAppender a) must o = Some (o', None) /\
     visible (buf o') =
       visible (buf o) ++ tagcode p
         ++ base128 (uint64_of_Z (Z.of_nat (length abody))) ++ abody).
Proof.
  intros Henc Hbody Hw Ht Ha Hb Hmust. split.
  - destruct (enc_len_thing_appends growslice enc o o1 body Henc Hbody) as [rest Hr].
    eexists. split; [exact Hr|done].
  - pose proof (encode_appender_appends growslice p (VAppender a) must o a b abody t
                  eq_refl Ht) as Happ.
    cbv zeta in Happ. destruct (decide (pWireType p = WireBytes)); [|done].
    destruct (Happ Ha) as (o' & Ho' & _ & Hv).
    { rewrite Hb, !(proj1 (appended_put _ _ _)), <- !app_assoc. done. }
    exists o'. split; [done|]. rewrite Hv.
    destruct Hmust as [->|Hne]; [done|].
    rewrite bool_decide_eq_false_2 by done. by rewrite andb_false_r.
Qed.

Lemma enc_len_thing_backpatch_witness :
  (exists o',
     enc_len_thing grow_double (fun o => Some (put grow_double [1; 2; 3] o))
       (mkBuffer (mkSlice [9] []) None) = Some o' /\
     visible (buf o') = [9] ++ base128 (uint64_of_Z (Z.of_nat (length [1; 2; 3])))
                          ++ [1; 2; 3]) /\
  (exists o',
     encode_appender grow_double
       (set_stype (Some (mkRtype "main" "A" 8))
          (set_tagcode [10] (set_pWireType WireBytes zeroProperties)))
       (VAppender (fun s => (append grow_double s [7; 7], None))) true
       (mkBuffer (mkSlice [9] []) None) = Some (o', None) /\
     visible (buf o') = [9] ++ [10]
                          ++ base128 (uint64_of_Z (Z.of_nat (length [7; 7]))) ++ [7; 7]).
Proof.
  apply (enc_len_thing_backpatch grow_double
           (fun o => Some (put grow_double [1; 2; 3] o))
           (mkBuffer (mkSlice [9] []) None)
           (put grow_double [1; 2; 3]
              (put grow_double [0; 0; 0; 0] (mkBuffer (mkSlice [9] []) None)))
           [1; 2; 3]
           (set_stype (Some (mkRtype "main" "A" 8))
              (set_tagcode [10] (set_pWireType WireBytes zeroProperties)))
           (mkRtype "main" "A" 8)
           (fun s => (append grow_double s [7; 7], None))
           (append grow_double
              (buf (put grow_double [0]
                      (put grow_double [10] (mkBuffer (mkSlice [9] []) None))))
              [7; 7])
           [7; 7] true).
  - reflexivity.
  - vm_compute. reflexivity.
  - reflexivity.
  - reflexivity.
  - reflexivity.
  - vm_compute. reflexivity.
  - left. reflexivity.
Defined.

(** * The fixed-width, zigzag and bytes writers *)

Section Writers.
Variable growslice : Z -> Z -> Z.

Lemma put_visible bs o : visible (buf (put growslice bs o)) = visible (buf o) ++ bs.
Proof. apply appended_put. Qed.

Lemma uint8_bound x : uint8 x < 256.
Proof. unfold uint8. change (2 ^ 8) with 256. apply N.mod_upper_bound. lia. Qed.

Lemma uint8_shiftr x k : uint8 (N.shiftr x (8 * k)) = (x / 256 ^ k) mod 256.
Proof.
  unfold uint8. rewrite N.shiftr_div_pow2, N.pow_mul_r. done.
Qed.

(** The bytes of [x], the least significant first, up to [256 ^ S k]. *)
Lemma le_value_step x m :
  x mod (256 * m) = x mod 256 + 256 * ((x / 256) mod m).
Proof. apply N.Div0.mod_mul_r. Qed.

(** X1: EncodeFixed64 appends 8 bytes, which are [x] on 64 bits, the least
    significant byte first. *)
Theorem EncodeFixed64_little_endian (x : N) (p : Buffer) :
  exists bs,
    visible (buf (EncodeFixed64 growslice x p)) = visible (buf p) ++ bs /\
    length bs = 8%nat /\
    Forall (fun b => b < 256) bs /\
    le_value bs = uint64 x.
Proof.
  eexists. split; [apply put_visible|]. split; [done|]. split.
  - repeat first [apply List.Forall_nil | apply List.Forall_cons; [apply uint8_bound|]].
  - change (uint8 x) with (uint8 (N.shiftr x (8 * 0))).
    change 16 with (8 * 2). change 24 with (8 * 3). change 32 with (8 * 4).
    change 40 with (8 * 5). change 48 with (8 * 6). change 56 with (8 * 7).
    change (N.shiftr x 8) with (N.shiftr x (8 * 1)).
    rewrite !uint8_shiftr. cbn [le_value foldr].
    unfold uint64. change (2 ^ 64) with (256 * (256 * (256 * (256 * (256 * (256 * (256 * 256))))))).
    rewrite (le_value_step x).
    rewrite (le_value_step (x / 256)), N.Div0.div_div.
    rewrite (le_value_step (x / (256 * 256))), N.Div0.div_div.
    rewrite (le_value_step (x / (256 * 256 * 256))), N.Div0.div_div.
    rewrite (le_value_step (x / (256 * 256 * 256 * 256))), N.Div0.div_div.
    rewrite (le_value_step (x / (256 * 256 * 256 * 256 * 256))), N.Div0.div_div.
    rewrite (le_value_step (x / (256 * 256 * 256 * 256 * 256 * 256))), N.Div0.div_div.
    change (256 ^ 0) with 1. rewrite N.div_1_r.
    change (256 ^ 1) with 256. change (256 ^ 2) with (256 * 256).
    change (256 ^ 3) with (256 * 256 * 256).
    change (256 ^ 4) with (256 * 256 * 256 * 256).
    change (256 ^ 5) with (256 * 256 * 256 * 256 * 256).
    change (256 ^ 6) with (256 * 256 * 256 * 256 * 256 * 256).
    change (256 ^ 7) with (256 * 256 * 256 * 256 * 256 * 256 * 256).
    rewrite N.mul_0_r, N.add_0_r. reflexivity.
Qed.

(** X2: EncodeFixed32 appends 4 bytes, which are the low 32 bits of [x], the
    least significant byte first. *)
Theorem EncodeFixed32_little_endian (x : N) (p : Buffer) :
  exists bs,
    visible (buf (EncodeFixed32 growslice x p)) = visible (buf p) ++ bs /\
    length bs = 4%nat /\
    Forall (fun b => b < 256) bs /\
    le_value bs = uint32 x.
Proof.
  eexists. split; [apply put_visible|]. split; [done|]. split.
  - repeat first [apply List.Forall_nil | apply List.Forall_cons; [apply uint8_bound|]].
  - change (uint8 x) with (uint8 (N.shiftr x (8 * 0))).
    change 16 with (8 * 2). change 24 with (8 * 3).
    change (N.shiftr x 8) with (N.shiftr x (8 * 1)).
    rewrite !uint8_shiftr. cbn [le_value foldr].
    unfold uint32. change (2 ^ 32) with (256 * (256 * (256 * 256))).
    rewrite (le_value_step x).
    rewrite (le_value_step (x / 256)), N.Div0.div_div.
    rewrite (le_value_step (x / (256 * 256))), N.Div0.div_div.
    change (256 ^ 0) with 1. rewrite N.div_1_r.
    change (256 ^ 1) with 256. change (256 ^ 2) with (256 * 256).
    change (256 ^ 3) with (256 * 256 * 256).
    rewrite N.mul_0_r, N.add_0_r. reflexivity.
Qed.
End Writers.

(** ** Zigzag *)

Lemma lxor_ones a n : a < 2 ^ n -> N.lxor a (N.ones n) = N.ones n - a.
Proof.
  intros Ha. change (N.lxor a (N.ones n)) with (N.lnot a n).
  destruct (decide (a = 0)) as [->|Hne].
  - rewrite N.sub_0_r. unfold N.lnot. apply N.lxor_0_l.
  - apply N.lnot_sub_low. apply N.log2_lt_pow2; lia.
Qed.

Lemma uint64_of_Z_nonneg z : (0 <= z < 2 ^ 64)%Z -> uint64_of_Z z = Z.to_N z.
Proof. intros Hz. unfold uint64_of_Z. by rewrite Z.mod_small. Qed.

Lemma uint64_of_Z_neg z : (- 2 ^ 64 <= z < 0)%Z -> uint64_of_Z z = Z.to_N (z + 2 ^ 64).
Proof.
  intros Hz. unfold uint64_of_Z. f_equal.
  rewrite <- (Z.mod_add z 1 (2 ^ 64)) by lia. rewrite Z.mul_1_l. apply Z.mod_small. lia.
Qed.

Lemma shiftr_sign z k : (- 2 ^ k <= z < 2 ^ k)%Z -> (0 <= k)%Z ->
  Z.shiftr z k = if decide (0 <= z)%Z then 0%Z else (-1)%Z.
Proof.
  intros Hz Hk. rewrite Z.shiftr_div_pow2 by done.
  destruct (decide (0 <= z)%Z).
  - apply Z.div_small. lia.
  - symmetry. apply (Z.div_unique z (2 ^ k) (-1) (z + 2 ^ k)); lia.
Qed.

Lemma int64_of_uint64 z : (- 2 ^ 63 <= z < 2 ^ 63)%Z -> int64_of_N (uint64_of_Z z) = z.
Proof.
  intros Hz. unfold int64_of_N.
  destruct (decide (0 <= z)%Z).
  - rewrite uint64_of_Z_nonneg by lia.
    rewrite N.mod_small by lia. destruct (decide _); lia.
  - rewrite uint64_of_Z_neg by lia.
    rewrite N.mod_small by lia. destruct (decide _); lia.
Qed.

Lemma zigzag64_code z :
  (- 2 ^ 63 <= z < 2 ^ 63)%Z ->
  N.lxor (uint64 (N.shiftl (uint64_of_Z z) 1))
         (uint64_of_Z (Z.shiftr (int64_of_N (uint64_of_Z z)) 63)) = zigzag z.
Proof.
  intros Hz. rewrite int64_of_uint64 by done. rewrite (shiftr_sign z 63) by lia.
  rewrite N.shiftl_mul_pow2. change (2 ^ 1) with 2. unfold zigzag, uint64.
  destruct (decide (0 <= z)%Z).
  - rewrite uint64_of_Z_nonneg by lia. rewrite (uint64_of_Z_nonneg 0) by lia.
    change (Z.to_N 0) with 0. rewrite N.lxor_0_r. rewrite N.mod_small by lia. lia.
  - rewrite uint64_of_Z_neg by lia. rewrite (uint64_of_Z_neg (-1)) by lia.
    change (Z.to_N (-1 + 2 ^ 64)) with (N.ones 64).
    replace ((Z.to_N (z + 2 ^ 64) * 2) mod 2 ^ 64) with (Z.to_N (2 * z + 2 ^ 64)).
    + rewrite lxor_ones by lia. change (N.ones 64) with (2 ^ 64 - 1). lia.
    + apply (N.mod_unique _ _ 1); lia.
Qed.

Lemma int32_of_uint64 z : (- 2 ^ 31 <= z < 2 ^ 31)%Z -> int32 (Z.of_N (uint64_of_Z z)) = z.
Proof.
  intros Hz. unfold int32.
  destruct (decide (0 <= z)%Z).
  - rewrite uint64_of_Z_nonneg by lia. rewrite Z2N.id by lia.
    rewrite Z.mod_small by lia. lia.
  - rewrite uint64_of_Z_neg by lia. rewrite Z2N.id by lia.
    replace (z + 2 ^ 64 + 2 ^ 31)%Z with (z + 2 ^ 31 + 2 ^ 32 * 2 ^ 32)%Z by lia.
    rewrite Z.mod_add by lia. rewrite Z.mod_small by lia. lia.
Qed.

Lemma uint32_of_uint64 z :
  (- 2 ^ 31 <= z < 2 ^ 31)%Z ->
  uint32 (uint64_of_Z z) = Z.to_N (if decide (0 <= z)%Z then z else z + 2 ^ 32)%Z.
Proof.
  intros Hz. unfold uint32.
  destruct (decide (0 <= z)%Z).
  - rewrite uint64_of_Z_nonneg by lia. apply N.mod_small. lia.
  - rewrite uint64_of_Z_neg by lia. symmetry.
    apply (N.mod_unique _ _ (2 ^ 32 - 1)); lia.
Qed.

Lemma zigzag32_code z :
  (- 2 ^ 31 <= z < 2 ^ 31)%Z ->
  N.lxor (uint32 (N.shiftl (uint32 (uint64_of_Z z)) 1))
         (uint32 (uint64_of_Z (Z.shiftr (int32 (Z.of_N (uint64_of_Z z))) 31)))
  = zigzag z.
Proof.
  intros Hz. rewrite int32_of_uint64 by done. rewrite (shiftr_sign z 31) by lia.
  rewrite uint32_of_uint64 by done.
  rewrite N.shiftl_mul_pow2. change (2 ^ 1) with 2. unfold zigzag.
  destruct (decide (0 <= z)%Z).
  - rewrite (uint64_of_Z_nonneg 0) by lia. change (uint32 (Z.to_N 0)) with 0.
    rewrite N.lxor_0_r. unfold uint32. rewrite N.mod_small by lia. lia.
  - rewrite (uint64_of_Z_neg (-1)) by lia.
    change (uint32 (Z.to_N (-1 + 2 ^ 64))) with (N.ones 32).
    replace (uint32 (Z.to_N (z + 2 ^ 32) * 2)) with (Z.to_N (2 * z + 2 ^ 32)).
    + rewrite lxor_ones by lia. change (N.ones 32) with (2 ^ 32 - 1). lia.
    + apply (N.mod_unique _ _ 1); lia.
Qed.

Section Zigzag.
Variable growslice : Z -> Z -> Z.

(** X3: EncodeZigzag64, given the two's complement of a signed 64-bit [z],
    appends the varint of the zigzag code of [z]; a [z] between -64 and 63
    takes one byte. *)
Theorem EncodeZigzag64_zigzag (z : Z) (p : Buffer) :
  (- 2 ^ 63 <= z < 2 ^ 63)%Z ->
  visible (buf (EncodeZigzag64 growslice (uint64_of_Z z) p))
  = visible (buf p) ++ base128 (zigzag z) /\
  ((- 64 <= z < 64)%Z -> base128 (zigzag z) = [zigzag z]).
Proof.
  intros Hz. split.
  - unfold EncodeZigzag64. rewrite zigzag64_code by done. apply EncodeVarint_appended.
  - intros Hs. apply base128_small. unfold zigzag. destruct (decide _); lia.
Qed.

(** X4: EncodeZigzag32, given the two's complement of a signed 32-bit [z]
    (sign-extended to 64 bits, as [uint64(int32)] is), appends the varint
    of the zigzag code of [z], which is at most 5 bytes. *)
Theorem EncodeZigzag32_zigzag (z : Z) (p : Buffer) :
  (- 2 ^ 31 <= z < 2 ^ 31)%Z ->
  visible (buf (EncodeZigzag32 growslice (uint64_of_Z z) p))
  = visible (buf p) ++ base128 (zigzag z) /\
  (length (base128 (zigzag z)) <= 5)%nat.
Proof.
  intros Hz. split.
  - unfold EncodeZigzag32. rewrite zigzag32_code by done. apply EncodeVarint_appended.
  - apply base128_length_bound. unfold zigzag.
    change (128 ^ N.of_nat 5) with 34359738368. destruct (decide _); lia.
Qed.

End Zigzag.

Lemma EncodeZigzag64_zigzag_witness :
  visible (buf (EncodeZigzag64 grow_double (uint64_of_Z (-3)) (newBuffer nil_slice)))
  = visible (buf (newBuffer nil_slice)) ++ base128 (zigzag (-3)) /\
  ((- 64 <= -3 < 64)%Z -> base128 (zigzag (-3)) = [zigzag (-3)]).
Proof. apply (EncodeZigzag64_zigzag grow_double (-3)). lia. Defined.

Lemma EncodeZigzag32_zigzag_witness :
  visible (buf (EncodeZigzag32 grow_double (uint64_of_Z (-2147483648)) (newBuffer nil_slice)))
  = visible (buf (newBuffer nil_slice)) ++ base128 (zigzag (-2147483648)) /\
  (length (base128 (zigzag (-2147483648))) <= 5)%nat.
Proof. apply (EncodeZigzag32_zigzag grow_double (-2147483648)). lia. Defined.

(** ** The precalculated tag code *)

Lemma land_127 x : N.land x 0x7F = x mod 128.
Proof. change 0x7F with (N.ones 7). apply N.land_ones. Qed.

Lemma tagcode_loop_base128 x : tagcode_loop x = base128 x.
Proof.
  induction x as [x IH] using (well_founded_induction N.lt_wf_0).
  rewrite tagcode_loop_equation_1. case_decide as Hx.
  - rewrite base128_big by lia. rewrite shiftr_7, IH by (apply N.div_lt; lia).
    f_equal. rewrite land_127, N.lor_comm.
    assert (x mod 128 < 128) as Hm by (apply N.mod_upper_bound; lia).
    rewrite uint8_small by done. change 0x80 with 128.
    rewrite byte_lor_128 by lia. by rewrite N.Div0.mod_mod.
  - rewrite base128_small, uint8_small by lia. done.
Qed.

(** A key is its tag shifted over the three bits of the wire type. *)
Lemma lor_low a c : c < 8 -> N.lor (a * 8) c = a * 8 + c.
Proof.
  intros Hc. rewrite <- N.lxor_lor.
  - symmetry. apply N.add_nocarry_lxor.
    apply N.bits_inj_0. intros n. rewrite N.land_spec.
    change 8 with (2 ^ 3). rewrite <- N.shiftl_mul_pow2.
    destruct (decide (n < 3)) as [Hn|Hn].
    + rewrite N.shiftl_spec_low by done. done.
    + rewrite (N.bits_above_log2 c n); [apply andb_false_r|].
      destruct (decide (c = 0)) as [->|Hc0]; [simpl; lia|].
      assert (N.log2 c < 3) by (apply N.log2_lt_pow2; [lia|done]). lia.
  - apply N.bits_inj_0. intros n. rewrite N.land_spec.
    change 8 with (2 ^ 3). rewrite <- N.shiftl_mul_pow2.
    destruct (decide (n < 3)) as [Hn|Hn].
    + rewrite N.shiftl_spec_low by done. done.
    + rewrite (N.bits_above_log2 c n); [apply andb_false_r|].
      destruct (decide (c = 0)) as [->|Hc0]; [simpl; lia|].
      assert (N.log2 c < 3) by (apply N.log2_lt_pow2; [lia|done]). lia.
Qed.

Lemma WireType_code_bound w : WireType_code w < 8.
Proof. destruct w; simpl; lia. Qed.

Lemma tagcode_precalculated w p :
  Tag p < 2 ^ 29 ->
  tagcode (precalculate_tagcode w p) = base128 (wire_key (Tag p) w).
Proof.
  intros Ht. unfold precalculate_tagcode. cbv zeta.
  change (tagcode (set_tagcode ?x _)) with x. rewrite tagcode_loop_base128. f_equal.
  pose proof (WireType_code_bound w) as Hw.
  unfold uint32, wire_key. rewrite N.shiftl_mul_pow2. change (2 ^ 3) with 8.
  rewrite !N.mod_small by lia. by apply lor_low.
Qed.

Section Keys.
Variable growslice : Z -> Z -> Z.

(** X5: the tag code that setEnc precalculates for a field whose tag is
    below 2^29 is the varint of the field's key (the tag shifted left by
    3, with the wire type in the low bits): the bytes EncodeVarint writes
    for the key. *)
Theorem tagcode_is_key_varint (w : WireType) (p : Properties) (o : Buffer) :
  Tag p < 2 ^ 29 ->
  tagcode (precalculate_tagcode w p) = base128 (wire_key (Tag p) w) /\
  visible (buf (EncodeVarint growslice (wire_key (Tag p) w) o))
  = visible (buf (put growslice (tagcode (precalculate_tagcode w p)) o)).
Proof.
  intros Ht. split; [by apply tagcode_precalculated|].
  rewrite put_visible, tagcode_precalculated by done. apply EncodeVarint_appended.
Qed.

End Keys.

Lemma tagcode_is_key_varint_witness :
  tagcode (precalculate_tagcode WireFixed32 (set_Tag 300 zeroProperties))
  = base128 (wire_key (Tag (set_Tag 300 zeroProperties)) WireFixed32) /\
  visible (buf (EncodeVarint grow_double
                  (wire_key (Tag (set_Tag 300 zeroProperties)) WireFixed32)
                  (newBuffer nil_slice)))
  = visible (buf (put grow_double
                    (tagcode (precalculate_tagcode WireFixed32 (set_Tag 300 zeroProperties)))
                    (newBuffer nil_slice))).
Proof.
  apply (tagcode_is_key_varint grow_double WireFixed32 (set_Tag 300 zeroProperties)).
  vm_compute. reflexivity.
Defined.


(** ** Scalars, strings and packed fields *)

Lemma base128_length_lower k x : 128 ^ N.of_nat k <= x -> (k < length (base128 x))%nat.
Proof.
  revert x. induction k as [|k IH]; intros x Hx.
  - pose proof (base128_length_pos x). lia.
  - assert (128 <= x) as H128.
    { etrans; [|exact Hx]. rewrite Nat2N.inj_succ, N.pow_succ_r'.
      assert (128 ^ N.of_nat k <> 0) by (apply N.pow_nonzero; lia).
      lia. }
    rewrite base128_big by done. cbn [length]. apply ->Nat.succ_lt_mono. apply IH.
    rewrite Nat2N.inj_succ, N.pow_succ_r' in Hx.
    apply N.div_le_lower_bound; lia.
Qed.

Lemma base128_negative x :
  (- 2 ^ 63 <= x < 0)%Z -> length (base128 (uint64_of_Z x)) = 10%nat.
Proof.
  intros Hx. rewrite uint64_of_Z_neg by lia.
  pose proof (base128_length_lower 9 (Z.to_N (x + 2 ^ 64))) as Hlo.
  pose proof (base128_length_bound (Z.to_N (x + 2 ^ 64)) 9) as Hhi.
  change (128 ^ N.of_nat 9) with (2 ^ 63) in Hlo.
  change (128 ^ N.of_nat 10) with (2 ^ 70) in Hhi.
  specialize (Hlo ltac:(lia)). specialize (Hhi ltac:(lia)). lia.
Qed.


Lemma mapM_as_string s : mapM as_string (map VString s) = Some s.
Proof. apply mapM_Some. induction s; constructor; done. Qed.

Section Scalars.
Variable growslice : Z -> Z -> Z.

Lemma call_valEnc_bytes p f x o :
  valEnc p = Some f ->
  exists o', call_valEnc growslice p x o = Some o' /\
             visible (buf o') = visible (buf o) ++ valEnc_bytes f x /\
             err o' = err o.
Proof.
  intros Hf. unfold call_valEnc. rewrite Hf.
  destruct f; (eexists; split; [done|]);
    (split; [|first [apply EncodeVarint_err | reflexivity]]); cbn [valEnc_bytes].
  - apply EncodeVarint_visible.
  - apply put_visible.
  - apply put_visible.
  - apply EncodeVarint_visible.
  - apply EncodeVarint_visible.
Qed.

Lemma range_valEnc_bytes {A} p f (h : A -> N) s o :
  valEnc p = Some f ->
  exists o', range_do (fun x b => call_valEnc growslice p (h x) b) s o = Some o' /\
             visible (buf o') = visible (buf o) ++ concat (map (fun x => valEnc_bytes f (h x)) s) /\
             err o' = err o.
Proof.
  intros Hf. revert o. induction s as [|x s IH]; intros o.
  - exists o. by rewrite app_nil_r.
  - destruct (call_valEnc_bytes p f (h x) o Hf) as (o1 & H1 & Hv1 & He1).
    destruct (IH o1) as (o2 & H2 & Hv2 & He2).
    exists o2. simpl. rewrite H1. split; [done|]. split; [|congruence].
    rewrite Hv2, Hv1, <- app_assoc. done.
Qed.

(** X7: an integer field encoded as a varint: the zero value is left out,
    any other value is the tag code and the varint of its two's
    complement on 64 bits, which takes 10 bytes when the value is
    negative; behind a pointer the zero value is written too, and a nil
    pointer writes nothing. *)
Theorem enc_int32_varint (p : Properties) (x : Z) (o : Buffer) :
  valEnc p = Some fEncodeVarint ->
  (- 2 ^ 63 <= x < 2 ^ 63)%Z ->
  (exists o', enc_int32 growslice p (VInt x) o = Some o' /\
     visible (buf o') = if decide (x = 0)%Z then visible (buf o)
                        else visible (buf o) ++ tagcode p ++ base128 (uint64_of_Z x)) /\
  (exists o', enc_ptr_int32 growslice p (VPtr (Some (VInt x))) o = Some o' /\
     visible (buf o') = visible (buf o) ++ tagcode p ++ base128 (uint64_of_Z x)) /\
  enc_ptr_int32 growslice p (VPtr None) o = Some o /\
  ((x < 0)%Z -> length (base128 (uint64_of_Z x)) = 10%nat).
Proof.
  intros Hf Hx. split; [|split; [|split]].
  - unfold enc_int32, enc_integer. cbn [as_int mbind option_bind].
    destruct (decide (x = 0)%Z); [by exists o|].
    destruct (call_valEnc_bytes p _ (uint64_of_Z x) (put growslice (tagcode p) o) Hf)
      as (o' & H & Hv & _).
    exists o'. split; [done|]. rewrite Hv, put_visible, <- app_assoc. done.
  - unfold enc_ptr_int32, enc_ptr_integer. cbn [as_ptr as_int mbind option_bind].
    destruct (call_valEnc_bytes p _ (uint64_of_Z x) (put growslice (tagcode p) o) Hf)
      as (o' & H & Hv & _).
    exists o'. split; [done|]. rewrite Hv, put_visible, <- app_assoc. done.
  - done.
  - intros Hneg. apply base128_negative. lia.
Qed.

(** X8: a string field leaves out the empty string and writes any other
    as the tag code, the length and the bytes; a []string field writes
    one such entry for each element in order, the empty strings too. *)
Theorem enc_string_and_slice (p : Properties) (x : list N) (ss : list (list N))
  (o : Buffer) :
  (exists o', enc_string growslice p (VString x) o = Some o' /\
     visible (buf o') =
       if decide (x = []) then visible (buf o)
       else visible (buf o) ++ tagcode p
              ++ base128 (uint64 (N.of_nat (length x))) ++ x) /\
  (exists o', enc_slice_string growslice p (VSlice (map VString ss)) o = Some o' /\
     visible (buf o') =
       visible (buf o)
         ++ concat (map (fun s => tagcode p ++ base128 (uint64 (N.of_nat (length s))) ++ s)
                      ss)).
Proof.
  split.
  - unfold enc_string. cbn [as_string mbind option_bind].
    destruct (decide (x = [])); [by exists o|].
    eexists. split; [done|]. unfold EncodeStringBytes.
    rewrite put_visible, EncodeVarint_visible, put_visible, <- !app_assoc. done.
  - unfold enc_slice_string. cbn [as_slice mbind option_bind].
    rewrite mapM_as_string. cbn [mbind option_bind].
    revert o. induction ss as [|s ss IH]; intros o.
    + exists o. by rewrite app_nil_r.
    + simpl. destruct (IH (EncodeStringBytes growslice s (put growslice (tagcode p) o)))
        as (o' & H & Hv).
      exists o'. split; [done|]. rewrite Hv. unfold EncodeStringBytes.
      rewrite put_visible, EncodeVarint_visible, put_visible, <- !app_assoc. done.
Qed.

End Scalars.

Lemma enc_int32_varint_witness :
  (exists o', enc_int32 grow_double (set_tagcode [8] (set_valEnc (Some fEncodeVarint) zeroProperties))
                (VInt (-1)) (newBuffer nil_slice) = Some o' /\
     visible (buf o') = if decide (-1 = 0)%Z then visible (buf (newBuffer nil_slice))
                        else visible (buf (newBuffer nil_slice))
                               ++ tagcode (set_tagcode [8] (set_valEnc (Some fEncodeVarint) zeroProperties))
                               ++ base128 (uint64_of_Z (-1))) /\
  (exists o', enc_ptr_int32 grow_double (set_tagcode [8] (set_valEnc (Some fEncodeVarint) zeroProperties))
                (VPtr (Some (VInt (-1)))) (newBuffer nil_slice) = Some o' /\
     visible (buf o') = visible (buf (newBuffer nil_slice))
                          ++ tagcode (set_tagcode [8] (set_valEnc (Some fEncodeVarint) zeroProperties))
                          ++ base128 (uint64_of_Z (-1))) /\
  enc_ptr_int32 grow_double (set_tagcode [8] (set_valEnc (Some fEncodeVarint) zeroProperties))
    (VPtr None) (newBuffer nil_slice) = Some (newBuffer nil_slice) /\
  ((-1 < 0)%Z -> length (base128 (uint64_of_Z (-1))) = 10%nat).
Proof.
  apply (enc_int32_varint grow_double
           (set_tagcode [8] (set_valEnc (Some fEncodeVarint) zeroProperties)) (-1)
           (newBuffer nil_slice)).
  - reflexivity.
  - lia.
Defined.


(** ** Durations *)

Lemma quot_parts d :
  let secs := (d ÷ 1000000000)%Z in
  let nanos := (d - secs * 1000000000)%Z in
  (Z.abs nanos < 1000000000)%Z /\ (0 <= secs * nanos)%Z /\ (0 <= d * nanos)%Z.
Proof.
  cbv zeta.
  set (q := (d ÷ 1000000000)%Z). set (r := (d - q * 1000000000)%Z).
  assert ((0 <= d /\ 0 <= q /\ 0 <= r < 1000000000) \/
          (d <= 0 /\ q <= 0 /\ - 1000000000 < r <= 0))%Z as Hcase.
  { subst r q. Z.quot_rem_to_equations. lia. }
  destruct Hcase as [(Hd & Hq & Hr)|(Hd & Hq & Hr)].
  - split; [lia|]. split; apply Z.mul_nonneg_nonneg; lia.
  - split; [lia|]. split; apply Z.mul_nonpos_nonpos; lia.
Qed.

Lemma Duration_body_length d : (length (Duration_body d) <= 22)%nat.
Proof.
  unfold Duration_body. cbv zeta. rewrite length_app.
  pose proof (SizeVarint_uint64_bound (d ÷ 1000000000)) as H1.
  pose proof (SizeVarint_uint64_bound (d - d ÷ 1000000000 * 1000000000)) as H2.
  rewrite SizeVarint_spec in H1, H2.
  destruct (decide _), (decide _); cbn [length app]; lia.
Qed.

Section Durations.
Variable growslice : Z -> Z -> Z.

(** X10: enc_Duration never fails; it writes the tag code, one byte that
    is the length of the body, and the body (the seconds and the
    nanoseconds, each left out when zero).  The body is at most 22 bytes
    long, so that the byte reserved for its length is enough; the
    seconds and the nanoseconds have the sign of the duration. *)
Theorem enc_Duration_message (p : Properties) (d : Z) (o : Buffer) :
  exists o',
    enc_Duration growslice p d o = Some o' /\
    visible (buf o') = visible (buf o) ++ tagcode p
                         ++ [N.of_nat (length (Duration_body d))] ++ Duration_body d /\
    (length (Duration_body d) <= 22)%nat /\
    err o' = err o /\
    (0 <= (d ÷ 1000000000) * (d - d ÷ 1000000000 * 1000000000))%Z /\
    (Z.abs (d - d ÷ 1000000000 * 1000000000) < 1000000000)%Z.
Proof.
  pose proof (Duration_body_length d) as Hlen.
  pose proof (quot_parts d) as (Habs & Hsign & _). cbv zeta in Habs, Hsign.
  unfold enc_Duration. cbv zeta.
  set (o0 := put growslice [0] (put growslice (tagcode p) o)).
  set (V := visible (buf o) ++ tagcode p).
  assert (visible (buf o0) = V ++ [0]) as Hv0.
  { subst o0 V. by rewrite !put_visible. }
  assert (len (buf o0) = Z.of_nat (length V) + 1)%Z as Hl0.
  { unfold len. rewrite Hv0, length_app. simpl. lia. }
  set (o2 := if decide (d - _ ≠ 0)%Z then _ else _).
  assert (visible (buf o2) = V ++ [0] ++ Duration_body d /\ err o2 = err o) as [Hv2 He2].
  { subst o2. unfold Duration_body. cbv zeta.
    destruct (decide (d ÷ 1000000000 ≠ 0)%Z), (decide (d - _ ≠ 0)%Z); split.
    all: repeat (rewrite EncodeVarint_err || rewrite (err_put growslice)); try reflexivity.
    all: repeat (rewrite EncodeVarint_visible || rewrite put_visible).
    all: rewrite Hv0, <- ?app_assoc, ?app_nil_r; reflexivity. }
  clearbody o2. unfold store. rewrite Hl0.
  assert (len (buf o2) = Z.of_nat (length V) + 1 + Z.of_nat (length (Duration_body d)))%Z
    as Hl2.
  { unfold len. rewrite Hv2, !length_app. simpl. lia. }
  rewrite decide_True by lia. cbn [mbind option_bind].
  eexists. split; [done|]. unfold set_buf. cbn [buf visible err].
  split; [|done]. rewrite Hv2, Hl2.
  replace (Z.to_nat (Z.of_nat (length V) + 1 - 1)) with (length V + 0)%nat by lia.
  rewrite insert_app_r. cbn [insert list_insert app].
  replace (Z.of_nat (length V) + 1 + Z.of_nat (length (Duration_body d))
           - (Z.of_nat (length V) + 1))%Z
    with (Z.of_nat (length (Duration_body d))) by lia.
  rewrite uint64_of_nat by lia. unfold uint8.
  rewrite N.mod_small by (change (2 ^ 8) with 256; lia).
  subst V. rewrite <- !app_assoc. done.
Qed.
End Durations.

(** ** A varint is read back in one way *)

Lemma base128_prefix_free x : forall y r r',
  base128 x ++ r = base128 y ++ r' -> x = y /\ r = r'.
Proof.
  induction x as [x IH] using (well_founded_induction N.lt_wf_0). intros y r r' H.
  destruct (decide (x < 128)) as [Hx|Hx], (decide (y < 128)) as [Hy|Hy].
  - rewrite !base128_small in H by done. simpl in H. by injection H.
  - rewrite base128_small in H by done. rewrite (base128_big y) in H by lia.
    simpl in H. injection H as H _. revert H. generalize (y mod 128). lia.
  - rewrite (base128_big x) in H by lia. rewrite (base128_small y) in H by done.
    simpl in H. injection H as H _. revert H. generalize (x mod 128). lia.
  - rewrite (base128_big x), (base128_big y) in H by lia. simpl in H.
    injection H as Hhd Htl.
    apply IH in Htl as [Hdiv ->]; [|apply N.div_lt; lia]. split; [|done].
    apply N.add_cancel_r in Hhd.
    rewrite (N.div_mod x 128), (N.div_mod y 128) by lia. by rewrite Hdiv, Hhd.
Qed.

Section Prefix.
Variable growslice : Z -> Z -> Z.

(** X11: what EncodeVarint writes can be read back in one way only: when
    the varint of [x] followed by some bytes is the varint of [y]
    followed by some bytes, [x] is [y] and the bytes that follow are the
    same. *)
Theorem EncodeVarint_prefix_free (x y : N) (r r' : list N) (o : Buffer) :
  visible (buf (put growslice r (EncodeVarint growslice x o)))
  = visible (buf (put growslice r' (EncodeVarint growslice y o))) ->
  x = y /\ r = r'.
Proof.
  rewrite !put_visible, !EncodeVarint_visible, <- !app_assoc. intros H.
  apply app_inv_head in H. by apply base128_prefix_free in H.
Qed.

(** ** Timestamps *)

Lemma timestamp_bytes secs nanos o :
  visible (buf (EncodeVarint growslice nanos
                  (put growslice [N.lor (N.shiftl 2 3) (WireType_code WireVarint)]
                     (EncodeVarint growslice secs
                        (put growslice [N.lor (N.shiftl 1 3) (WireType_code WireVarint)] o)))))
  = visible (buf o) ++ [8] ++ base128 secs ++ [16] ++ base128 nanos.
Proof.
  rewrite !EncodeVarint_visible, !put_visible, !EncodeVarint_visible, !put_visible.
  rewrite <- !app_assoc. reflexivity.
Qed.

(** X12: EncodeNSecTimestamp writes what EncodeTimestamp writes for the
    time [time.Unix(0, ts)] when [ts] is not negative or is a whole number
    of seconds.  For any other [ts] the two differ: the nanoseconds
    written by EncodeNSecTimestamp are negative and the seconds are
    rounded towards zero. *)
Theorem EncodeNSecTimestamp_vs_EncodeTimestamp (ts : Z) (o : Buffer) :
  (- 2 ^ 63 <= ts < 2 ^ 63)%Z ->
  ((0 <= ts)%Z \/ (ts mod 1000000000 = 0)%Z ->
   EncodeNSecTimestamp growslice ts o = EncodeTimestamp growslice (time_Unix 0 ts) o) /\
  ((ts < 0)%Z /\ (ts mod 1000000000 <> 0)%Z ->
   visible (buf (EncodeNSecTimestamp growslice ts o))
   <> visible (buf (EncodeTimestamp growslice (time_Unix 0 ts) o))).
Proof.
  intros Hts.
  assert (Time_Unix (time_Unix 0 ts) = (ts / 1000000000)%Z) as Hsecs by done.
  assert (Time_Sub (time_Unix 0 ts) (time_Unix (ts / 1000000000) 0)
          = (ts mod 1000000000)%Z) as Hsub.
  { unfold Time_Sub, time_Unix. cbn [unix_sec nsec].
    pose proof (Z.mod_pos_bound ts 1000000000). 
    change (0 / 1000000000)%Z with 0%Z. change (0 mod 1000000000)%Z with 0%Z. lia. }
  split.
  - intros Hcase. unfold EncodeNSecTimestamp, EncodeTimestamp. cbv zeta.
    rewrite Hsecs, Hsub.
    assert (ts ÷ 1000000000 = ts / 1000000000)%Z as ->.
    { destruct Hcase as [Hpos|Hmul].
      - apply Z.quot_div_nonneg; lia.
      - apply Z.quot_div_exact; [lia|]. apply Z.mod_divide; [lia|done]. }
    replace (ts - ts / 1000000000 * 1000000000)%Z with (ts mod 1000000000)%Z; [done|].
    rewrite Z.mod_eq by lia. lia.
  - intros [Hneg Hmod]. unfold EncodeNSecTimestamp, EncodeTimestamp. cbv zeta.
    rewrite Hsecs, Hsub, !timestamp_bytes. intros H.
    apply app_inv_head in H. simpl in H. injection H as H.
    apply base128_prefix_free in H as [H _].
    assert (ts ÷ 1000000000 = ts / 1000000000 + 1)%Z as Hq.
    { Z.quot_rem_to_equations. Z.div_mod_to_equations. lia. }
    rewrite Hq in H.
    assert (- 2 ^ 63 <= ts / 1000000000 < -1 + 1)%Z as Hrange
      by (Z.div_mod_to_equations; lia).
    destruct (decide (ts / 1000000000 + 1 = 0)%Z) as [H0|H0].
    + rewrite H0 in H. rewrite (uint64_of_Z_nonneg 0) in H by lia.
      rewrite uint64_of_Z_neg in H by lia. lia.
    + rewrite !uint64_of_Z_neg in H by lia. lia.
Qed.
End Prefix.

Lemma EncodeVarint_prefix_free_witness : 300 = 300 /\ [1; 2] = [1; 2].
Proof.
  apply (EncodeVarint_prefix_free grow_double 300 300 [1; 2] [1; 2] (newBuffer nil_slice)).
  reflexivity.
Defined.

Lemma EncodeNSecTimestamp_vs_EncodeTimestamp_witness :
  ((0 <= -1)%Z \/ (-1 mod 1000000000 = 0)%Z ->
   EncodeNSecTimestamp grow_double (-1) (newBuffer nil_slice)
   = EncodeTimestamp grow_double (time_Unix 0 (-1)) (newBuffer nil_slice)) /\
  ((-1 < 0)%Z /\ (-1 mod 1000000000 <> 0)%Z ->
   visible (buf (EncodeNSecTimestamp grow_double (-1) (newBuffer nil_slice)))
   <> visible (buf (EncodeTimestamp grow_double (time_Unix 0 (-1)) (newBuffer nil_slice)))).
Proof.
  apply (EncodeNSecTimestamp_vs_EncodeTimestamp grow_double (-1) (newBuffer nil_slice)).
  lia.
Defined.

(** ** The encoder only appends *)

(** X13: the encoder of a struct only appends: when every AppendProtobuf3
    method in the value returns its argument extended, the bytes that
    were in the buffer before enc_struct are still there, in place, at
    the start of the buffer after it, whatever the schema and the fields
    (nested messages, whose length is patched in after the fact, and
    elided fields, whose tag is taken back, included). *)
Theorem enc_struct_only_appends (growslice : Z -> Z -> Z)
  (schemas : gmap tid StructProperties) (prop : option tid) (structp : value)
  (o o' : Buffer) :
  well_behaved structp ->
  enc_struct growslice schemas prop structp o = Some o' ->
  exists bs, visible (buf o') = visible (buf o) ++ bs.
Proof. intros Hwb H. by apply (extends_enc_struct growslice schemas prop structp). Qed.

Lemma enc_struct_only_appends_witness :
  exists bs, visible (buf (mkBuffer (mkSlice [9; 8; 5] [0]) None))
             = visible (buf (mkBuffer (mkSlice [9] []) None)) ++ bs.
Proof.
  apply (enc_struct_only_appends grow_double example_schemas (Some 1%nat)
           (VStruct [VInt 5]) (mkBuffer (mkSlice [9] []) None)
           (mkBuffer (mkSlice [9; 8; 5] [0]) None)).
  - simpl. tauto.
  - vm_compute. reflexivity.
Defined.

(** ** Nested messages *)

Lemma length_pos_of_not_nil {A} (l : list A) : l <> [] -> (0 < length l)%nat.
Proof. destruct l; [done|]. simpl. lia. Qed.

Section NestedMessages.
Variable growslice : Z -> Z -> Z.
Variable schemas : gmap tid StructProperties.

(** X17: a field that is a struct, whose fields are encoded to [body]
    after the tag code and the four bytes reserved for the length: held
    by value, the field is the tag code, the length of [body] as a varint
    and [body], and it is left out when [body] is empty; held by a
    pointer, it is written in both cases (the tag code and a zero length
    when [body] is empty), and nothing is written for a nil pointer. *)
Theorem nested_message_field (p : Properties) (s : value) (o o1 : Buffer)
  (body : list N) :
  enc_struct growslice schemas (sprop p) s
    (put growslice [0; 0; 0; 0] (put growslice (tagcode p) o)) = Some o1 ->
  visible (buf o1) = visible (buf o) ++ tagcode p ++ [0; 0; 0; 0] ++ body ->
  let msg := tagcode p ++ base128 (uint64_of_Z (Z.of_nat (length body))) ++ body in
  (exists o',
     enc_struct_message growslice (enc_struct growslice schemas) p s o = Some o' /\
     visible (buf o') = if decide (body = []) then visible (buf o)
                        else visible (buf o) ++ msg) /\
  (exists o',
     enc_ptr_struct_message growslice (enc_struct growslice schemas) p (VPtr (Some s)) o
     = Some o' /\
     visible (buf o') = visible (buf o) ++ msg) /\
  enc_ptr_struct_message growslice (enc_struct growslice schemas) p (VPtr None) o = Some o.
Proof.
  intros Henc Hbody msg.
  set (ot := put growslice (tagcode p) o) in *.
  assert (visible (buf ot) = visible (buf o) ++ tagcode p) as Hvt by apply put_visible.
  destruct (enc_len_thing_appends growslice
              (fun o => enc_struct growslice schemas (sprop p) s o) ot o1 body Henc)
    as [rest Hlen].
  { rewrite Hvt, <- app_assoc. exact Hbody. }
  rewrite Hvt, <- app_assoc in Hlen. fold msg in Hlen.
  split; [|split; [|done]].
  - unfold enc_struct_message, enc_len_struct. cbv zeta. fold ot. rewrite Hlen.
    cbn [mbind option_bind buf]. unfold len at 1. cbn [visible].
    set (V := visible (buf o)) in *.
    assert (len (buf ot) = Z.of_nat (length (V ++ tagcode p))) as Hlt
      by (unfold len; by rewrite Hvt).
    assert (len (buf o) = Z.of_nat (length V)) as Hlo by done.
    rewrite Hlt, Hlo.
    destruct (decide (body = [])) as [->|Hne].
    + subst msg. cbn [length]. rewrite (uint64_of_nat 0) by lia.
      rewrite base128_small by lia. rewrite app_nil_r. change (N.of_nat 0) with 0.
      assert (Z.of_nat (length (V ++ tagcode p ++ [0]))
              = (Z.of_nat (length (V ++ tagcode p)) + 1)%Z) as Heq.
      { rewrite !length_app. cbn [length]. lia. }
      destruct (decide (Z.of_nat (length (V ++ tagcode p ++ [0])) = _)) as [_|Hn];
        [|done].
      unfold load, len. cbn [visible].
      destruct (decide (0 <= _ < _)%Z) as [_|Hn]; [|lia].
      rewrite Nat2Z.id, app_assoc, lookup_app_r by lia.
      rewrite Nat.sub_diag. cbn [lookup list_lookup mbind option_bind].
      destruct (decide (0 = 0)) as [_|Hn]; [|done].
      rewrite (reslice_split _ V ((tagcode p ++ [0]) ++ rest)).
      * cbn [mbind option_bind]. eexists. split; [done|]. done.
      * unfold arr. cbn [visible spare]. by rewrite <- !app_assoc.
      * done.
    + destruct (decide (_ = _ + 1)%Z) as [Heq|_]; [|eexists; split; done].
      exfalso. subst msg. rewrite !length_app in Heq.
      pose proof (base128_length_pos (uint64_of_Z (Z.of_nat (length body)))) as Hpos.
      assert (body <> []) as Hne' by done.
      apply length_pos_of_not_nil in Hne'.
      lia.
  - unfold enc_ptr_struct_message, enc_len_struct. fold ot. rewrite Hlen.
    eexists. split; [done|]. done.
Qed.
End NestedMessages.

Lemma nested_message_field_witness :
  (exists o',
     enc_struct_message grow_double (enc_struct grow_double example_schemas)
       (set_sprop (Some 1%nat) (set_tagcode [10] zeroProperties))
       (VStruct [VInt 0]) (newBuffer nil_slice) = Some o' /\
     visible (buf o') =
       if decide (@nil N = []) then visible (buf (newBuffer nil_slice))
       else visible (buf (newBuffer nil_slice))
              ++ tagcode (set_sprop (Some 1%nat) (set_tagcode [10] zeroProperties))
              ++ base128 (uint64_of_Z (Z.of_nat (length (@nil N)))) ++ []) /\
  (exists o',
     enc_ptr_struct_message grow_double (enc_struct grow_double example_schemas)
       (set_sprop (Some 1%nat) (set_tagcode [10] zeroProperties))
       (VPtr (Some (VStruct [VInt 0]))) (newBuffer nil_slice) = Some o' /\
     visible (buf o') =
       visible (buf (newBuffer nil_slice))
         ++ tagcode (set_sprop (Some 1%nat) (set_tagcode [10] zeroProperties))
         ++ base128 (uint64_of_Z (Z.of_nat (length (@nil N)))) ++ []) /\
  enc_ptr_struct_message grow_double (enc_struct grow_double example_schemas)
    (set_sprop (Some 1%nat) (set_tagcode [10] zeroProperties))
    (VPtr None) (newBuffer nil_slice) = Some (newBuffer nil_slice).
Proof.
  apply (nested_message_field grow_double example_schemas
           (set_sprop (Some 1%nat) (set_tagcode [10] zeroProperties))
           (VStruct [VInt 0]) (newBuffer nil_slice)
           (put grow_double [0; 0; 0; 0] (put grow_double [10] (newBuffer nil_slice)))
           []).
  - vm_compute. reflexivity.
  - vm_compute. reflexivity.
Defined.

(** ** Timestamps *)

Section Timestamps.
Variable growslice : Z -> Z -> Z.

(** X18: EncodeTimestamp writes the seconds under tag 1 and the
    nanoseconds under tag 2, both as varints and both always: a field
    that is zero is written as a zero, so that at least 4 bytes are
    written, for the zero time too. *)
Theorem EncodeTimestamp_both_fields (ts : Time) (o : Buffer) :
  (0 <= nsec ts < 1000000000)%Z ->
  visible (buf (EncodeTimestamp growslice ts o))
  = visible (buf o) ++ [8] ++ base128 (uint64_of_Z (unix_sec ts))
      ++ [16] ++ base128 (Z.to_N (nsec ts)) /\
  (length (visible (buf o)) + 4
   <= length (visible (buf (EncodeTimestamp growslice ts o))))%nat.
Proof.
  intros Hns.
  assert (visible (buf (EncodeTimestamp growslice ts o))
          = visible (buf o) ++ [8] ++ base128 (uint64_of_Z (unix_sec ts))
              ++ [16] ++ base128 (Z.to_N (nsec ts))) as Hv.
  { unfold EncodeTimestamp. cbv zeta. rewrite timestamp_bytes.
    assert (Time_Sub ts (time_Unix (Time_Unix ts) 0) = nsec ts) as ->.
    { unfold Time_Sub, time_Unix, Time_Unix. cbn [unix_sec nsec].
      change (0 / 1000000000)%Z with 0%Z. change (0 mod 1000000000)%Z with 0%Z. lia. }
    assert (int32 (nsec ts) = nsec ts) as ->.
    { unfold int32. rewrite Z.mod_small by lia. lia. }
    rewrite (uint64_of_Z_nonneg (nsec ts)) by lia. done. }
  split; [exact Hv|]. rewrite Hv, !length_app.
  pose proof (base128_length_pos (uint64_of_Z (unix_sec ts))).
  pose proof (base128_length_pos (Z.to_N (nsec ts))). simpl. lia.
Qed.
End Timestamps.

Lemma EncodeTimestamp_both_fields_witness :
  visible (buf (EncodeTimestamp grow_double (mkTime 0 0) (newBuffer nil_slice)))
  = visible (buf (newBuffer nil_slice)) ++ [8] ++ base128 (uint64_of_Z (unix_sec (mkTime 0 0)))
      ++ [16] ++ base128 (Z.to_N (nsec (mkTime 0 0))) /\
  (length (visible (buf (newBuffer nil_slice))) + 4
   <= length (visible (buf (EncodeTimestamp grow_double (mkTime 0 0) (newBuffer nil_slice)))))%nat.
Proof.
  apply (EncodeTimestamp_both_fields grow_double (mkTime 0 0) (newBuffer nil_slice)).
  simpl. lia.
Defined.

(** ** Packed bools *)

Lemma mapM_as_bool s : mapM as_bool (map VBool s) = Some s.
Proof. apply mapM_Some. induction s; constructor; done. Qed.

Lemma length_concat_const {A B} (f : A -> list B) (k : nat) (l : list A) :
  (forall x, length (f x) = k) -> length (concat (map f l)) = (k * length l)%nat.
Proof.
  intros Hf. induction l as [|x l IH]; cbn [map concat length]; [lia|].
  rewrite length_app, Hf, IH. lia.
Qed.

Lemma zigzag_bit_32 b :
  base128 (N.lxor (uint32 (N.shiftl (uint32 (bool_bit b)) 1))
             (uint32 (uint64_of_Z (Z.shiftr (int32 (Z.of_N (bool_bit b))) 31))))
  = [2 * bool_bit b].
Proof. destruct b; vm_compute; reflexivity. Qed.

Lemma zigzag_bit_64 b :
  base128 (N.lxor (uint64 (N.shiftl (bool_bit b) 1))
             (uint64_of_Z (Z.shiftr (int64_of_N (bool_bit b)) 63)))
  = [2 * bool_bit b].
Proof. destruct b; vm_compute; reflexivity. Qed.

Section PackedBools.
Variable growslice : Z -> Z -> Z.

(** X19: a packed field of bools is the tag code, the number of elements
    as a varint, and what [valEnc] writes for each element in order.  The
    number of elements is the number of bytes that follow when [valEnc]
    writes varints or zigzag varints, each bool taking one byte; it is
    not for a field tagged fixed32 or fixed64, whose elements take 4 or 8
    bytes each while the length written is still the number of
    elements. *)
Theorem enc_slice_packed_bool_length (p : Properties) (f : valueEncoder)
  (s : list bool) (o : Buffer) :
  valEnc p = Some f ->
  s <> [] ->
  let payload := concat (map (fun b => valEnc_bytes f (bool_bit b)) s) in
  exists o',
    enc_slice_packed_bool growslice p (VSlice (map VBool s)) o = Some o' /\
    visible (buf o') = visible (buf o) ++ tagcode p
                         ++ base128 (uint64 (N.of_nat (length s))) ++ payload /\
    length payload = match f with
                     | fEncodeFixed32 => (4 * length s)%nat
                     | fEncodeFixed64 => (8 * length s)%nat
                     | _ => length s
                     end.
Proof.
  intros Hf Hne payload. unfold enc_slice_packed_bool. cbv zeta.
  cbn [as_slice mbind option_bind]. rewrite mapM_as_bool. cbn [mbind option_bind].
  destruct (decide (length s = 0%nat)) as [Hz|_];
    [by apply length_zero_iff_nil in Hz|].
  destruct (range_valEnc_bytes growslice p f bool_bit s
              (EncodeVarint growslice (uint64 (N.of_nat (length s)))
                 (put growslice (tagcode p) o)) Hf) as (o' & H & Hv & _).
  exists o'. split; [exact H|]. split.
  - rewrite Hv, EncodeVarint_visible, put_visible, <- !app_assoc. done.
  - subst payload. destruct f; cbn [valEnc_bytes].
    + rewrite (length_concat_const _ 1); [lia|].
      intros b. rewrite base128_small by (destruct b; simpl; lia). done.
    + by rewrite (length_concat_const _ 4).
    + by rewrite (length_concat_const _ 8).
    + rewrite (length_concat_const _ 1); [lia|]. intros b. by rewrite zigzag_bit_32.
    + rewrite (length_concat_const _ 1); [lia|]. intros b. by rewrite zigzag_bit_64.
Qed.
End PackedBools.

Lemma enc_slice_packed_bool_length_witness :
  exists o',
    enc_slice_packed_bool grow_double
      (set_tagcode [10] (set_valEnc (Some fEncodeFixed32) zeroProperties))
      (VSlice (map VBool [true; false])) (newBuffer nil_slice) = Some o' /\
    visible (buf o') =
      visible (buf (newBuffer nil_slice))
        ++ tagcode (set_tagcode [10] (set_valEnc (Some fEncodeFixed32) zeroProperties))
        ++ base128 (uint64 (N.of_nat (length [true; false])))
        ++ concat (map (fun b => valEnc_bytes fEncodeFixed32 (bool_bit b)) [true; false]) /\
    length (concat (map (fun b => valEnc_bytes fEncodeFixed32 (bool_bit b)) [true; false]))
    = (4 * length [true; false])%nat.
Proof.
  apply (enc_slice_packed_bool_length grow_double
           (set_tagcode [10] (set_valEnc (Some fEncodeFixed32) zeroProperties))
           fEncodeFixed32 [true; false] (newBuffer nil_slice)).
  - reflexivity.
  - discriminate.
Defined.

(** ** The fields of a struct, one after the other *)

Section FieldsInOrder.
Variable growslice : Z -> Z -> Z.
Variable schemas : gmap tid StructProperties.



End FieldsInOrder.


(** ** Marshalers *)

Section Marshalers.
Variable growslice : Z -> Z -> Z.


End Marshalers.


(** * Properties of the schema compiler *)

(** ** What setEnc and init inherit from getPropertiesLocked *)

(** A property of the computations of the compiler that returns, panics
    and sequencing keep is a property of init and of setEnc when it is
    one of the getPropertiesLocked they call. *)
Section Structural.
Variable env : TypeEnv.
Variable XXXHack : bool.
Variable good : forall A, compile A -> Prop.
Hypothesis good_ret : forall A (a : A), good A (cret a).
Hypothesis good_Panics : forall A e, good A (Panics e).
Hypothesis good_bind : forall A B (c : compile A) (k : A -> compile B),
  good A c -> (forall a, good B (k a)) -> good B (c ≫= k).
Variable gpl : tid -> compile tid.
Hypothesis gpl_good : forall t, good _ (gpl t).

Ltac good_step :=
  first
    [ apply good_ret
    | apply good_Panics
    | apply gpl_good
    | assumption
    | apply good_bind; [|intros ?]
    | match goal with
      | H : forall a b c d, good _ (_ a b c d) |- _ => apply H
      | H : forall a b c d e, good _ (_ a b c d e) |- _ => apply H
      | |- good _ (match ?x with _ => _ end) => destruct x
      end ].

Lemma good_set_struct t ptrType p : good _ (set_struct env gpl t ptrType p).
Proof. unfold set_struct. cbv zeta. repeat good_step. Qed.

Lemma good_setEnc_Ptr t1 t2 p : good _ (setEnc_Ptr env gpl t1 t2 p).
Proof. unfold setEnc_Ptr. repeat first [apply good_set_struct | good_step]. Qed.

Lemma good_setEnc_Slice t1 t2 w p : good _ (setEnc_Slice env gpl t1 t2 w p).
Proof.
  unfold setEnc_Slice. cbv zeta. repeat first [apply good_set_struct | good_step].
Qed.

Lemma good_setEnc_Array t1 n t2 w p : good _ (setEnc_Array env gpl t1 n t2 w p).
Proof.
  unfold setEnc_Array. cbv zeta. repeat first [apply good_set_struct | good_step].
Qed.

Lemma good_init setEnc p typ name tag f :
  (forall a b c d, good _ (setEnc a b c d)) ->
  good _ (init env XXXHack setEnc p typ name tag f).
Proof.
  intros HsetEnc. unfold init. cbv zeta.
  destruct (decide _); [destruct (_ && _); apply good_ret|].
  destruct (Parse _ _) as [p' [[ie skip] e]].
  destruct (_ || _); repeat good_step.
Qed.

Lemma good_setEnc_Map init_entry t1 key elem f p :
  (forall a b c d e, good _ (init_entry a b c d e)) ->
  good _ (setEnc_Map env init_entry t1 key elem f p).
Proof.
  intros Hentry. unfold setEnc_Map. cbv zeta. destruct f; repeat good_step.
Qed.

Lemma good_setEnc_with init_entry p typ f ie :
  (forall a b c d e, good _ (init_entry a b c d e)) ->
  good _ (setEnc_with env gpl init_entry p typ f ie).
Proof.
  intros Hentry. unfold setEnc_with. cbv zeta.
  apply good_bind; [|intros ?; apply good_ret].
  destruct typ as [k| | | | |]; [destruct k|..];
    repeat first [apply good_set_struct | apply good_setEnc_Ptr
                 | apply good_setEnc_Slice | apply good_setEnc_Array
                 | apply good_setEnc_Map; [exact Hentry]
                 | good_step].
Qed.

Lemma good_setEnc_entry p typ f ie : good _ (setEnc_entry env gpl p typ f ie).
Proof.
  unfold setEnc_entry. apply good_setEnc_with. intros. apply good_ret.
Qed.

Lemma good_setEnc p typ f ie : good _ (setEnc env XXXHack gpl p typ f ie).
Proof.
  unfold setEnc. apply good_setEnc_with. intros.
  apply good_init. intros. apply good_setEnc_entry.
Qed.

Lemma good_field_init p f i :
  good _ (init env XXXHack (setEnc env XXXHack gpl) p (fType f) (fName f) (fTag f)
            (Some (f, i))).
Proof. apply good_init. intros. apply good_setEnc. Qed.
End Structural.

(** ** The entries of the map that a computation leaves as they are *)

Lemma frames_on_ret P {A} (a : A) : frames_on P (cret a).
Proof. intros m. simpl. auto. Qed.

Lemma frames_on_Panics P {A} e : frames_on P (@Panics A e).
Proof. intros m. simpl. auto. Qed.

Lemma frames_on_bind P {A B} (c : compile A) (k : A -> compile B) :
  frames_on P c -> (forall a, frames_on P (k a)) -> frames_on P (c ≫= k).
Proof.
  intros Hc Hk m. unfold mbind, compile_bind, cbind.
  specialize (Hc m). destruct (c m) as [a m1|e m1|]; [|done..].
  specialize (Hk a m1). destruct (k a m1) as [b m2|e m2|]; [| |done]; auto.
Qed.

(** ** The fuel that a computation needs *)

Lemma within_fuel_ret env k {A} (a : A) : within_fuel env k (cret a).
Proof. intros m. simpl. auto. Qed.

Lemma within_fuel_Panics env k {A} e : within_fuel env k (@Panics A e).
Proof. intros m. simpl. auto. Qed.

Lemma within_fuel_bind env n {A B} (c : compile A) (k : A -> compile B) :
  within_fuel env n c -> (forall a, within_fuel env n (k a)) -> within_fuel env n (c ≫= k).
Proof.
  intros Hc Hk m Hm. unfold mbind, compile_bind, cbind.
  specialize (Hc m Hm). destruct (c m) as [a m1|e m1|]; [|done..].
  by apply Hk.
Qed.

(** ** The loop over the fields *)

Lemma lookup_store_Prop_ne t t' i p (m : propertiesMap_t) :
  t' ≠ t -> store_Prop t i p m !! t' = m !! t'.
Proof. intros. unfold store_Prop. by rewrite lookup_alter_ne. Qed.

Lemma lookup_store_order_ne t t' j i (m : propertiesMap_t) :
  t' ≠ t -> store_order t j i m !! t' = m !! t'.
Proof. intros. unfold store_order. by rewrite lookup_alter_ne. Qed.

Lemma tag_of_field_insert_ne sp ord ord' i p a :
  a ≠ i ->
  tag_of_field (mkStructProperties (<[i := p]> (Prop_ sp)) ord) a
  = tag_of_field (mkStructProperties (Prop_ sp) ord') a.
Proof. intros. unfold tag_of_field. cbn [Prop_]. by rewrite list_lookup_insert_ne. Qed.

Lemma tag_of_field_order sp ord ord' a :
  tag_of_field (mkStructProperties (Prop_ sp) ord) a
  = tag_of_field (mkStructProperties (Prop_ sp) ord') a.
Proof. done. Qed.

Section Loop.
Variable env : TypeEnv.
Variable XXXHack : bool.
Variable gpl : tid -> compile tid.
Hypothesis gpl_frames : forall t, frames_on (fun _ => True) (gpl t).

Lemma frames_field_init p f i :
  frames_on (fun _ => True)
    (init env XXXHack (setEnc env XXXHack gpl) p (fType f) (fName f) (fTag f) (Some (f, i))).
Proof.
  apply (good_field_init env XXXHack (fun A => @frames_on (fun _ => True) A)).
  - intros. apply frames_on_ret.
  - intros. apply frames_on_Panics.
  - intros. by apply frames_on_bind.
  - exact gpl_frames.
Qed.

Lemma frames_field_step t i f seen j :
  frames_on (fun t' => t' ≠ t) (field_step env XXXHack gpl t i f seen j).
Proof.
  intros m. unfold field_step. cbv zeta.
  pose proof (frames_field_init (default zeroProperties (Prop_ (object_of m t) !! i))
                f i m) as Hinit.
  destruct (init _ _ _ _ _ _ _ _ m) as [[p [skip e]] m2|e m2|]; [|by auto|done].
  destruct (bool_decide _); [|destruct skip; [|destruct (decide _)]].
  all: intros t' sp Hne Hm; rewrite ?lookup_store_order_ne, lookup_store_Prop_ne by done;
    by apply Hinit.
Qed.

Lemma frames_fields_loop t fs : forall i seen j,
  frames_on (fun t' => t' ≠ t) (fields_loop env XXXHack gpl t fs i seen j).
Proof.
  induction fs as [|f fs IH]; intros i seen j; cbn [fields_loop].
  - apply frames_on_ret.
  - apply frames_on_bind; [apply frames_field_step|]. intros r. apply IH.
Qed.

Lemma frames_finish_properties t j :
  frames_on (fun t' => t' ≠ t) (finish_properties t j).
Proof.
  intros m. unfold finish_properties. cbv zeta. intros t' sp Hne Hm.
  by rewrite lookup_insert_ne.
Qed.

(** The object of [t] through one turn of the loop. *)
Lemma field_step_inv t nf i f seen j m r m' :
  (i < nf)%nat ->
  fields_inv t nf i seen j m ->
  field_step env XXXHack gpl t i f seen j m = Returns r m' ->
  fields_inv t nf (S i) r.1 r.2 m'.
Proof.
  intros Hi (sp & Hsp & HlP & Hlo & Hji & Hlt & Hnd & Hseen). unfold field_step. cbv zeta.
  pose proof (frames_field_init (default zeroProperties (Prop_ (object_of m t) !! i))
                f i m) as Hinit.
  destruct (init _ _ _ _ _ _ _ _ m) as [[p [skip e]] m2|e m2|]; [|done..].
  specialize (Hinit t sp I Hsp).
  set (sp1 := mkStructProperties (<[i := p]> (Prop_ sp)) (order sp)).
  assert (store_Prop t i p m2 !! t = Some sp1) as Hsp1.
  { unfold store_Prop. by rewrite lookup_alter_eq, Hinit. }
  assert (forall a, a ∈ take j (order sp) -> tag_of_field sp1 a = tag_of_field sp a) as Htag.
  { intros a Ha. destruct sp as [Pr ord]. apply (tag_of_field_insert_ne (mkStructProperties Pr ord)).
    rewrite Forall_forall in Hlt. specialize (Hlt a Ha). cbn [order] in *. lia. }
  assert (fields_inv t nf (S i) seen j (store_Prop t i p m2)) as Hskip.
  { exists sp1. split; [done|]. cbn [sp1 Prop_ order]. rewrite length_insert.
    split; [done|]. split; [done|]. split; [lia|]. split; [|split].
    - eapply Forall_impl; [exact Hlt|]. simpl. lia.
    - erewrite map_ext_in; [exact Hnd|]. intros a Ha. apply Htag.
      by apply list_elem_of_In.
    - intros a Ha. rewrite Htag by done. by apply Hseen. }
  destruct (bool_decide _); [by intros [= <- <-]|].
  destruct skip; [by intros [= <- <-]|].
  destruct (decide (Tag p ∈ seen)) as [|Hnew]; [done|]. intros [= <- <-]. cbn [fst snd].
  assert (j < length (order sp))%nat as Hj by lia.
  set (sp2 := mkStructProperties (Prop_ sp1) (<[j := i]> (order sp1))).
  exists sp2. split.
  { unfold store_order. by rewrite lookup_alter_eq, Hsp1. }
  cbn [sp2 sp1 Prop_ order]. rewrite !length_insert.
  split; [done|]. split; [done|]. split; [lia|].
  assert (take (S j) (<[j := i]> (order sp)) = take j (order sp) ++ [i]) as Htake.
  { rewrite (take_S_r _ _ i) by (by apply list_lookup_insert_eq).
    by rewrite take_insert_ge by lia. }
  rewrite Htake.
  assert (tag_of_field sp2 i = Tag p) as Htagi.
  { unfold tag_of_field. cbn [sp2 sp1 Prop_].
    rewrite list_lookup_insert_eq by lia. done. }
  assert (forall a, a ∈ take j (order sp) -> tag_of_field sp2 a = tag_of_field sp a) as Htag2.
  { intros a Ha. rewrite <- (Htag a Ha). done. }
  split; [|split].
  - apply Forall_app. split.
    + eapply Forall_impl; [exact Hlt|]. simpl. lia.
    + apply Forall_singleton. lia.
  - rewrite map_app. cbn [map]. rewrite Htagi.
    erewrite map_ext_in; [|intros a Ha; apply Htag2; by apply list_elem_of_In].
    apply NoDup_app. split; [done|]. split; [|apply NoDup_singleton].
    intros x Hx Hx'. apply list_elem_of_singleton in Hx'. subst x.
    apply list_elem_of_fmap in Hx as (a & Heq & Ha). apply Hnew. rewrite Heq. by apply Hseen.
  - intros a Ha. apply elem_of_app in Ha as [Ha|Ha].
    + rewrite Htag2 by done. apply elem_of_union_r. by apply Hseen.
    + apply list_elem_of_singleton in Ha. subst a. rewrite Htagi.
      apply elem_of_union_l. by apply elem_of_singleton.
Qed.

Lemma fields_loop_inv t nf fs : forall i seen j m r m',
  (i + length fs = nf)%nat ->
  fields_inv t nf i seen j m ->
  fields_loop env XXXHack gpl t fs i seen j m = Returns r m' ->
  exists seen', fields_inv t nf nf seen' r m'.
Proof.
  induction fs as [|f fs IH]; intros i seen j m r m' Hlen Hinv; cbn [fields_loop].
  - intros [= <- <-]. simpl in Hlen. assert (nf = i) as -> by lia. by exists seen.
  - unfold mbind, compile_bind, cbind.
    destruct (field_step _ _ _ _ _ _ _ _ m) as [r1 m1|e m1|] eqn:Hstep; [|done..].
    intros Hloop. simpl in Hlen.
    eapply (IH (S i)); [lia| |exact Hloop].
    eapply field_step_inv; [|exact Hinv|exact Hstep]. lia.
Qed.
End Loop.

(** ** getPropertiesLocked *)

#[local] Instance tag_le_trans sp : Transitive (tag_le sp).
Proof. intros a b c. unfold tag_le. lia. Qed.
#[local] Instance tag_le_total sp : Total (tag_le sp).
Proof. intros a b. unfold tag_le. lia. Qed.

Lemma sorted_by_tag (f : nat -> N) l :
  StronglySorted (fun a b => f a <= f b) l -> NoDup (map f l) ->
  StronglySorted N.lt (map f l).
Proof.
  induction 1 as [|a l Hs IH Hall]; intros Hnd; cbn [map]; constructor.
  - apply IH. by apply NoDup_cons_1_2 in Hnd.
  - apply NoDup_cons in Hnd as [Hnotin _]. clear IH Hs.
    induction Hall as [|b l Hab Hall IHl]; cbn [map]; constructor.
    + apply not_elem_of_cons in Hnotin as [Hne _]. lia.
    + apply IHl. apply not_elem_of_cons in Hnotin as [_ Hnotin]. exact Hnotin.
Qed.

Lemma props_tags sp :
  Forall (fun a => (a < length (Prop_ sp))%nat) (order sp) ->
  map Tag (props sp) = map (tag_of_field sp) (order sp) /\
  length (props sp) = length (order sp).
Proof.
  unfold props. induction (order sp) as [|a l IH]; intros Hall; [done|].
  apply Forall_cons in Hall as [Ha Hl]. destruct (IH Hl) as [IH1 IH2].
  apply lookup_lt_is_Some_2 in Ha as [p Hp].
  cbn [omap list_omap map]. rewrite Hp. cbn [map length].
  unfold tag_of_field at 1. rewrite Hp. cbn. by rewrite IH1, IH2.
Qed.

Section GetProperties.
Variable env : TypeEnv.
Variable XXXHack : bool.

Lemma frames_getPropertiesLocked fuel : forall t,
  frames_on (fun _ => True) (getPropertiesLocked env XXXHack fuel t).
Proof.
  induction fuel as [|fuel IH]; intros t m; cbn [getPropertiesLocked];
    destruct (m !! t) eqn:Hm; [by auto|done|by auto|].
  cbv zeta. set (m1 := <[t := _]> m).
  pose proof (frames_on_bind (fun t' => t' ≠ t) _ (finish_properties t)
                (frames_fields_loop env XXXHack _ IH t (NumField_Field env t) 0%nat ∅ 0%nat)
                (frames_finish_properties t) m1) as Hf.
  destruct (_ ≫= _) as [r m2|e m2|]; [| |done].
  all: intros t' sp _ Hsp; apply Hf; [congruence|].
  all: subst m1; rewrite lookup_insert_ne by congruence; done.
Qed.

(** The schema that a compilation leaves for its type. *)
Lemma getPropertiesLocked_schema fuel t m t' m' :
  m !! t = None ->
  getPropertiesLocked env XXXHack fuel t m = Returns t' m' ->
  t' = t /\
  exists sp,
    m' !! t = Some sp /\
    StronglySorted N.lt (map Tag (props sp)) /\
    length (props sp) = length (order sp) /\
    (length (order sp) <= length (NumField_Field env t))%nat /\
    NoDup (order sp).
Proof.
  intros Hm. destruct fuel as [|fuel]; cbn [getPropertiesLocked]; rewrite Hm; [done|].
  cbv zeta. set (fs := NumField_Field env t). set (nf := length fs).
  set (m1 := <[t := _]> m).
  assert (fields_inv t nf 0 ∅ 0 m1) as Hinv.
  { eexists. split; [subst m1; apply lookup_insert_eq|]. cbn [Prop_ order].
    rewrite !length_replicate, take_0. split; [done|]. split; [done|]. split; [done|].
    split; [constructor|]. split; [constructor|].
    intros a Ha. by apply elem_of_nil in Ha. }
  unfold mbind, compile_bind, cbind.
  destruct (fields_loop _ _ _ _ _ _ _ _ m1) as [j m2|e m2|] eqn:Hloop; [|done..].
  destruct (fields_loop_inv env XXXHack _ (frames_getPropertiesLocked fuel)
              t nf fs 0%nat ∅ 0%nat m1 j m2 eq_refl Hinv Hloop)
    as (seen & sp & Hsp & HlP & Hlo & Hj & Hlt & Hnd & _).
  unfold finish_properties. cbv zeta. intros [= <- <-]. split; [done|].
  unfold object_of. rewrite Hsp.
  change (default zeroStructProperties (Some sp)) with sp.
  set (L := take j (order sp)) in *.
  set (sp1 := mkStructProperties (Prop_ sp) L).
  exists (sort_Sort sp1). split; [apply lookup_insert_eq|].
  set (spf := sort_Sort sp1).
  assert (order spf ≡ₚ L) as Hperm by apply merge_sort_Permutation.
  assert (Forall (fun a => (a < length (Prop_ spf))%nat) (order spf)) as Hin.
  { rewrite Hperm. change (Prop_ spf) with (Prop_ sp). rewrite HlP. exact Hlt. }
  destruct (props_tags spf Hin) as [Htags Hlen].
  split; [|split; [done|split]].
  - rewrite Htags. apply (sorted_by_tag (tag_of_field spf)).
    + apply (StronglySorted_merge_sort (tag_le sp1)).
    + change (tag_of_field spf) with (tag_of_field sp). by rewrite Hperm.
  - rewrite Hperm. subst L. rewrite length_take. subst nf. lia.
  - rewrite Hperm. apply (NoDup_fmap_1 (tag_of_field sp)). exact Hnd.
Qed.
End GetProperties.

(** ** Fuel *)

Lemma uncompiled_insert env t sp (m : propertiesMap_t) :
  uncompiled env (<[t := sp]> m) = uncompiled env m ∖ {[t]}.
Proof.
  unfold uncompiled. rewrite dom_insert_L. apply set_eq. intros x.
  rewrite !elem_of_difference, elem_of_union, elem_of_singleton. tauto.
Qed.

Lemma uncompiled_store_Prop env t i p (m : propertiesMap_t) :
  uncompiled env (store_Prop t i p m) = uncompiled env m.
Proof. unfold uncompiled, store_Prop. by rewrite dom_alter_L. Qed.

Lemma uncompiled_store_order env t j i (m : propertiesMap_t) :
  uncompiled env (store_order t j i m) = uncompiled env m.
Proof. unfold uncompiled, store_order. by rewrite dom_alter_L. Qed.

Lemma size_uncompiled_insert env t sp (m : propertiesMap_t) :
  (size (uncompiled env (<[t := sp]> m)) <= size (uncompiled env m))%nat.
Proof.
  rewrite uncompiled_insert. apply subseteq_size. intros x.
  rewrite elem_of_difference. tauto.
Qed.

Section Fuel.
Variable env : TypeEnv.
Variable XXXHack : bool.

Section Loop.
Variable k : nat.
Variable gpl : tid -> compile tid.
Hypothesis gpl_within : forall t, within_fuel env k (gpl t).

Lemma within_fuel_field_init p f i :
  within_fuel env k
    (init env XXXHack (setEnc env XXXHack gpl) p (fType f) (fName f) (fTag f) (Some (f, i))).
Proof.
  apply (good_field_init env XXXHack (fun A => @within_fuel env k A)).
  - intros. apply within_fuel_ret.
  - intros. apply within_fuel_Panics.
  - intros. by apply within_fuel_bind.
  - exact gpl_within.
Qed.

Lemma within_fuel_field_step t i f seen j :
  within_fuel env k (field_step env XXXHack gpl t i f seen j).
Proof.
  intros m Hm. unfold field_step. cbv zeta.
  pose proof (within_fuel_field_init
                (default zeroProperties (Prop_ (object_of m t) !! i)) f i m Hm) as Hinit.
  destruct (init _ _ _ _ _ _ _ _ m) as [[p [skip e]] m2|e m2|]; [|done..].
  destruct (bool_decide _); [|destruct skip; [|destruct (decide _)]].
  all: rewrite ?uncompiled_store_order, uncompiled_store_Prop; done.
Qed.

Lemma within_fuel_fields_loop t fs : forall i seen j,
  within_fuel env k (fields_loop env XXXHack gpl t fs i seen j).
Proof.
  induction fs as [|f fs IH]; intros i seen j; cbn [fields_loop].
  - apply within_fuel_ret.
  - apply within_fuel_bind; [apply within_fuel_field_step|]. intros r. apply IH.
Qed.
End Loop.

Lemma within_fuel_finish_properties k t j : within_fuel env k (finish_properties t j).
Proof.
  intros m Hm. unfold finish_properties. cbv zeta.
  eapply Nat.le_lt_trans; [apply size_uncompiled_insert|done].
Qed.

Lemma within_fuel_getPropertiesLocked fuel : forall t,
  within_fuel env fuel (getPropertiesLocked env XXXHack fuel t).
Proof.
  induction fuel as [|fuel IH]; intros t m Hm; [lia|].
  cbn [getPropertiesLocked]. destruct (m !! t) eqn:Hmt; [done|]. cbv zeta.
  set (m1 := <[t := _]> m).
  destruct (structs env !! t) as [st|] eqn:Hst.
  - assert (size (uncompiled env m1) < fuel)%nat as Hm1.
    { subst m1. rewrite uncompiled_insert.
      assert (t ∈ uncompiled env m) as Ht.
      { unfold uncompiled. apply elem_of_difference. split.
        - by apply elem_of_dom.
        - by apply not_elem_of_dom. }
      pose proof (size_difference (uncompiled env m) {[t]}) as Hsz.
      rewrite size_singleton in Hsz.
      rewrite Hsz by (by apply singleton_subseteq_l). 
      assert (size (uncompiled env m) ≠ 0)%nat.
      { intros H0. apply size_empty_inv in H0. rewrite H0 in Ht.
        by apply not_elem_of_empty in Ht. }
      lia. }
    pose proof (within_fuel_bind env fuel _ (finish_properties t)
                  (within_fuel_fields_loop fuel _ IH t (NumField_Field env t) 0%nat ∅ 0%nat)
                  (within_fuel_finish_properties fuel t) m1 Hm1) as Hrun.
    destruct (_ ≫= _) as [r m2|e m2|]; [lia|lia|done].
  - unfold NumField_Field. rewrite Hst. cbn [length fields_loop].
    unfold mbind, compile_bind, cbind, cret, finish_properties. cbv zeta.
    eapply Nat.le_lt_trans; [apply size_uncompiled_insert|].
    eapply Nat.le_lt_trans; [apply size_uncompiled_insert|done].
Qed.

(** X16: compiling a type does not run out of fuel when the fuel exceeds
    the number of struct types of the program that are not in the map
    yet: a type that refers to itself, directly or through other types,
    is compiled once, its fields finding the entry made for it before
    they are looked at. *)
Theorem getPropertiesLocked_fuel (fuel : nat) (t : tid) (m : propertiesMap_t) :
  (size (uncompiled env m) < fuel)%nat ->
  getPropertiesLocked env XXXHack fuel t m <> OutOfFuel.
Proof.
  intros Hm H. pose proof (within_fuel_getPropertiesLocked fuel t m Hm) as Hw.
  by rewrite H in Hw.
Qed.

(** X14: the schema that getPropertiesLocked makes for a type that was
    not in the map lists the fields it retains by strictly ascending
    tag: no two of them have the same tag, none is listed twice, and
    there are no more of them than the type has fields.  The entries
    that were in the map are left as they were. *)
Theorem getPropertiesLocked_sorted (fuel : nat) (t : tid) (m : propertiesMap_t) :
  m !! t = None ->
  match getPropertiesLocked env XXXHack fuel t m with
  | Returns t' m' =>
      t' = t /\
      (forall u sp, m !! u = Some sp -> m' !! u = Some sp) /\
      exists sp,
        m' !! t = Some sp /\
        StronglySorted N.lt (map Tag (props sp)) /\
        length (props sp) = length (order sp) /\
        (length (order sp) <= length (NumField_Field env t))%nat /\
        NoDup (order sp)
  | _ => True
  end.
Proof.
  intros Hm.
  pose proof (frames_getPropertiesLocked env XXXHack fuel t m) as Hf.
  destruct (getPropertiesLocked _ _ _ _ _) as [t' m'|e m'|] eqn:H; [|done..].
  destruct (getPropertiesLocked_schema env XXXHack fuel t m t' m' Hm H) as [-> Hsp].
  split; [done|]. split; [|exact Hsp]. intros u sp. by apply Hf.
Qed.

(** X15: GetProperties is memoized: once it has returned the schema of a
    type, it returns the same schema for that type again, whatever the
    fuel, and leaves the map as it is. *)
Theorem GetProperties_memoized (fuel fuel' : nat) (ty : gotype) (m : propertiesMap_t) :
  match GetProperties_of env XXXHack fuel ty m with
  | Returns t m' => GetProperties_of env XXXHack fuel' ty m' = Returns t m'
  | _ => True
  end.
Proof.
  unfold GetProperties_of. cbv zeta.
  destruct (match ty with Ptr e => e | _ => ty end) as [| t0 | | | |]; try done.
  destruct (m !! t0) as [sp0|] eqn:Hm.
  - by rewrite Hm.
  - destruct (getPropertiesLocked _ _ _ _ _) as [t' m'|e m'|] eqn:H; [|done..].
    destruct (getPropertiesLocked_schema env XXXHack fuel t0 m t' m' Hm H)
      as [-> (sp & Hsp & _)].
    by rewrite Hsp.
Qed.
End Fuel.

Lemma getPropertiesLocked_fuel_witness :
  getPropertiesLocked example_env false 3 2%nat propertiesMap_init <> OutOfFuel.
Proof.
  apply (getPropertiesLocked_fuel example_env false 3 2%nat propertiesMap_init).
  vm_compute. lia.
Defined.

Lemma getPropertiesLocked_sorted_witness :
  match getPropertiesLocked example_env false 3 1%nat propertiesMap_init with
  | Returns t' m' =>
      t' = 1%nat /\
      (forall u sp, propertiesMap_init !! u = Some sp -> m' !! u = Some sp) /\
      exists sp,
        m' !! 1%nat = Some sp /\
        StronglySorted N.lt (map Tag (props sp)) /\
        length (props sp) = length (order sp) /\
        (length (order sp) <= length (NumField_Field example_env 1%nat))%nat /\
        NoDup (order sp)
  | _ => True
  end.
Proof.
  apply (getPropertiesLocked_sorted example_env false 3 1%nat propertiesMap_init).
  reflexivity.
Defined.
